(** * Cooperative minimum spanning tree environment (jumanji, routing/cmst)

    A shallow embedding of [jumanji/environments/routing/cmst/env.py] and of
    the time-step constructors of [jumanji/types.py], followed by the
    properties of the step engine: tie-breaking, edge masking, connectivity
    bookkeeping and termination.

    Arrays are lists.  JAX indexing is written out: a negative index counts
    from the end, a read out of range is clamped to the nearest valid index
    and a write out of range is dropped. *)

From stdpp Require Import base numbers list gmap.
From Stdlib Require Import QArith.

Local Open Scope Z_scope.

(** ** JAX array primitives *)

(** NumPy-style normalisation of a possibly negative index. *)
Definition normalize_index (n : nat) (i : Z) : Z :=
  if i <? 0 then i + Z.of_nat n else i.

(** Index used by a read: normalised, then clamped into [0, n-1]. *)
Definition clip_index (n : nat) (i : Z) : nat :=
  Z.to_nat (Z.max 0 (Z.min (normalize_index n i) (Z.of_nat n - 1))).

(** Index used by a write: normalised; none when it falls out of range. *)
Definition in_bounds (n : nat) (i : Z) : option nat :=
  let j := normalize_index n i in
  if (0 <=? j) && (j <? Z.of_nat n) then Some (Z.to_nat j) else None.

(** [x[i]] *)
Definition jget {A} (d : A) (l : list A) (i : Z) : A :=
  default d (l !! clip_index (length l) i).

(** [x.at[i].set(v)] *)
Definition jset {A} (l : list A) (i : Z) (v : A) : list A :=
  match in_bounds (length l) i with
  | Some k => <[k := v]> l
  | None => l
  end.

(** [jnp.arange(n)] *)
Definition arange (n : nat) : list Z := Z.of_nat <$> seq 0 n.

(** [jnp.zeros_like] on a vector and on a matrix. *)
Definition zeros_like (l : list Z) : list Z := replicate (length l) 0.
Definition zeros_like2 (m : list (list Z)) : list (list Z) := zeros_like <$> m.

(** [jnp.sum(v == x)] *)
Definition count_eq (x : Z) (v : list Z) : Z :=
  Z.of_nat (length (filter (fun y => y = x) v)).

(** [jnp.isin(element, test_elements)] for one element. *)
Definition isin (x : Z) (test_elements : list Z) : bool :=
  bool_decide (x ∈ test_elements).

(** [jnp.sum] of a boolean vector. *)
Definition sum_bool (v : list bool) : Z :=
  foldr (fun b acc => Z.b2z b + acc) 0 v.

(** [v.all()] *)
Definition all (v : list bool) : bool := forallb id v.

(** [jax.lax.switch]: the index is clamped into the range of the branches. *)
Definition lax_switch {A} (index : Z) (branches : list A) (d : A) : A :=
  default d
    (branches !! Z.to_nat (Z.max 0 (Z.min index (Z.of_nat (length branches) - 1)))).

(** [jax.lax.while_loop]; [fuel] bounds the number of iterations. *)
Fixpoint while_loop {S} (fuel : nat) (cond_fun : S -> bool) (body_fun : S -> S)
    (init_val : S) : S :=
  match fuel with
  | O => init_val
  | Datatypes.S fuel' =>
      if cond_fun init_val
      then while_loop fuel' cond_fun body_fun (body_fun init_val)
      else init_val
  end.

(** ** Constants (cmst/constants.py, as listed in the class docstring) *)

Definition INVALID_NODE : Z := -1.
Definition UTILITY_NODE : Z := -1.
Definition EMPTY_NODE : Z := -1.
Definition DUMMY_NODE : Z := -10.
Definition EMPTY_EDGE : Z := -1.
Definition INVALID_CHOICE : Z := -1.
Definition INVALID_TIE_BREAK : Z := -2.
Definition INVALID_ALREADY_TRAVERSED : Z := -3.

(** ** jumanji/types.py *)

Inductive StepType := FIRST | MID | LAST.

Record Observation := {
  obs_node_types : list Z;
  obs_adj_matrix : list (list Z);
  obs_positions : list Z;
  obs_action_mask : list (list bool)
}.

(** Rewards and discounts are floats in the source; they are carried as
    rationals (only the values 0 and 1 of the discount are ever inspected). *)
Record TimeStep := {
  step_type : StepType;
  reward : Q;
  discount : Q;
  observation : Observation
}.

Definition restart (observation : Observation) : TimeStep :=
  {| step_type := FIRST; reward := 0%Q; discount := 1%Q;
     observation := observation |}.

Definition transition (reward : Q) (observation : Observation) : TimeStep :=
  {| step_type := MID; reward := reward; discount := 1%Q;
     observation := observation |}.

Definition termination (reward : Q) (observation : Observation) : TimeStep :=
  {| step_type := LAST; reward := reward; discount := 0%Q;
     observation := observation |}.

Definition truncation (reward : Q) (observation : Observation) : TimeStep :=
  {| step_type := LAST; reward := reward; discount := 1%Q;
     observation := observation |}.

(** ** Randomness

    [jax.random] is a deterministic function of the key; the only law used
    is that [permutation] returns a rearrangement of its argument. *)
Class JaxRandom (Key : Type) := {
  random_split : Key -> Key * Key;
  random_permutation : Key -> list Z -> list Z;
  random_permutation_perm : forall k l, Permutation (random_permutation k l) l
}.

(** ** cmst/types.py: State *)

Record State (Key : Type) := {
  node_types : list Z;
  adj_matrix : list (list Z);
  nodes_to_connect : list (list Z);
  connected_nodes : list (list Z);
  connected_nodes_index : list (list Z);
  position_index : list Z;
  positions : list Z;
  node_edges : list (list (list Z));
  action_mask : list (list bool);
  finished_agents : list bool;
  step_count : Z;
  key : Key
}.

Arguments node_types {Key} _.
Arguments adj_matrix {Key} _.
Arguments nodes_to_connect {Key} _.
Arguments connected_nodes {Key} _.
Arguments connected_nodes_index {Key} _.
Arguments position_index {Key} _.
Arguments positions {Key} _.
Arguments node_edges {Key} _.
Arguments action_mask {Key} _.
Arguments finished_agents {Key} _.
Arguments step_count {Key} _.
Arguments key {Key} _.

(** What the generator (cmst/generator.py) hands to [reset]. *)
Record Problem := {
  gen_node_types : list Z;
  gen_adj_matrix : list (list Z);
  gen_agents_pos : list Z;
  gen_conn_nodes : list (list Z);
  gen_conn_nodes_index : list (list Z);
  gen_node_edges : list (list Z);
  gen_nodes_to_connect : list (list Z)
}.

(** The environment object ([self]).  The generator and the reward function
    are collaborators supplied at construction. *)
Record CoopMinSpanTree (Key : Type) := {
  num_nodes : nat;
  num_edges : nat;
  max_degree : nat;
  num_agents : nat;
  num_nodes_per_agent : nat;
  _step_limit : Z;
  _reward_fn : State Key -> list Z -> list (list Z) -> list Q;
  _generator_fn : Key -> Problem
}.

Arguments num_nodes {Key} _.
Arguments num_edges {Key} _.
Arguments max_degree {Key} _.
Arguments num_agents {Key} _.
Arguments num_nodes_per_agent {Key} _.
Arguments _step_limit {Key} _.
Arguments _reward_fn {Key} _.
Arguments _generator_fn {Key} _.

(** ** cmst/env.py: CoopMinSpanTree *)

Section Env.
Context {Key : Type} `{JaxRandom Key}.
Variable self : CoopMinSpanTree Key.

(** [_get_obsv]: node types relabelled from the point of view of agent 0. *)
Definition _get_obsv (node_types : list Z)
    (connected_nodes_index : list (list Z)) : list Z :=
  let zero_mask := (fun x => negb (x =? UTILITY_NODE)) <$> node_types in
  let ones_inds := (fun x => x =? UTILITY_NODE) <$> node_types in
  let agent_id := 0 in
  let node_types := (fun x => x - agent_id) <$> node_types in
  let node_types := (fun x => x `mod` Z.of_nat (num_agents self)) <$> node_types in
  let node_types := (fun x => x * 2) <$> node_types in
  let node_types := (fun x => x + 1) <$> node_types in
  let node_types := zip_with (fun x b => x * Z.b2z b) node_types zero_mask in
  let node_types := zip_with (fun x b => x - Z.b2z b) node_types ones_inds in
  fold_left
    (fun node_types agent =>
       let row := jget [] connected_nodes_index (Z.of_nat agent) in
       let connected_mask := (fun x => x =? UTILITY_NODE) <$> row in
       let connected_ones := (fun x => negb (x =? UTILITY_NODE)) <$> row in
       let node_types :=
         zip_with (fun x b => x * Z.b2z b) node_types connected_mask in
       let agent_skip :=
         (Z.of_nat agent - agent_id) `mod` Z.of_nat (num_agents self) in
       zip_with (fun x b => x + (2 * agent_skip) * Z.b2z b)
         node_types connected_ones)
    (seq 0 (num_agents self)) node_types.

(** [_state_to_observation] *)
Definition _state_to_observation (state : State Key) : Observation :=
  {| obs_node_types :=
       _get_obsv (node_types state) (connected_nodes_index state);
     obs_adj_matrix := adj_matrix state;
     obs_positions := positions state;
     obs_action_mask := action_mask state |}.

(** [_update_action_mask] *)
Definition _update_action_mask (node_edges : list (list (list Z)))
    (position : list Z) (finished_agents : list bool) : list (list bool) :=
  let full_action_mask : list (list (list bool)) :=
    fmap (M := list) (fmap (M := list) (fun e => negb (e =? EMPTY_NODE)))
      <$> node_edges in
  let action_mask :=
    replicate (num_agents self) (replicate (num_nodes self) false) in
  fold_left
    (fun (action_mask : list (list bool)) agent =>
       let node := jget 0 position (Z.of_nat agent) in
       jset action_mask (Z.of_nat agent)
         ((fun b => b && negb (jget false finished_agents (Z.of_nat agent)))
            <$> jget [] (jget [] full_action_mask (Z.of_nat agent)) node))
    (seq 0 (num_agents self)) action_mask.

(** [update_edges], local to [_update_active_edges]: every entry equal to
    [node] becomes [0 - 1]. *)
Definition update_edges (node_edges : list (list Z)) (node : Z)
    : list (list Z) :=
  fmap (M := list)
    (fun e => e * Z.b2z (negb (e =? node)) - Z.b2z (e =? node))
    <$> node_edges.

(** [_update_active_edges] *)
Definition _update_active_edges (node_edges : list (list (list Z)))
    (position : list Z) (node_types : list Z) : list (list (list Z)) :=
  let active_node_edges := node_edges in
  fold_left
    (fun active_node_edges agent =>
       let node := jget 0 position (Z.of_nat agent) in
       let cond := jget 0 node_types node =? UTILITY_NODE in
       fold_left
         (fun active_node_edges agent2 =>
            if negb (agent =? agent2)%nat then
              let upd_edges :=
                if cond
                then update_edges
                       (jget [] active_node_edges (Z.of_nat agent2)) node
                else jget [] active_node_edges (Z.of_nat agent2) in
              jset active_node_edges (Z.of_nat agent2) upd_edges
            else active_node_edges)
         (seq 0 (num_agents self)) active_node_edges)
    (seq 0 (num_agents self)) active_node_edges.

(** [_get_agent_node], local to [_trim_duplicated_invalid_actions]. *)
Definition _get_agent_node (node_edges : list (list Z))
    (position action : Z) : Z :=
  jget 0 (jget [] node_edges position) action.

(** The carry of the tie-break loop. *)
Record LoopArg := {
  la_added_nodes : list Z;
  la_new_actions : list Z;
  la_action : list Z;
  la_nodes : list Z;
  la_agent_permutation : list Z;
  la_index : Z
}.

Definition not_all_agents_actions_examined (arg : LoopArg) : bool :=
  la_index arg <? Z.of_nat (num_agents self).

Definition modify_action_if_agent_target_node_is_selected (arg : LoopArg)
    : LoopArg :=
  let added_nodes := la_added_nodes arg in
  let new_actions := la_new_actions arg in
  let action := la_action arg in
  let nodes := la_nodes arg in
  let agent_permutation := la_agent_permutation arg in
  let index := la_index arg in
  let agent_i := jget 0 agent_permutation index in
  let is_invalid_node := jget 0 nodes agent_i =? EMPTY_NODE in
  let node_is_not_selected :=
    count_eq (jget 0 nodes agent_i) added_nodes =? 0 in
  let res :=
    lax_switch (Z.b2z is_invalid_node + Z.b2z node_is_not_selected * 2)
      [ (jset new_actions agent_i INVALID_TIE_BREAK,
         jset added_nodes agent_i INVALID_TIE_BREAK);
        (new_actions, added_nodes);
        (jset new_actions agent_i (jget 0 action agent_i),
         jset added_nodes agent_i (jget 0 nodes agent_i));
        (new_actions, added_nodes) ]
      (new_actions, added_nodes) in
  {| la_added_nodes := res.2;
     la_new_actions := res.1;
     la_action := action;
     la_nodes := nodes;
     la_agent_permutation := agent_permutation;
     la_index := index + 1 |}.

(** The destinations the requested indices resolve to
    ([jax.vmap(_get_agent_node)]). *)
Definition resolve_nodes (state : State Key) (action : list Z) : list Z :=
  zip_with (fun edges pa => _get_agent_node edges pa.1 pa.2)
    (node_edges state) (zip (positions state) action).

(** The tie-break loop of [_trim_duplicated_invalid_actions], from the
    initial carry to the carry on exit. *)
Definition tie_break_loop (action nodes agent_permutation : list Z)
    : LoopArg :=
  let new_actions := replicate (length action) INVALID_CHOICE in
  let added_nodes := replicate (num_agents self) DUMMY_NODE in
  while_loop (num_agents self)
    not_all_agents_actions_examined
    modify_action_if_agent_target_node_is_selected
    {| la_added_nodes := added_nodes;
       la_new_actions := new_actions;
       la_action := action;
       la_nodes := nodes;
       la_agent_permutation := agent_permutation;
       la_index := 0 |}.

(** [mask_visited_nodes], local to [_trim_duplicated_invalid_actions]. *)
Definition mask_visited_nodes (node_visited oldaction : Z) : Z :=
  if negb (node_visited =? EMPTY_NODE)
  then INVALID_ALREADY_TRAVERSED
  else oldaction.

(** [_trim_duplicated_invalid_actions] *)
Definition _trim_duplicated_invalid_actions (state : State Key)
    (action : list Z) (step_key : Key) : list Z * list Z :=
  let nodes := resolve_nodes state action in
  let agent_permutation :=
    random_permutation step_key (arange (num_agents self)) in
  let arg := tie_break_loop action nodes agent_permutation in
  let new_actions := la_new_actions arg in
  let nodes := la_nodes arg in
  let final_actions := zeros_like new_actions in
  let final_actions :=
    fold_left
      (fun final_actions agent =>
         let node_visited :=
           jget 0 (jget [] (connected_nodes_index state) (Z.of_nat agent))
             (jget 0 nodes (Z.of_nat agent)) in
         let new_action :=
           mask_visited_nodes node_visited
             (jget 0 new_actions (Z.of_nat agent)) in
         jset final_actions (Z.of_nat agent) new_action)
      (seq 0 (num_agents self)) final_actions in
  let final_actions :=
    zip_with (fun a f => a * Z.b2z (negb f) - Z.b2z f)
      final_actions (finished_agents state) in
  (final_actions, nodes).

(** [_update_conected_nodes] *)
Definition _update_conected_nodes (connected_nodes connected_node_index : list Z)
    (node index : Z) : list Z * list Z * Z * Z :=
  let index := index + 1 in
  let connected_nodes := jset connected_nodes index node in
  let connected_node_index := jset connected_node_index node node in
  (connected_nodes, connected_node_index, node, index).

(** [step_agent_fn], local to [step]. *)
Definition step_agent_fn (state : State Key)
    (connected_nodes conn_index : list Z) (action node indices : Z)
    (agent_id : nat) : list Z * list Z * Z * Z :=
  let is_invalid_choice :=
    Z.lor (Z.b2z (action =? INVALID_CHOICE))
          (Z.b2z (action =? INVALID_TIE_BREAK)) in
  let is_valid := (is_invalid_choice =? 0) && negb (node =? INVALID_NODE) in
  if is_valid
  then _update_conected_nodes connected_nodes conn_index node indices
  else (connected_nodes, conn_index,
        jget 0 (positions state) (Z.of_nat agent_id), indices).

(** [get_finished_agents] *)
Definition done_fun (nodes connected_nodes : list Z) (n_comps : nat) : bool :=
  let connects := (fun n => isin n connected_nodes) <$> nodes in
  sum_bool connects =? Z.of_nat n_comps.

Definition get_finished_agents (state : State Key) : list bool :=
  let finished_agents := replicate (length (finished_agents state)) false in
  fold_left
    (fun finished_agents agent =>
       let finished :=
         done_fun (jget [] (nodes_to_connect state) (Z.of_nat agent))
                  (jget [] (connected_nodes state) (Z.of_nat agent))
                  (num_nodes_per_agent self) in
       jset finished_agents (Z.of_nat agent) finished)
    (seq 0 (num_agents self)) finished_agents.

(** [_state_to_timestep] *)
Definition _state_to_timestep (state : State Key) (action : list Z)
    : State Key * TimeStep :=
  let observation := _state_to_observation state in
  let finished_agents' := get_finished_agents state in
  let rewards :=
    zip_with (fun r f => (r * (if negb f then 1 else 0))%Q)
      (_reward_fn self state action (nodes_to_connect state))
      (finished_agents state) in
  let reward := foldr Qplus 0%Q rewards in
  let state :=
    {| node_types := node_types state;
       adj_matrix := adj_matrix state;
       nodes_to_connect := nodes_to_connect state;
       connected_nodes := connected_nodes state;
       connected_nodes_index := connected_nodes_index state;
       position_index := position_index state;
       positions := positions state;
       node_edges := node_edges state;
       action_mask := action_mask state;
       finished_agents := finished_agents';
       step_count := step_count state + 1;
       key := key state |} in
  let is_done := all finished_agents' in
  let horizon_reached := _step_limit self <=? step_count state in
  let timestep :=
    lax_switch (Z.b2z horizon_reached + Z.b2z is_done * 2)
      [ transition reward observation;
        truncation reward observation;
        termination reward observation ]
      (transition reward observation) in
  (state, timestep).

(** The per-agent results of the loop over agents in [step]. *)
Record AgentUpdates := {
  upd_connected_nodes : list (list Z);
  upd_connected_nodes_index : list (list Z);
  upd_agents_pos : list Z;
  upd_position_index : list Z
}.

Definition step_agents (state : State Key) (action next_nodes : list Z)
    : AgentUpdates :=
  fold_left
    (fun acc agent =>
       let '(conn_nodes_i, conn_nodes_id, pos_i, pos_ind) :=
         step_agent_fn state
           (jget [] (connected_nodes state) (Z.of_nat agent))
           (jget [] (connected_nodes_index state) (Z.of_nat agent))
           (jget 0 action (Z.of_nat agent))
           (jget 0 next_nodes (Z.of_nat agent))
           (jget 0 (position_index state) (Z.of_nat agent))
           agent in
       {| upd_connected_nodes :=
            jset (upd_connected_nodes acc) (Z.of_nat agent) conn_nodes_i;
          upd_connected_nodes_index :=
            jset (upd_connected_nodes_index acc) (Z.of_nat agent) conn_nodes_id;
          upd_agents_pos := jset (upd_agents_pos acc) (Z.of_nat agent) pos_i;
          upd_position_index :=
            jset (upd_position_index acc) (Z.of_nat agent) pos_ind |})
    (seq 0 (num_agents self))
    {| upd_connected_nodes := zeros_like2 (connected_nodes state);
       upd_connected_nodes_index := zeros_like2 (connected_nodes_index state);
       upd_agents_pos := zeros_like (positions state);
       upd_position_index := zeros_like (position_index state) |}.

(** The state built by [step] before it is handed to [_state_to_timestep]:
    [finished_agents] and [step_count] are still the old ones. *)
Definition step_state (state : State Key) (action : list Z)
    : State Key * list Z :=
  let '(key, step_key) := random_split (key state) in
  let '(action, next_nodes) :=
    _trim_duplicated_invalid_actions state action step_key in
  let upd := step_agents state action next_nodes in
  let active_node_edges :=
    _update_active_edges (node_edges state) (upd_agents_pos upd)
      (node_types state) in
  ({| node_types := node_types state;
      adj_matrix := adj_matrix state;
      nodes_to_connect := nodes_to_connect state;
      connected_nodes := upd_connected_nodes upd;
      connected_nodes_index := upd_connected_nodes_index upd;
      position_index := upd_position_index upd;
      positions := upd_agents_pos upd;
      node_edges := active_node_edges;
      action_mask :=
        _update_action_mask active_node_edges (upd_agents_pos upd)
          (finished_agents state);
      finished_agents := finished_agents state;
      step_count := step_count state;
      key := key |}, action).

(** [step] *)
Definition step (state : State Key) (action : list Z)
    : State Key * TimeStep :=
  let '(state, action) := step_state state action in
  _state_to_timestep state action.

(** [reset] *)
Definition reset (key : Key) : State Key * TimeStep :=
  let '(key, problem_key) := random_split key in
  let problem := _generator_fn self problem_key in
  let active_node_edges :=
    replicate (num_agents self) (gen_node_edges problem) in
  let active_node_edges :=
    _update_active_edges active_node_edges (gen_agents_pos problem)
      (gen_node_types problem) in
  let finished_agents := replicate (num_agents self) false in
  let state :=
    {| node_types := gen_node_types problem;
       adj_matrix := gen_adj_matrix problem;
       nodes_to_connect := gen_nodes_to_connect problem;
       connected_nodes := gen_conn_nodes problem;
       connected_nodes_index := gen_conn_nodes_index problem;
       position_index := replicate (num_agents self) 0;
       positions := gen_agents_pos problem;
       node_edges := active_node_edges;
       action_mask :=
         _update_action_mask active_node_edges (gen_agents_pos problem)
           finished_agents;
       finished_agents := finished_agents;
       step_count := 0;
       key := key |} in
  (state, restart (_state_to_observation state)).

End Env.

(** ** A concrete instance

    Six nodes, two agents.  Nodes 0 and 1 belong to agent 0, nodes 2 and 3 to
    agent 1, nodes 4 and 5 are utility nodes.  Edges: 0-1, 0-4, 0-5, 1-4,
    2-3, 2-4, 2-5, 3-5.  Agent 0 starts on node 0, agent 1 on node 2. *)

(** A key is a counter; an even key permutes nothing, an odd key reverses. *)
#[export] Instance demo_random : JaxRandom nat := {|
  random_split := fun k => (S k, k);
  random_permutation := fun k l => if Nat.even k then l else reverse l;
  random_permutation_perm := fun k l =>
    match Nat.even k as b
      return Permutation (if b then l else reverse l) l with
    | true => Permutation_refl l
    | false => reverse_Permutation l
    end
|}.

Definition demo_node_edges : list (list Z) :=
  [ [-1;  1; -1; -1;  4;  5];
    [ 0; -1; -1; -1;  4; -1];
    [-1; -1; -1;  3;  4;  5];
    [-1; -1;  2; -1; -1;  5];
    [ 0;  1;  2; -1; -1; -1];
    [ 0; -1;  2;  3; -1; -1] ].

Definition demo_generator (limit : nat) (problem_key : nat) : Problem :=
  {| gen_node_types := [0; 0; 1; 1; -1; -1];
     gen_adj_matrix :=
       fmap (M := list) (fun e => Z.b2z (negb (e =? -1))) <$> demo_node_edges;
     gen_agents_pos := [0; 2];
     gen_conn_nodes :=
       [ <[0%nat := 0]> (replicate limit EMPTY_NODE);
         <[0%nat := 2]> (replicate limit EMPTY_NODE) ];
     gen_conn_nodes_index :=
       [ [0; -1; -1; -1; -1; -1]; [-1; -1; 2; -1; -1; -1] ];
     gen_node_edges := demo_node_edges;
     gen_nodes_to_connect := [ [0; 1]; [2; 3] ] |}.

Definition demo_env (limit : nat) : CoopMinSpanTree nat :=
  {| num_nodes := 6;
     num_edges := 8;
     max_degree := 3;
     num_agents := 2;
     num_nodes_per_agent := 2;
     _step_limit := Z.of_nat limit;
     _reward_fn := fun _ _ _ => [0%Q; 0%Q];
     _generator_fn := demo_generator limit |}.

(** The state after [reset] and the given joint actions, one per step. *)
Definition demo_run (limit : nat) (key : nat) (actions : list (list Z))
    : State nat * TimeStep :=
  fold_left (fun st action => step (demo_env limit) st.1 action)
    actions (reset (demo_env limit) key).

(** ** Reading the result of a step *)

(** The three kinds of time step that [_state_to_timestep] can return. *)
Definition is_termination (ts : TimeStep) : Prop :=
  step_type ts = LAST /\ discount ts = 0%Q.
Definition is_truncation (ts : TimeStep) : Prop :=
  step_type ts = LAST /\ discount ts = 1%Q.
Definition is_transition (ts : TimeStep) : Prop :=
  step_type ts = MID /\ discount ts = 1%Q.

(** One entry of an edge view after the mask of one standing agent: an entry
    equal to that agent's node becomes the empty edge when the node is a
    utility node. *)
Definition mask_node (p : bool * Z) (e : Z) : Z :=
  if p.1 && (e =? p.2) then EMPTY_EDGE else e.

(** The masks that apply to the view of agent [agent2]: one per other agent,
    in the order of the outer loop of [_update_active_edges]. *)
Definition masks_for (n : nat) (position node_types : list Z) (agent2 : nat)
    : list (bool * Z) :=
  omap (fun agent : nat =>
          if negb (agent =? agent2)%nat
          then let node := jget 0 position (Z.of_nat agent) in
               Some (jget 0 node_types node =? UTILITY_NODE, node)
          else None)
       (seq 0 n).

Definition apply_masks (ps : list (bool * Z)) (e : Z) : Z :=
  fold_left (fun e p => mask_node p e) ps e.

(** One pass of the inner loop, for the agent standing on [node]. *)
Definition inner_pass (agent : nat) (c : bool) (node : Z)
    (E : list (list (list Z))) (agent2 : nat) : list (list (list Z)) :=
  if negb (agent =? agent2)%nat then
    jset E (Z.of_nat agent2)
      (if c then update_edges (jget [] E (Z.of_nat agent2)) node
       else jget [] E (Z.of_nat agent2))
  else E.

(** The entry at row [v], column [c] of the view of agent [a]. *)
Definition edge_at (E : list (list (list Z))) (a v c : nat) : option Z :=
  E !! a ≫= fun m => m !! v ≫= fun row => row !! c.

(** What one iteration of the tie-break loop does to [(new_actions,
    added_nodes)] when it examines agent [agent_i]. *)
Definition tie_break_step (action nodes : list Z) (st : list Z * list Z)
    (agent_i : Z) : list Z * list Z :=
  let new_actions := st.1 in
  let added_nodes := st.2 in
  let is_invalid_node := jget 0 nodes agent_i =? EMPTY_NODE in
  let node_is_not_selected :=
    count_eq (jget 0 nodes agent_i) added_nodes =? 0 in
  lax_switch (Z.b2z is_invalid_node + Z.b2z node_is_not_selected * 2)
    [ (jset new_actions agent_i INVALID_TIE_BREAK,
       jset added_nodes agent_i INVALID_TIE_BREAK);
      (new_actions, added_nodes);
      (jset new_actions agent_i (jget 0 action agent_i),
       jset added_nodes agent_i (jget 0 nodes agent_i));
      (new_actions, added_nodes) ]
    (new_actions, added_nodes).

(** The carry of the loop after [k] iterations, given [(new_actions,
    added_nodes)]. *)
Definition loop_carry (action nodes agent_permutation : list Z) (k : nat)
    (st : list Z * list Z) : LoopArg :=
  {| la_added_nodes := st.2;
     la_new_actions := st.1;
     la_action := action;
     la_nodes := nodes;
     la_agent_permutation := agent_permutation;
     la_index := Z.of_nat k |}.

(** [(new_actions, added_nodes)] when the loop exits. *)
Definition tie_break_result (num_agents : nat)
    (action nodes agent_permutation : list Z) : list Z * list Z :=
  fold_left (tie_break_step action nodes) agent_permutation
    (replicate (length action) INVALID_CHOICE,
     replicate num_agents DUMMY_NODE).

(** The action of [agent] after the visited-node check. *)
Definition masked_action {Key} (state : State Key)
    (nodes new_actions : list Z) (agent : nat) : Z :=
  mask_visited_nodes
    (jget 0 (jget [] (connected_nodes_index state) (Z.of_nat agent))
       (jget 0 nodes (Z.of_nat agent)))
    (jget 0 new_actions (Z.of_nat agent)).

(** [a * ~finished - finished] for one agent. *)
Definition finish_mask (a : Z) (f : bool) : Z :=
  a * Z.b2z (negb f) - Z.b2z f.

(** What the tie-break loop keeps true of [(new_actions, added_nodes)]:
    an agent with a non-negative action has its destination recorded in
    [added_nodes], and two such agents have different destinations. *)
Definition distinct_grants (nodes : list Z) (st : list Z * list Z) : Prop :=
  length st.1 = length nodes /\ length st.2 = length nodes /\
  (forall i x, st.1 !! i = Some x -> 0 <= x -> st.2 !! i = nodes !! i) /\
  (forall i j xi xj ni nj,
      i <> j ->
      st.1 !! i = Some xi -> 0 <= xi ->
      st.1 !! j = Some xj -> 0 <= xj ->
      nodes !! i = Some ni -> nodes !! j = Some nj -> ni <> nj).

(** The arrays of the state have one entry per agent. *)
Definition well_shaped {Key} (self : CoopMinSpanTree Key) (state : State Key)
    : bool :=
  (length (node_edges state) =? num_agents self)%nat
  && (length (positions state) =? num_agents self)%nat
  && (length (position_index state) =? num_agents self)%nat
  && (length (connected_nodes state) =? num_agents self)%nat
  && (length (connected_nodes_index state) =? num_agents self)%nat
  && (length (nodes_to_connect state) =? num_agents self)%nat
  && (length (finished_agents state) =? num_agents self)%nat.

(** Every entry of every edge view is a node or the empty edge
    ([A_ij = j] or [A_ij = -1] in the class docstring). *)
Definition edges_valid {Key} (state : State Key) : bool :=
  forallb (forallb (forallb (fun e => EMPTY_EDGE <=? e))) (node_edges state).

(** What [step_agent_fn] returns for [agent] inside the loop of [step]. *)
Definition agent_result {Key} (state : State Key) (action next_nodes : list Z)
    (agent : nat) : list Z * list Z * Z * Z :=
  step_agent_fn state
    (jget [] (connected_nodes state) (Z.of_nat agent))
    (jget [] (connected_nodes_index state) (Z.of_nat agent))
    (jget 0 action (Z.of_nat agent))
    (jget 0 next_nodes (Z.of_nat agent))
    (jget 0 (position_index state) (Z.of_nat agent))
    agent.

(** ** The conflict resolution protocol as the specification words it

    Section 4.2, steps 1 to 3: the agents are taken in the order of one
    permutation, with the set of nodes granted so far in this step.  An
    unresolved request is an invalid choice and takes no further part; a
    destination not yet granted is granted; a destination already granted to
    an earlier agent loses the tie-break. *)
Inductive Outcome :=
  | Accepted (node : Z)
  | InvalidChoice
  | TieBreakLost.

Fixpoint spec_arbitrate (nodes : list Z) (order : list nat)
    (granted : gset Z) (outcomes : gmap nat Outcome)
    : gset Z * gmap nat Outcome :=
  match order with
  | [] => (granted, outcomes)
  | agent :: order =>
      match nodes !! agent with
      | None => spec_arbitrate nodes order granted outcomes
      | Some node =>
          if node =? EMPTY_NODE then
            spec_arbitrate nodes order granted
              (<[agent := InvalidChoice]> outcomes)
          else if bool_decide (node ∈ granted) then
            spec_arbitrate nodes order granted
              (<[agent := TieBreakLost]> outcomes)
          else
            spec_arbitrate nodes order ({[node]} ∪ granted)
              (<[agent := Accepted node]> outcomes)
      end
  end.

(** The action code the source uses for an outcome: an accepted agent keeps
    the index it requested. *)
Definition outcome_code (requested : Z) (o : Outcome) : Z :=
  match o with
  | Accepted _ => requested
  | InvalidChoice => INVALID_CHOICE
  | TieBreakLost => INVALID_TIE_BREAK
  end.

(** How the carry of the loop relates to the protocol of the specification
    when the agents of [p] remain to be examined. *)
Definition arbitration_rel (num_agents : nat) (action : list Z) (p : list Z)
    (st : list Z * list Z) (granted : gset Z) (outcomes : gmap nat Outcome)
    : Prop :=
  length st.1 = num_agents /\ length st.2 = num_agents /\
  (forall x, x ∈ granted <-> 0 <= x /\ x ∈ st.2) /\
  (forall a, a ∈ p -> st.2 !! Z.to_nat a = Some DUMMY_NODE) /\
  (forall i, (i < num_agents)%nat -> Z.of_nat i ∈ p ->
             st.1 !! i = Some INVALID_CHOICE) /\
  (forall i, (i < num_agents)%nat -> Z.of_nat i ∉ p ->
             exists o req,
               outcomes !! i = Some o /\ action !! i = Some req /\
               st.1 !! i = Some (outcome_code req o)).

(** Every view has at least one row and every row at least one entry
    (the graph has at least one node). *)
Definition edges_nonempty {Key} (state : State Key) : bool :=
  forallb (fun view : list (list Z) =>
             negb (bool_decide (view = []))
             && forallb (fun row : list Z => negb (bool_decide (row = [])))
                  view)
    (node_edges state).

(** What the generator must hand over for [reset] to build a state with one
    entry per agent and the documented edge encoding. *)
Definition problem_shaped {Key} (self : CoopMinSpanTree Key) (problem : Problem)
    : bool :=
  (length (gen_agents_pos problem) =? num_agents self)%nat
  && (length (gen_conn_nodes problem) =? num_agents self)%nat
  && (length (gen_conn_nodes_index problem) =? num_agents self)%nat
  && (length (gen_nodes_to_connect problem) =? num_agents self)%nat
  && forallb (forallb (fun e => EMPTY_EDGE <=? e)) (gen_node_edges problem).

(** What the loop of [_get_obsv] does to the label [x] of node [n] when it
    comes to [agent]. *)
Definition relabel (num_agents : nat) (connected_nodes_index : list (list Z))
    (n : nat) (x : Z) (agent : nat) : Z :=
  let v :=
    jget 0 (jget [] connected_nodes_index (Z.of_nat agent)) (Z.of_nat n) in
  x * Z.b2z (v =? UTILITY_NODE)
  + 2 * ((Z.of_nat agent - 0) `mod` Z.of_nat num_agents)
    * Z.b2z (negb (v =? UTILITY_NODE)).

(** Whether the target nodes of [agent] all occur in its [connected_nodes]
    row, as [get_finished_agents] computes it for one agent. *)
Definition agent_connected {Key} (self : CoopMinSpanTree Key)
    (state : State Key) (agent : nat) : bool :=
  done_fun (jget [] (nodes_to_connect state) (Z.of_nat agent))
           (jget [] (connected_nodes state) (Z.of_nat agent))
           (num_nodes_per_agent self).

(** * Properties *)

(** ** Array primitives *)

Lemma normalize_index_of_nat n (i : nat) : normalize_index n (Z.of_nat i) = Z.of_nat i.
Proof. unfold normalize_index. destruct (Z.ltb_spec (Z.of_nat i) 0); lia. Qed.

Lemma clip_index_of_nat n (i : nat) : (i < n)%nat -> clip_index n (Z.of_nat i) = i.
Proof. intros Hi. unfold clip_index. rewrite normalize_index_of_nat. lia. Qed.

Lemma in_bounds_of_nat n (i : nat) : (i < n)%nat -> in_bounds n (Z.of_nat i) = Some i.
Proof.
  intros Hi. unfold in_bounds. rewrite normalize_index_of_nat.
  destruct (Z.leb_spec 0 (Z.of_nat i)); [|lia].
  destruct (Z.ltb_spec (Z.of_nat i) (Z.of_nat n)); [|lia].
  simpl. f_equal. lia.
Qed.

Lemma in_bounds_of_nat_ge n (i : nat) : (n <= i)%nat -> in_bounds n (Z.of_nat i) = None.
Proof.
  intros Hi. unfold in_bounds. rewrite normalize_index_of_nat.
  destruct (Z.ltb_spec (Z.of_nat i) (Z.of_nat n)); [lia|].
  by rewrite andb_false_r.
Qed.

Lemma in_bounds_Some n z k :
  in_bounds n z = Some k -> (k < n)%nat /\ clip_index n z = k.
Proof.
  unfold in_bounds, clip_index.
  destruct (Z.leb_spec 0 (normalize_index n z)); [|discriminate].
  destruct (Z.ltb_spec (normalize_index n z) (Z.of_nat n)); [|discriminate].
  simpl. intros [= <-]. lia.
Qed.

Lemma clip_index_lt n z : (0 < n)%nat -> (clip_index n z < n)%nat.
Proof. unfold clip_index. lia. Qed.

Lemma jget_of_nat {A} (d : A) l (i : nat) x :
  l !! i = Some x -> jget d l (Z.of_nat i) = x.
Proof.
  intros Hx. unfold jget.
  rewrite clip_index_of_nat by (by eapply lookup_lt_Some). by rewrite Hx.
Qed.

Lemma jset_of_nat {A} (l : list A) (i : nat) v :
  jset l (Z.of_nat i) v = <[i := v]> l.
Proof.
  unfold jset. destruct (Nat.lt_ge_cases i (length l)).
  - by rewrite in_bounds_of_nat.
  - rewrite in_bounds_of_nat_ge by done. by rewrite list_insert_ge.
Qed.

Lemma length_jset {A} (l : list A) z v : length (jset l z v) = length l.
Proof. unfold jset. destruct in_bounds; [apply length_insert | done]. Qed.

Lemma jget_in_bounds {A} (d : A) l z k :
  in_bounds (length l) z = Some k -> l !! k = Some (jget d l z).
Proof.
  intros Hk. apply in_bounds_Some in Hk as [Hlt Hc]. unfold jget. rewrite Hc.
  destruct (lookup_lt_is_Some_2 l k Hlt) as [x ->]. done.
Qed.

Lemma jset_in_range {A} (l : list A) z v :
  0 <= z < Z.of_nat (length l) -> jset l z v = <[Z.to_nat z := v]> l.
Proof.
  intros Hz. unfold jset, in_bounds, normalize_index.
  destruct (Z.ltb_spec z 0); [lia|].
  destruct (Z.leb_spec 0 z); [|lia].
  destruct (Z.ltb_spec z (Z.of_nat (length l))); [done | lia].
Qed.

(** A read at or past the end of a list reads its last element. *)
Lemma jget_past_end {A} (d : A) (l : list A) z :
  Z.of_nat (length l) <= z -> jget d l z = default d (last l).
Proof.
  intros Hz. unfold jget. rewrite last_lookup. f_equal. f_equal.
  unfold clip_index, normalize_index.
  destruct (Z.ltb_spec z 0); [lia|]. lia.
Qed.

Lemma iter_body_comm {S} (body_fun : S -> S) k s :
  Nat.iter k body_fun (body_fun s) = body_fun (Nat.iter k body_fun s).
Proof. induction k as [|k IH]; [done|]. simpl. by rewrite IH. Qed.

Lemma while_loop_iter {S} (cond_fun : S -> bool) (body_fun : S -> S) fuel s :
  (forall k, (k < fuel)%nat -> cond_fun (Nat.iter k body_fun s) = true) ->
  while_loop fuel cond_fun body_fun s = Nat.iter fuel body_fun s.
Proof.
  revert s. induction fuel as [|fuel IH]; intros s Hc; [done|].
  pose proof (Hc 0%nat ltac:(lia)) as H0. simpl in H0.
  simpl while_loop. rewrite H0, IH.
  - apply iter_body_comm.
  - intros k Hk. rewrite iter_body_comm. apply (Hc (Datatypes.S k)). lia.
Qed.

(** ** Edge masking: [_update_active_edges] entry by entry *)

Section EdgeMasking.
Context {Key : Type} `{JaxRandom Key}.
Variable self : CoopMinSpanTree Key.

Lemma mask_node_false node e : mask_node (false, node) e = e.
Proof. done. Qed.

Lemma update_edges_mask_node m node :
  update_edges m node = fmap (M := list) (mask_node (true, node)) <$> m.
Proof.
  unfold update_edges. apply list_fmap_ext; intros _ row _.
  apply list_fmap_ext; intros _ e _. unfold mask_node, EMPTY_EDGE. simpl.
  destruct (Z.eqb_spec e node); simpl; lia.
Qed.

Lemma cond_update_edges_mask_node (c : bool) m node :
  (if c then update_edges m node else m)
  = fmap (M := list) (mask_node (c, node)) <$> m.
Proof.
  destruct c; [apply update_edges_mask_node|].
  rewrite <- (list_fmap_id m) at 1. apply list_fmap_ext; intros _ row _.
  simpl. rewrite <- (list_fmap_id row) at 1. by apply list_fmap_ext.
Qed.

Lemma inner_pass_lookup agent c node E x a2 :
  inner_pass agent c node E x !! a2
  = if decide (a2 = x /\ a2 <> agent)
    then fmap (M := list) (fmap (M := list) (mask_node (c, node))) <$> E !! a2
    else E !! a2.
Proof.
  unfold inner_pass. destruct (Nat.eqb_spec agent x) as [->|Hne]; simpl.
  { destruct (decide (a2 = x /\ a2 <> x)) as [[? ?]|?]; done. }
  rewrite jset_of_nat, cond_update_edges_mask_node.
  case_decide as Hd.
  - destruct Hd as [-> _]. destruct (E !! x) as [row|] eqn:Hrow.
    + rewrite list_lookup_insert_eq by (by eapply lookup_lt_Some).
      by rewrite (jget_of_nat _ _ _ _ Hrow).
    + rewrite list_insert_ge by (by apply lookup_ge_None). by rewrite Hrow.
  - destruct (decide (a2 = x)) as [->|Hax].
    + exfalso. apply Hd. split; [done | congruence].
    + by rewrite list_lookup_insert_ne.
Qed.

Lemma inner_loop_lookup agent c node l E a2 :
  NoDup l ->
  fold_left (inner_pass agent c node) l E !! a2
  = if decide (a2 ∈ l /\ a2 <> agent)
    then fmap (M := list) (fmap (M := list) (mask_node (c, node))) <$> E !! a2
    else E !! a2.
Proof.
  intros Hnd. revert E.
  induction Hnd as [|x l Hx Hnd IH]; intros E; cbn [fold_left].
  { case_decide as Hd; [|done]. destruct Hd as [Hd _]. by apply elem_of_nil in Hd. }
  rewrite IH, inner_pass_lookup.
  destruct (decide (a2 ∈ l /\ a2 <> agent)) as [[Hl Hag]|Hn1],
    (decide (a2 = x /\ a2 <> agent)) as [[Hax Hag']|Hn2],
    (decide (a2 ∈ x :: l /\ a2 <> agent)) as [[Hxl Hag'']|Hn3];
    try done; exfalso.
  - subst. done.
  - subst. done.
  - apply Hn3. split; [by apply list_elem_of_further | done].
  - apply Hn3. split; [subst; apply list_elem_of_here | done].
  - apply elem_of_cons in Hxl as [->|Hl]; [by apply Hn2 | by apply Hn1].
Qed.

Lemma update_active_edges_unfold node_edges position node_types :
  _update_active_edges self node_edges position node_types
  = fold_left
      (fun E agent =>
         fold_left
           (inner_pass agent
              (jget 0 node_types (jget 0 position (Z.of_nat agent))
               =? UTILITY_NODE)
              (jget 0 position (Z.of_nat agent)))
           (seq 0 (num_agents self)) E)
      (seq 0 (num_agents self)) node_edges.
Proof. done. Qed.

Lemma outer_loop_lookup position node_types la E a2 :
  (a2 < num_agents self)%nat ->
  fold_left
    (fun E agent =>
       fold_left
         (inner_pass agent
            (jget 0 node_types (jget 0 position (Z.of_nat agent))
             =? UTILITY_NODE)
            (jget 0 position (Z.of_nat agent)))
         (seq 0 (num_agents self)) E)
    la E !! a2
  = fmap (M := list) (fmap (M := list)
      (apply_masks
         (omap (fun agent : nat =>
                  if negb (agent =? a2)%nat
                  then let node := jget 0 position (Z.of_nat agent) in
                       Some (jget 0 node_types node =? UTILITY_NODE, node)
                  else None) la)))
    <$> E !! a2.
Proof.
  intros Ha2. revert E.
  induction la as [|x la IH]; intros E; cbn [fold_left omap list_omap].
  { destruct (E !! a2) as [m|]; [|done]. simpl. f_equal.
    rewrite <- (list_fmap_id m) at 1. apply list_fmap_ext; intros _ row _.
    simpl. rewrite <- (list_fmap_id row) at 1. by apply list_fmap_ext. }
  rewrite IH, inner_loop_lookup by apply NoDup_seq.
  destruct (Nat.eqb_spec x a2) as [->|Hne]; simpl.
  - destruct (decide (a2 ∈ seq 0 (num_agents self) /\ a2 <> a2))
      as [[_ Hd]|_]; done.
  - case_decide as Hd.
    + destruct (E !! a2) as [m|]; [|done]. simpl. f_equal.
      rewrite <- list_fmap_compose. apply list_fmap_ext; intros _ row _.
      simpl. by rewrite <- list_fmap_compose.
    + exfalso. apply Hd. split; [|congruence].
      apply elem_of_seq. lia.
Qed.

Lemma outer_loop_lookup_ge position node_types la E a2 :
  (num_agents self <= a2)%nat ->
  fold_left
    (fun E agent =>
       fold_left
         (inner_pass agent
            (jget 0 node_types (jget 0 position (Z.of_nat agent))
             =? UTILITY_NODE)
            (jget 0 position (Z.of_nat agent)))
         (seq 0 (num_agents self)) E)
    la E !! a2
  = E !! a2.
Proof.
  intros Ha2. revert E.
  induction la as [|x la IH]; intros E; cbn [fold_left]; [done|].
  rewrite IH, inner_loop_lookup by apply NoDup_seq.
  case_decide as Hd; [|done]. destruct Hd as [Hd _].
  apply elem_of_seq in Hd. lia.
Qed.

(** The view of agent [a2] after the update: every entry went through the
    masks of the other agents. *)
Lemma update_active_edges_lookup node_edges position node_types a2 :
  (a2 < num_agents self)%nat ->
  _update_active_edges self node_edges position node_types !! a2
  = fmap (M := list) (fmap (M := list)
      (apply_masks (masks_for (num_agents self) position node_types a2)))
    <$> node_edges !! a2.
Proof. intros Ha2. rewrite update_active_edges_unfold. by apply outer_loop_lookup. Qed.

Lemma update_active_edges_lookup_ge node_edges position node_types a2 :
  (num_agents self <= a2)%nat ->
  _update_active_edges self node_edges position node_types !! a2
  = node_edges !! a2.
Proof. intros Ha2. rewrite update_active_edges_unfold. by apply outer_loop_lookup_ge. Qed.

Lemma length_update_active_edges node_edges position node_types :
  length (_update_active_edges self node_edges position node_types)
  = length node_edges.
Proof.
  rewrite update_active_edges_unfold.
  generalize (seq 0 (num_agents self)) at 2. intros la. revert node_edges.
  induction la as [|x la IH]; intros E; simpl; [done|]. rewrite IH.
  generalize (seq 0 (num_agents self)). intros l. revert E.
  induction l as [|y l IHl]; intros E; simpl; [done|]. rewrite IHl.
  unfold inner_pass. destruct (negb _); [apply length_jset | done].
Qed.

End EdgeMasking.

(** ** Masks, one entry at a time *)

Lemma apply_masks_empty ps : apply_masks ps EMPTY_EDGE = EMPTY_EDGE.
Proof.
  induction ps as [|[c node] ps IH]; [done|]. unfold apply_masks in *. simpl.
  unfold mask_node at 2. simpl. by destruct (c && _).
Qed.

Lemma apply_masks_cases ps e :
  apply_masks ps e = e \/ apply_masks ps e = EMPTY_EDGE.
Proof.
  revert e. induction ps as [|[c node] ps IH]; intros e; [by left|].
  change (apply_masks ((c, node) :: ps) e)
    with (apply_masks ps (mask_node (c, node) e)).
  unfold mask_node. simpl. destruct (c && (e =? node)).
  - right. apply apply_masks_empty.
  - apply IH.
Qed.

Lemma apply_masks_idem ps e :
  apply_masks ps (apply_masks ps e) = apply_masks ps e.
Proof.
  destruct (apply_masks_cases ps e) as [Heq|Heq]; rewrite Heq.
  - done.
  - apply apply_masks_empty.
Qed.

(** An entry that survives the masks is none of the masked nodes. *)
Lemma apply_masks_not_masked ps e node :
  (true, node) ∈ ps -> node <> EMPTY_EDGE -> apply_masks ps e <> node.
Proof.
  revert e. induction ps as [|p ps IH]; intros e Hin Hne.
  { by apply elem_of_nil in Hin. }
  change (apply_masks (p :: ps) e) with (apply_masks ps (mask_node p e)).
  apply elem_of_cons in Hin as [<-|Hin]; [|by apply IH].
  unfold mask_node. simpl. destruct (Z.eqb_spec e node) as [->|Hen].
  - by rewrite apply_masks_empty.
  - destruct (apply_masks_cases ps e) as [-> | ->]; congruence.
Qed.

(** An entry that no active mask names is left alone. *)
Lemma apply_masks_untouched ps e :
  (forall node, (true, node) ∈ ps -> node <> e) -> apply_masks ps e = e.
Proof.
  revert e. induction ps as [|[c node] ps IH]; intros e Hps; [done|].
  change (apply_masks ((c, node) :: ps) e)
    with (apply_masks ps (mask_node (c, node) e)).
  assert (mask_node (c, node) e = e) as ->.
  { unfold mask_node. simpl. destruct c; [|done].
    destruct (Z.eqb_spec e node) as [->|]; [|done].
    exfalso. by apply (Hps node); [left|]. }
  apply IH. intros node' Hin. apply Hps. by right.
Qed.

Lemma elem_of_masks_for n position node_types agent2 c node :
  (c, node) ∈ masks_for n position node_types agent2 <->
  exists agent : nat,
    (agent < n)%nat /\ agent <> agent2 /\
    node = jget 0 position (Z.of_nat agent) /\
    c = (jget 0 node_types node =? UTILITY_NODE).
Proof.
  unfold masks_for. rewrite list_elem_of_omap. split.
  - intros (agent & Hin & Hsome). apply elem_of_seq in Hin.
    destruct (Nat.eqb_spec agent agent2); simpl in Hsome; [done|].
    injection Hsome as Hc Hn. exists agent. split; [lia|]. by subst.
  - intros (agent & Hlt & Hne & -> & ->). exists agent. split.
    + apply elem_of_seq. lia.
    + by destruct (Nat.eqb_spec agent agent2).
Qed.

Lemma edge_at_update_active_edges {Key} `{JaxRandom Key}
    (self : CoopMinSpanTree Key) node_edges position node_types a v c :
  (a < num_agents self)%nat ->
  edge_at (_update_active_edges self node_edges position node_types) a v c
  = apply_masks (masks_for (num_agents self) position node_types a)
    <$> edge_at node_edges a v c.
Proof.
  intros Ha. unfold edge_at. rewrite update_active_edges_lookup by done.
  destruct (node_edges !! a) as [m|]; [|done]. simpl.
  rewrite list_lookup_fmap. destruct (m !! v) as [row|]; [|done]. simpl.
  by rewrite list_lookup_fmap.
Qed.

Lemma edge_at_update_active_edges_ge {Key} `{JaxRandom Key}
    (self : CoopMinSpanTree Key) node_edges position node_types a v c :
  (num_agents self <= a)%nat ->
  edge_at (_update_active_edges self node_edges position node_types) a v c
  = edge_at node_edges a v c.
Proof.
  intros Ha. unfold edge_at. by rewrite update_active_edges_lookup_ge.
Qed.

(** ** Edge visibility *)

(** C9.  The edge-visibility update is idempotent: with the same positions
    and node types, a second application of [_update_active_edges] returns
    the mask of the first.  An entry that is already the empty edge stays
    the empty edge, so the update restores no edge. *)
Theorem update_active_edges_idempotent {Key} `{JaxRandom Key}
    (self : CoopMinSpanTree Key) (node_edges : list (list (list Z)))
    (position node_types : list Z) :
  _update_active_edges self
    (_update_active_edges self node_edges position node_types)
    position node_types
  = _update_active_edges self node_edges position node_types
  /\ (forall a v c,
        edge_at node_edges a v c = Some EMPTY_EDGE ->
        edge_at (_update_active_edges self node_edges position node_types)
          a v c = Some EMPTY_EDGE).
Proof.
  split.
  - apply list_eq; intros a.
    destruct (Nat.lt_ge_cases a (num_agents self)) as [Ha|Ha].
    + rewrite !update_active_edges_lookup by done.
      destruct (node_edges !! a) as [m|]; [|done]. simpl. f_equal.
      rewrite <- list_fmap_compose. apply list_fmap_ext; intros _ row _.
      simpl. rewrite <- list_fmap_compose. apply list_fmap_ext; intros _ e _.
      simpl. apply apply_masks_idem.
    + by rewrite !update_active_edges_lookup_ge.
  - intros a v c He.
    destruct (Nat.lt_ge_cases a (num_agents self)) as [Ha|Ha].
    + rewrite edge_at_update_active_edges, He by done. simpl.
      by rewrite apply_masks_empty.
    + by rewrite edge_at_update_active_edges_ge.
Qed.

(** C6.  After [_update_active_edges], when agent [j] stands on a utility
    node [u], no entry of the view of any other agent [i] is [u]: every edge
    into [u] is gone from it.  An entry naming a node that is not a utility
    node is the same before and after, in every view.  The agent standing on
    [u] keeps its own entries [u] when it is the only agent there. *)
Theorem update_active_edges_masks_claimed_utility {Key} `{JaxRandom Key}
    (self : CoopMinSpanTree Key) (node_edges : list (list (list Z)))
    (position node_types : list Z) (i j : nat) :
  (i < num_agents self)%nat ->
  (j < num_agents self)%nat ->
  i <> j ->
  0 <= jget 0 position (Z.of_nat j) ->
  jget 0 node_types (jget 0 position (Z.of_nat j)) = UTILITY_NODE ->
  let u := jget 0 position (Z.of_nat j) in
  let active := _update_active_edges self node_edges position node_types in
  (forall v c, edge_at active i v c <> Some u)
  /\ (forall a v c w,
        edge_at node_edges a v c = Some w ->
        jget 0 node_types w <> UTILITY_NODE ->
        edge_at active a v c = Some w)
  /\ ((forall k, (k < num_agents self)%nat -> k <> j ->
         jget 0 position (Z.of_nat k) <> u) ->
      forall v c,
        edge_at node_edges j v c = Some u -> edge_at active j v c = Some u).
Proof.
  intros Hi Hj Hij Hpos Hutil u active. subst active. repeat split.
  - intros v c. rewrite edge_at_update_active_edges by done.
    destruct (edge_at node_edges i v c) as [e|]; [|done]. simpl.
    intros [= He]. revert He. apply apply_masks_not_masked.
    + apply elem_of_masks_for. exists j. repeat split; [done..|].
      fold u. symmetry. by apply Z.eqb_eq.
    + unfold EMPTY_EDGE. subst u. lia.
  - intros a v c w He Hw.
    destruct (Nat.lt_ge_cases a (num_agents self)) as [Ha|Ha].
    + rewrite edge_at_update_active_edges, He by done. simpl. f_equal.
      apply apply_masks_untouched. intros node Hin ->.
      apply elem_of_masks_for in Hin as (k & _ & _ & _ & Hc).
      symmetry in Hc. by apply Z.eqb_eq in Hc.
    + by rewrite edge_at_update_active_edges_ge.
  - intros Halone v c He.
    rewrite edge_at_update_active_edges, He by done. simpl. f_equal.
    apply apply_masks_untouched. intros node Hin ->.
    apply elem_of_masks_for in Hin as (k & Hk & Hkj & Hnode & _).
    by apply (Halone k).
Qed.

(** C6 at the concrete instance: agent 0 stands on utility node 4, agent 1
    on its own node 2. *)
Lemma update_active_edges_masks_claimed_utility_witness :
  let active :=
    _update_active_edges (demo_env 3)
      (replicate 2 demo_node_edges) [4; 2] [0; 0; 1; 1; -1; -1] in
  (forall v c, edge_at active 1 v c <> Some 4)
  /\ (forall a v c w,
        edge_at (replicate 2 demo_node_edges) a v c = Some w ->
        jget 0 [0; 0; 1; 1; -1; -1] w <> UTILITY_NODE ->
        edge_at active a v c = Some w)
  /\ ((forall k, (k < 2)%nat -> k <> 0%nat ->
         jget 0 [4; 2] (Z.of_nat k) <> 4) ->
      forall v c,
        edge_at (replicate 2 demo_node_edges) 0 v c = Some 4 ->
        edge_at active 0 v c = Some 4).
Proof.
  apply (update_active_edges_masks_claimed_utility (demo_env 3)
           (replicate 2 demo_node_edges) [4; 2] [0; 0; 1; 1; -1; -1] 1 0).
  - simpl. lia.
  - simpl. lia.
  - lia.
  - vm_compute. discriminate.
  - reflexivity.
Defined.

(** ** Termination and truncation *)

Lemma state_to_timestep_state {Key} `{JaxRandom Key}
    (self : CoopMinSpanTree Key) (state : State Key) action :
  let r := _state_to_timestep self state action in
  finished_agents r.1 = get_finished_agents self state
  /\ step_count r.1 = step_count state + 1
  /\ connected_nodes r.1 = connected_nodes state
  /\ connected_nodes_index r.1 = connected_nodes_index state
  /\ positions r.1 = positions state
  /\ position_index r.1 = position_index state
  /\ node_edges r.1 = node_edges state
  /\ nodes_to_connect r.1 = nodes_to_connect state
  /\ node_types r.1 = node_types state
  /\ key r.1 = key state.
Proof. done. Qed.

Lemma state_to_timestep_kind {Key} `{JaxRandom Key}
    (self : CoopMinSpanTree Key) (state : State Key) action :
  let r := _state_to_timestep self state action in
  (is_termination r.2 <-> all (finished_agents r.1) = true)
  /\ (all (finished_agents r.1) = false ->
      (is_truncation r.2 <-> _step_limit self <= step_count r.1))
  /\ (all (finished_agents r.1) = false ->
      step_count r.1 < _step_limit self -> is_transition r.2).
Proof.
  unfold _state_to_timestep. cbn [fst snd finished_agents step_count].
  destruct (all (get_finished_agents self state)) eqn:Hall;
    destruct (Z.leb_spec (_step_limit self) (step_count state + 1)) as [Hl|Hl];
    cbn; unfold is_termination, is_truncation, is_transition; cbn;
    repeat match goal with
           | |- _ /\ _ => split
           | |- _ <-> _ => split
           | |- _ -> _ => intro
           end;
    repeat match goal with Hc : _ /\ _ |- _ => destruct Hc end;
    try done; try lia.
Qed.

Lemma step_timestep_kind_aux {Key} `{JaxRandom Key}
    (self : CoopMinSpanTree Key) (state : State Key) (action : list Z) :
  is_termination (step self state action).2
  <-> all (finished_agents (step self state action).1) = true.
Proof.
  unfold step. destruct (step_state self state action) as [st act].
  apply state_to_timestep_kind.
Qed.

(** ** The tie-break loop as a fold over the permutation *)

Lemma lax_switch4 {A} (b1 b2 : bool) (x0 x1 x2 x3 d : A) :
  lax_switch (Z.b2z b1 + Z.b2z b2 * 2) [x0; x1; x2; x3] d
  = match b1, b2 with
    | false, false => x0
    | true, false => x1
    | false, true => x2
    | true, true => x3
    end.
Proof. by destruct b1, b2. Qed.

Lemma count_eq_zero x v : count_eq x v = 0 <-> x ∉ v.
Proof.
  unfold count_eq. induction v as [|y v IH]; simpl.
  { split; [intros _; apply not_elem_of_nil | done]. }
  rewrite filter_cons. rewrite not_elem_of_cons.
  destruct (decide (y = x)) as [->|Hne]; simpl.
  - split; [lia | intros [Hx _]; done].
  - rewrite IH. split; [intros Hx; split; [congruence | done] | by intros [_ Hx]].
Qed.

Lemma count_eq_zero_b x v : (count_eq x v =? 0) = bool_decide (x ∉ v).
Proof.
  destruct (Z.eqb_spec (count_eq x v) 0) as [Hc|Hc].
  - symmetry. apply bool_decide_eq_true. by apply count_eq_zero.
  - symmetry. apply bool_decide_eq_false. by rewrite <- count_eq_zero.
Qed.

Section TieBreakLoop.
Context {Key : Type} `{JaxRandom Key}.
Variable self : CoopMinSpanTree Key.
Variables action nodes agent_permutation : list Z.

Local Abbreviation carry := (loop_carry action nodes agent_permutation).

Lemma modify_action_carry k st x :
  agent_permutation !! k = Some x ->
  modify_action_if_agent_target_node_is_selected (carry k st)
  = carry (S k) (tie_break_step action nodes st x).
Proof.
  intros Hx. unfold modify_action_if_agent_target_node_is_selected, loop_carry.
  cbn [la_added_nodes la_new_actions la_action la_nodes
       la_agent_permutation la_index].
  rewrite (jget_of_nat _ _ _ _ Hx). unfold tie_break_step. f_equal. lia.
Qed.

Lemma iter_modify_action k st :
  (k <= length agent_permutation)%nat ->
  Nat.iter k modify_action_if_agent_target_node_is_selected (carry 0 st)
  = carry k (fold_left (tie_break_step action nodes)
               (take k agent_permutation) st).
Proof.
  induction k as [|k IH]; intros Hk; [done|].
  cbn [Nat.iter nat_rect]. unfold Nat.iter in IH. rewrite IH by lia.
  destruct (lookup_lt_is_Some_2 agent_permutation k ltac:(lia)) as [x Hx].
  rewrite (modify_action_carry _ _ _ Hx).
  by rewrite (take_S_r _ _ _ Hx), fold_left_app.
Qed.

(** The loop runs once per entry of the permutation and exits because its
    condition fails, not for lack of fuel. *)
Lemma tie_break_loop_fold :
  length agent_permutation = num_agents self ->
  tie_break_loop self action nodes agent_permutation
  = carry (num_agents self)
      (fold_left (tie_break_step action nodes) agent_permutation
         (replicate (length action) INVALID_CHOICE,
          replicate (num_agents self) DUMMY_NODE)).
Proof.
  intros Hlen. unfold tie_break_loop.
  change (Build_LoopArg _ _ _ _ _ _)
    with (carry 0 (replicate (length action) INVALID_CHOICE,
                   replicate (num_agents self) DUMMY_NODE)).
  rewrite while_loop_iter.
  - rewrite iter_modify_action by lia. by rewrite <- Hlen, firstn_all.
  - intros k Hk. rewrite iter_modify_action by lia.
    unfold not_all_agents_actions_examined, loop_carry. cbn [la_index].
    apply Z.ltb_lt. lia.
Qed.

Lemma tie_break_loop_exits :
  length agent_permutation = num_agents self ->
  not_all_agents_actions_examined self
    (tie_break_loop self action nodes agent_permutation) = false.
Proof.
  intros Hlen. rewrite tie_break_loop_fold by done.
  unfold not_all_agents_actions_examined, loop_carry. cbn [la_index].
  apply Z.ltb_ge. lia.
Qed.

End TieBreakLoop.

(** ** No double grant *)

Lemma fold_jset_lookup {A} (g : nat -> A) l init i :
  fold_left (fun acc a => jset acc (Z.of_nat a) (g a)) l init !! i
  = if decide (i ∈ l /\ (i < length init)%nat) then Some (g i) else init !! i.
Proof.
  revert init. induction l as [|x l IH]; intros init; cbn [fold_left].
  { case_decide as Hd; [|done]. destruct Hd as [Hd _].
    by apply elem_of_nil in Hd. }
  rewrite IH, jset_of_nat, length_insert.
  destruct (decide (i ∈ l /\ (i < length init)%nat)) as [[Hl Hlt]|Hn1],
    (decide (i ∈ x :: l /\ (i < length init)%nat)) as [[Hxl Hlt']|Hn2];
    try done.
  - exfalso. apply Hn2. split; [by apply list_elem_of_further | done].
  - apply elem_of_cons in Hxl as [->|Hl].
    + by rewrite list_lookup_insert_eq.
    + exfalso. by apply Hn1.
  - destruct (decide (i = x)) as [->|Hne].
    + rewrite list_insert_ge; [done|].
      destruct (Nat.lt_ge_cases x (length init)); [|done].
      exfalso. apply Hn2. split; [apply list_elem_of_here | done].
    + by rewrite list_lookup_insert_ne.
Qed.

Lemma length_fold_jset {A} (g : nat -> A) l init :
  length (fold_left (fun acc a => jset acc (Z.of_nat a) (g a)) l init)
  = length init.
Proof.
  revert init. induction l as [|x l IH]; intros init; cbn [fold_left]; [done|].
  by rewrite IH, length_jset.
Qed.

Lemma distinct_grants_init (num_agents : nat) (action nodes : list Z) :
  length action = length nodes ->
  num_agents = length nodes ->
  distinct_grants nodes
    (replicate (length action) INVALID_CHOICE,
     replicate num_agents DUMMY_NODE).
Proof.
  intros Ha Hn. unfold distinct_grants. cbn [fst snd].
  rewrite !length_replicate. repeat split; [done..| |].
  - intros i x Hx Hpos. apply lookup_replicate in Hx as [-> _].
    unfold INVALID_CHOICE in Hpos. lia.
  - intros i j xi xj ni nj _ Hx Hpos. apply lookup_replicate in Hx as [-> _].
    unfold INVALID_CHOICE in Hpos. lia.
Qed.

Lemma distinct_grants_step (action nodes : list Z) st agent_i :
  distinct_grants nodes st ->
  distinct_grants nodes (tie_break_step action nodes st agent_i).
Proof.
  intros (Hl1 & Hl2 & Hrec & Hdist). unfold tie_break_step.
  rewrite lax_switch4.
  destruct (jget 0 nodes agent_i =? EMPTY_NODE) eqn:Hinv;
    destruct (count_eq (jget 0 nodes agent_i) st.2 =? 0) eqn:Hsel;
    try done.
  - (* granted *)
    apply Z.eqb_eq, count_eq_zero in Hsel.
    unfold jset. rewrite Hl1, Hl2.
    destruct (in_bounds (length nodes) agent_i) as [n|] eqn:Hn; [|done].
    pose proof (jget_in_bounds 0 nodes agent_i n Hn) as Hnode.
    apply in_bounds_Some in Hn as [Hlt _].
    unfold distinct_grants. cbn [fst snd]. rewrite !length_insert.
    assert (forall i x ni, i <> n -> st.1 !! i = Some x -> 0 <= x ->
                           nodes !! i = Some ni ->
                           ni <> jget 0 nodes agent_i) as Hfresh.
    { intros i x ni Hne Hx Hpos Hni ->. apply Hsel.
      apply list_elem_of_lookup. exists i.
      rewrite (Hrec i x Hx Hpos). done. }
    repeat split; [done..| |].
    + intros i x Hx Hpos. destruct (decide (i = n)) as [->|Hne].
      * rewrite list_lookup_insert_eq by lia. done.
      * rewrite list_lookup_insert_ne in Hx by done.
        rewrite list_lookup_insert_ne by done. by eapply Hrec.
    + intros i j xi xj ni nj Hij Hxi Hpi Hxj Hpj Hni Hnj.
      destruct (decide (i = n)) as [->|Hin], (decide (j = n)) as [->|Hjn].
      * done.
      * rewrite list_lookup_insert_ne in Hxj by done.
        rewrite Hnode in Hni. injection Hni as <-.
        intros Heq. by apply (Hfresh j xj nj Hjn Hxj Hpj Hnj).
      * rewrite list_lookup_insert_ne in Hxi by done.
        rewrite Hnode in Hnj. injection Hnj as <-.
        by apply (Hfresh i xi ni Hin Hxi Hpi Hni).
      * rewrite list_lookup_insert_ne in Hxi, Hxj by done.
        by eapply (Hdist i j).
  - (* tie break lost *)
    unfold jset. rewrite Hl1, Hl2.
    destruct (in_bounds (length nodes) agent_i) as [n|] eqn:Hn; [|done].
    unfold distinct_grants. cbn [fst snd]. rewrite !length_insert.
    assert (forall i x, <[n:=INVALID_TIE_BREAK]> st.1 !! i = Some x ->
                        0 <= x -> i <> n /\ st.1 !! i = Some x) as Hother.
    { intros i x Hx Hpos. destruct (decide (i = n)) as [->|Hne].
      - apply list_lookup_insert_Some in Hx as [(_ & <- & _)|[? _]]; [|done].
        unfold INVALID_TIE_BREAK in Hpos. lia.
      - by rewrite list_lookup_insert_ne in Hx. }
    repeat split; [done..| |].
    + intros i x Hx Hpos. destruct (Hother i x Hx Hpos) as [Hne Hx'].
      rewrite list_lookup_insert_ne by done. by eapply Hrec.
    + intros i j xi xj ni nj Hij Hxi Hpi Hxj Hpj.
      destruct (Hother i xi Hxi Hpi) as [_ Hxi'].
      destruct (Hother j xj Hxj Hpj) as [_ Hxj']. by eapply Hdist.
Qed.

Lemma distinct_grants_result (num_agents : nat) (action nodes perm : list Z) :
  length action = length nodes ->
  num_agents = length nodes ->
  distinct_grants nodes (tie_break_result num_agents action nodes perm).
Proof.
  intros Ha Hn. unfold tie_break_result.
  generalize (distinct_grants_init num_agents action nodes Ha Hn).
  generalize (replicate (length action) INVALID_CHOICE,
              replicate num_agents DUMMY_NODE).
  induction perm as [|x perm IH]; intros st Hst; cbn [fold_left]; [done|].
  apply IH. by apply distinct_grants_step.
Qed.

Lemma well_shaped_lengths {Key} (self : CoopMinSpanTree Key) (state : State Key) :
  well_shaped self state = true ->
  length (node_edges state) = num_agents self
  /\ length (positions state) = num_agents self
  /\ length (position_index state) = num_agents self
  /\ length (connected_nodes state) = num_agents self
  /\ length (connected_nodes_index state) = num_agents self
  /\ length (nodes_to_connect state) = num_agents self
  /\ length (finished_agents state) = num_agents self.
Proof.
  unfold well_shaped. rewrite !andb_true_iff, !Nat.eqb_eq. tauto.
Qed.

Lemma length_resolve_nodes {Key} (state : State Key) action n :
  length (node_edges state) = n -> length (positions state) = n ->
  length action = n ->
  length (resolve_nodes state action) = n.
Proof.
  intros He Hp Ha. unfold resolve_nodes.
  rewrite length_zip_with, length_zip. lia.
Qed.

Lemma resolve_nodes_lookup {Key} (state : State Key) (action : list Z)
    (i : nat) view p c :
  node_edges state !! i = Some view ->
  positions state !! i = Some p ->
  action !! i = Some c ->
  resolve_nodes state action !! i = Some (_get_agent_node view p c).
Proof.
  intros Hv Hp Hc. unfold resolve_nodes.
  apply lookup_zip_with_Some. exists view, (p, c). split_and!; [done | done |].
  apply lookup_zip_with_Some. by exists p, c.
Qed.

Lemma length_tie_break_step (action nodes : list Z) st agent_i :
  length (tie_break_step action nodes st agent_i).1 = length st.1.
Proof.
  unfold tie_break_step. rewrite lax_switch4.
  destruct (_ =? _), (_ =? _); cbn [fst]; by rewrite ?length_jset.
Qed.

Lemma length_tie_break_result (n : nat) (action nodes perm : list Z) :
  length (tie_break_result n action nodes perm).1 = length action.
Proof.
  unfold tie_break_result.
  transitivity (length (replicate (length action) INVALID_CHOICE,
                        replicate n DUMMY_NODE).1);
    [|apply length_replicate].
  generalize (replicate (length action) INVALID_CHOICE,
              replicate n DUMMY_NODE).
  induction perm as [|x perm IH]; intros st; cbn [fold_left]; [done|].
  by rewrite IH, length_tie_break_step.
Qed.

Lemma length_arange n : length (arange n) = n.
Proof. unfold arange. by rewrite length_fmap, length_seq. Qed.

Lemma length_random_permutation {Key} `{JaxRandom Key} (k : Key) n :
  length (random_permutation k (arange n)) = n.
Proof.
  rewrite (Permutation_length (random_permutation_perm k (arange n))).
  apply length_arange.
Qed.

Section Trim.
Context {Key : Type} `{JaxRandom Key}.
Variable self : CoopMinSpanTree Key.
Variable state : State Key.
Variable action : list Z.
Variable step_key : Key.

Local Abbreviation nodes := (resolve_nodes state action).
Local Abbreviation perm :=
  (random_permutation step_key (arange (num_agents self))).
Local Abbreviation new_actions :=
  (tie_break_result (num_agents self) action nodes perm).1.

Lemma trim_unfold :
  _trim_duplicated_invalid_actions self state action step_key
  = (zip_with finish_mask
       (fold_left
          (fun final_actions agent =>
             jset final_actions (Z.of_nat agent)
               (masked_action state nodes new_actions agent))
          (seq 0 (num_agents self)) (zeros_like new_actions))
       (finished_agents state),
     nodes).
Proof.
  unfold _trim_duplicated_invalid_actions.
  rewrite tie_break_loop_fold by apply length_random_permutation.
  done.
Qed.

Lemma trim_nodes :
  (_trim_duplicated_invalid_actions self state action step_key).2 = nodes.
Proof. by rewrite trim_unfold. Qed.

Lemma trim_final_lookup i f :
  length action = num_agents self ->
  (i < num_agents self)%nat ->
  finished_agents state !! i = Some f ->
  (_trim_duplicated_invalid_actions self state action step_key).1 !! i
  = Some (finish_mask (masked_action state nodes new_actions i) f).
Proof.
  intros Ha Hi Hf. rewrite trim_unfold. cbn [fst].
  rewrite lookup_zip_with, fold_jset_lookup, Hf.
  unfold zeros_like. rewrite length_replicate, length_tie_break_result, Ha.
  rewrite decide_True; [done|]. split; [|done]. apply elem_of_seq. lia.
Qed.

Lemma finish_mask_nonneg a f : 0 <= finish_mask a f -> f = false /\ finish_mask a f = a.
Proof. unfold finish_mask. destruct f; simpl; lia. Qed.

Lemma masked_action_nonneg i :
  0 <= masked_action state nodes new_actions i ->
  masked_action state nodes new_actions i
  = jget 0 new_actions (Z.of_nat i).
Proof.
  unfold masked_action, mask_visited_nodes, INVALID_ALREADY_TRAVERSED.
  destruct (negb _); [lia | done].
Qed.

End Trim.

(** C1.  Among the agents whose final action code is non-negative
    (accepted), the destination nodes are pairwise distinct: no two agents
    are granted the same node in one step. *)
Theorem no_double_grant {Key} `{JaxRandom Key} (self : CoopMinSpanTree Key)
    (state : State Key) (action : list Z) (step_key : Key)
    (i j : nat) (ai aj ni nj : Z) :
  let r := _trim_duplicated_invalid_actions self state action step_key in
  well_shaped self state = true ->
  length action = num_agents self ->
  i <> j ->
  r.1 !! i = Some ai -> 0 <= ai ->
  r.1 !! j = Some aj -> 0 <= aj ->
  r.2 !! i = Some ni -> r.2 !! j = Some nj ->
  ni <> nj.
Proof.
  intros r Hws Ha Hij Hai Hpi Haj Hpj Hni Hnj. subst r.
  apply well_shaped_lengths in Hws as (He & Hp & _ & _ & _ & _ & Hf).
  rewrite trim_nodes in Hni, Hnj.
  pose proof (length_resolve_nodes state action _ He Hp Ha) as Hn.
  assert (forall (k : nat) (a : Z),
            (_trim_duplicated_invalid_actions self state action step_key).1
              !! k = Some a -> 0 <= a ->
            (tie_break_result (num_agents self) action
               (resolve_nodes state action)
               (random_permutation step_key (arange (num_agents self)))).1
              !! k = Some a) as Hacc.
  { intros k a Hk Hpos.
    assert (k < num_agents self)%nat as Hlt.
    { apply lookup_lt_Some in Hk. rewrite trim_unfold in Hk. cbn [fst] in Hk.
      rewrite length_zip_with in Hk. lia. }
    destruct (lookup_lt_is_Some_2 (finished_agents state) k ltac:(lia))
      as [f Hfk].
    rewrite (trim_final_lookup self state action step_key k f Ha Hlt Hfk) in Hk.
    injection Hk as <-. apply finish_mask_nonneg in Hpos as Hfm.
    destruct Hfm as [-> Hfm]. rewrite Hfm in Hpos |- *.
    rewrite masked_action_nonneg by done.
    apply jget_in_bounds. apply in_bounds_of_nat.
    by rewrite length_tie_break_result, Ha. }
  destruct (distinct_grants_result (num_agents self) action
              (resolve_nodes state action)
              (random_permutation step_key (arange (num_agents self))))
    as (_ & _ & _ & Hdist); [lia.. |].
  eapply (Hdist i j ai aj ni nj); eauto.
Qed.

(** ** The loop over agents in [step] *)

Section StepAgents.
Context {Key : Type} `{JaxRandom Key}.
Variable self : CoopMinSpanTree Key.
Variable state : State Key.
Variables action next_nodes : list Z.

Local Abbreviation result := (agent_result state action next_nodes).

Lemma step_agents_fold l acc :
  fold_left
    (fun acc agent =>
       let '(conn_nodes_i, conn_nodes_id, pos_i, pos_ind) := result agent in
       {| upd_connected_nodes :=
            jset (upd_connected_nodes acc) (Z.of_nat agent) conn_nodes_i;
          upd_connected_nodes_index :=
            jset (upd_connected_nodes_index acc) (Z.of_nat agent) conn_nodes_id;
          upd_agents_pos := jset (upd_agents_pos acc) (Z.of_nat agent) pos_i;
          upd_position_index :=
            jset (upd_position_index acc) (Z.of_nat agent) pos_ind |})
    l acc
  = {| upd_connected_nodes :=
         fold_left (fun a agent => jset a (Z.of_nat agent) (result agent).1.1.1)
           l (upd_connected_nodes acc);
       upd_connected_nodes_index :=
         fold_left (fun a agent => jset a (Z.of_nat agent) (result agent).1.1.2)
           l (upd_connected_nodes_index acc);
       upd_agents_pos :=
         fold_left (fun a agent => jset a (Z.of_nat agent) (result agent).1.2)
           l (upd_agents_pos acc);
       upd_position_index :=
         fold_left (fun a agent => jset a (Z.of_nat agent) (result agent).2)
           l (upd_position_index acc) |}.
Proof.
  revert acc. induction l as [|x l IH]; intros acc; cbn [fold_left].
  { by destruct acc. }
  rewrite IH. by destruct (result x) as [[[a b] c] d].
Qed.

Lemma step_agents_unfold :
  step_agents self state action next_nodes
  = {| upd_connected_nodes :=
         fold_left (fun a agent => jset a (Z.of_nat agent) (result agent).1.1.1)
           (seq 0 (num_agents self)) (zeros_like2 (connected_nodes state));
       upd_connected_nodes_index :=
         fold_left (fun a agent => jset a (Z.of_nat agent) (result agent).1.1.2)
           (seq 0 (num_agents self))
           (zeros_like2 (connected_nodes_index state));
       upd_agents_pos :=
         fold_left (fun a agent => jset a (Z.of_nat agent) (result agent).1.2)
           (seq 0 (num_agents self)) (zeros_like (positions state));
       upd_position_index :=
         fold_left (fun a agent => jset a (Z.of_nat agent) (result agent).2)
           (seq 0 (num_agents self)) (zeros_like (position_index state)) |}.
Proof. unfold step_agents. apply step_agents_fold. Qed.

Hypothesis Hshape : well_shaped self state = true.

Lemma step_agents_lookup i :
  (i < num_agents self)%nat ->
  let upd := step_agents self state action next_nodes in
  upd_connected_nodes upd !! i = Some (result i).1.1.1
  /\ upd_connected_nodes_index upd !! i = Some (result i).1.1.2
  /\ upd_agents_pos upd !! i = Some (result i).1.2
  /\ upd_position_index upd !! i = Some (result i).2.
Proof.
  intros Hi upd. subst upd. rewrite step_agents_unfold.
  cbn [upd_connected_nodes upd_connected_nodes_index upd_agents_pos
       upd_position_index].
  apply well_shaped_lengths in Hshape as (_ & Hp & Hpi & Hcn & Hci & _ & _).
  rewrite !fold_jset_lookup. unfold zeros_like2, zeros_like.
  rewrite !length_fmap, !length_replicate, Hp, Hpi, Hcn, Hci.
  assert (i ∈ seq 0 (num_agents self) /\ (i < num_agents self)%nat) as Hd.
  { split; [apply elem_of_seq; lia | done]. }
  by rewrite !decide_True.
Qed.

Lemma step_agents_lengths :
  let upd := step_agents self state action next_nodes in
  length (upd_connected_nodes upd) = num_agents self
  /\ length (upd_connected_nodes_index upd) = num_agents self
  /\ length (upd_agents_pos upd) = num_agents self
  /\ length (upd_position_index upd) = num_agents self.
Proof.
  intros upd. subst upd. rewrite step_agents_unfold.
  cbn [upd_connected_nodes upd_connected_nodes_index upd_agents_pos
       upd_position_index].
  apply well_shaped_lengths in Hshape as (_ & Hp & Hpi & Hcn & Hci & _ & _).
  rewrite !length_fold_jset. unfold zeros_like2, zeros_like.
  by rewrite !length_fmap, !length_replicate.
Qed.

End StepAgents.

(** ** One step, agent by agent *)

Lemma agent_result_stay {Key} (state : State Key) (action next_nodes : list Z)
    (i : nat) :
  jget 0 action (Z.of_nat i) = INVALID_CHOICE
  \/ jget 0 action (Z.of_nat i) = INVALID_TIE_BREAK
  \/ jget 0 next_nodes (Z.of_nat i) = INVALID_NODE ->
  agent_result state action next_nodes i
  = (jget [] (connected_nodes state) (Z.of_nat i),
     jget [] (connected_nodes_index state) (Z.of_nat i),
     jget 0 (positions state) (Z.of_nat i),
     jget 0 (position_index state) (Z.of_nat i)).
Proof.
  intros Hcase. unfold agent_result, step_agent_fn.
  destruct Hcase as [-> | [-> | ->]]; [done | done |].
  rewrite Z.eqb_refl. by rewrite andb_false_r.
Qed.

Lemma agent_result_move {Key} (state : State Key) (action next_nodes : list Z)
    (i : nat) :
  jget 0 action (Z.of_nat i) <> INVALID_CHOICE ->
  jget 0 action (Z.of_nat i) <> INVALID_TIE_BREAK ->
  jget 0 next_nodes (Z.of_nat i) <> INVALID_NODE ->
  agent_result state action next_nodes i
  = _update_conected_nodes
      (jget [] (connected_nodes state) (Z.of_nat i))
      (jget [] (connected_nodes_index state) (Z.of_nat i))
      (jget 0 next_nodes (Z.of_nat i))
      (jget 0 (position_index state) (Z.of_nat i)).
Proof.
  intros H1 H2 H3. unfold agent_result, step_agent_fn.
  destruct (Z.eqb_spec (jget 0 action (Z.of_nat i)) INVALID_CHOICE); [done|].
  destruct (Z.eqb_spec (jget 0 action (Z.of_nat i)) INVALID_TIE_BREAK); [done|].
  destruct (Z.eqb_spec (jget 0 next_nodes (Z.of_nat i)) INVALID_NODE); done.
Qed.

Lemma step_unfold {Key} `{JaxRandom Key} (self : CoopMinSpanTree Key)
    (state : State Key) (action : list Z) :
  let r :=
    _trim_duplicated_invalid_actions self state action
      (random_split (key state)).2 in
  let upd := step_agents self state r.1 r.2 in
  let mid := (step_state self state action).1 in
  let s' := (step self state action).1 in
  connected_nodes mid = upd_connected_nodes upd
  /\ nodes_to_connect mid = nodes_to_connect state
  /\ finished_agents mid = finished_agents state
  /\ connected_nodes s' = upd_connected_nodes upd
  /\ connected_nodes_index s' = upd_connected_nodes_index upd
  /\ positions s' = upd_agents_pos upd
  /\ position_index s' = upd_position_index upd
  /\ node_edges s'
     = _update_active_edges self (node_edges state) (upd_agents_pos upd)
         (node_types state)
  /\ nodes_to_connect s' = nodes_to_connect state
  /\ node_types s' = node_types state
  /\ finished_agents s' = get_finished_agents self mid
  /\ step_count s' = step_count state + 1.
Proof.
  unfold step, step_state.
  destruct (random_split (key state)) as [k sk]. cbn [snd].
  by destruct (_trim_duplicated_invalid_actions self state action sk) as [a n].
Qed.

Section StepFacts.
Context {Key : Type} `{JaxRandom Key}.
Variable self : CoopMinSpanTree Key.
Variable state : State Key.
Variable action : list Z.
Hypothesis Hshape : well_shaped self state = true.
Hypothesis Haction : length action = num_agents self.

Local Abbreviation step_key := (random_split (key state)).2.
Local Abbreviation trimmed :=
  (_trim_duplicated_invalid_actions self state action step_key).
Local Abbreviation next_state := (step self state action).1.

(** The state after the step holds, for each agent, what [step_agent_fn]
    returned for it. *)
Lemma step_lookup i :
  (i < num_agents self)%nat ->
  connected_nodes next_state !! i
  = Some (agent_result state trimmed.1 trimmed.2 i).1.1.1
  /\ connected_nodes_index next_state !! i
     = Some (agent_result state trimmed.1 trimmed.2 i).1.1.2
  /\ positions next_state !! i
     = Some (agent_result state trimmed.1 trimmed.2 i).1.2
  /\ position_index next_state !! i
     = Some (agent_result state trimmed.1 trimmed.2 i).2.
Proof.
  intros Hi.
  destruct (step_unfold self state action)
    as (_ & _ & _ & -> & -> & -> & -> & _).
  by apply step_agents_lookup.
Qed.

Lemma state_lookups i :
  (i < num_agents self)%nat ->
  connected_nodes state !! i
  = Some (jget [] (connected_nodes state) (Z.of_nat i))
  /\ connected_nodes_index state !! i
     = Some (jget [] (connected_nodes_index state) (Z.of_nat i))
  /\ positions state !! i = Some (jget 0 (positions state) (Z.of_nat i))
  /\ position_index state !! i
     = Some (jget 0 (position_index state) (Z.of_nat i)).
Proof.
  intros Hi.
  apply well_shaped_lengths in Hshape as (_ & Hp & Hpi & Hcn & Hci & _ & _).
  repeat split; apply jget_in_bounds, in_bounds_of_nat; lia.
Qed.

(** An agent whose final action is [INVALID_CHOICE] or [INVALID_TIE_BREAK],
    or whose destination is the empty edge, is left where it is. *)
Lemma step_stay i :
  (i < num_agents self)%nat ->
  jget 0 trimmed.1 (Z.of_nat i) = INVALID_CHOICE
  \/ jget 0 trimmed.1 (Z.of_nat i) = INVALID_TIE_BREAK
  \/ jget 0 trimmed.2 (Z.of_nat i) = INVALID_NODE ->
  connected_nodes next_state !! i = connected_nodes state !! i
  /\ connected_nodes_index next_state !! i = connected_nodes_index state !! i
  /\ positions next_state !! i = positions state !! i
  /\ position_index next_state !! i = position_index state !! i.
Proof.
  intros Hi Hcase.
  destruct (step_lookup i Hi) as (-> & -> & -> & ->).
  destruct (state_lookups i Hi) as (-> & -> & -> & ->).
  by rewrite (agent_result_stay _ _ _ _ Hcase).
Qed.

(** Any other agent moves to its destination, which is written to the next
    slot of its [connected_nodes]. *)
Lemma step_move i :
  (i < num_agents self)%nat ->
  jget 0 trimmed.1 (Z.of_nat i) <> INVALID_CHOICE ->
  jget 0 trimmed.1 (Z.of_nat i) <> INVALID_TIE_BREAK ->
  jget 0 trimmed.2 (Z.of_nat i) <> INVALID_NODE ->
  let node := jget 0 trimmed.2 (Z.of_nat i) in
  let index := jget 0 (position_index state) (Z.of_nat i) + 1 in
  connected_nodes next_state !! i
  = Some (jset (jget [] (connected_nodes state) (Z.of_nat i)) index node)
  /\ connected_nodes_index next_state !! i
     = Some (jset (jget [] (connected_nodes_index state) (Z.of_nat i))
               node node)
  /\ positions next_state !! i = Some node
  /\ position_index next_state !! i = Some index.
Proof.
  intros Hi H1 H2 H3 node index.
  destruct (step_lookup i Hi) as (-> & -> & -> & ->).
  by rewrite (agent_result_move _ _ _ _ H1 H2 H3).
Qed.

(** The final action of an agent, read off the result of the loop. *)
Lemma final_action i f :
  (i < num_agents self)%nat ->
  finished_agents state !! i = Some f ->
  jget 0 trimmed.1 (Z.of_nat i)
  = finish_mask
      (masked_action state (resolve_nodes state action)
         (tie_break_result (num_agents self) action
            (resolve_nodes state action)
            (random_permutation step_key (arange (num_agents self)))).1 i) f.
Proof.
  intros Hi Hf. apply jget_of_nat. by apply trim_final_lookup.
Qed.

Lemma next_node i n :
  resolve_nodes state action !! i = Some n ->
  jget 0 trimmed.2 (Z.of_nat i) = n.
Proof. intros Hn. rewrite trim_nodes. by apply jget_of_nat. Qed.

End StepFacts.

(** ** Finished agents *)

Lemma finish_mask_true a : finish_mask a true = INVALID_CHOICE.
Proof. unfold finish_mask, INVALID_CHOICE. simpl. lia. Qed.

Lemma finished_agent_stays {Key} `{JaxRandom Key}
    (self : CoopMinSpanTree Key) (state : State Key) (action : list Z)
    (i : nat) :
  well_shaped self state = true ->
  length action = num_agents self ->
  (i < num_agents self)%nat ->
  finished_agents state !! i = Some true ->
  (_trim_duplicated_invalid_actions self state action
     (random_split (key state)).2).1 !! i = Some INVALID_CHOICE
  /\ positions (step self state action).1 !! i = positions state !! i
  /\ connected_nodes (step self state action).1 !! i
     = connected_nodes state !! i
  /\ connected_nodes_index (step self state action).1 !! i
     = connected_nodes_index state !! i
  /\ position_index (step self state action).1 !! i
     = position_index state !! i.
Proof.
  intros Hws Ha Hi Hf.
  pose proof (trim_final_lookup self state action
                (random_split (key state)).2 i true Ha Hi Hf) as Hfinal.
  rewrite finish_mask_true in Hfinal. split; [done|].
  destruct (step_stay self state action Hws Ha i Hi) as (? & ? & ? & ?).
  { left. by apply jget_of_nat. }
  done.
Qed.

(** C4, as the code has it.  An agent that is finished at the start of a
    step gets the final action code -1 (the code of [INVALID_CHOICE]; there
    is no separate no-op code) and is left where it is: its position, its
    [connected_nodes], its [connected_nodes_index] and its [position_index]
    are unchanged.  It still takes part in the tie-break loop. *)
Theorem finished_agent_frozen {Key} `{JaxRandom Key}
    (self : CoopMinSpanTree Key) (state : State Key) (action : list Z)
    (i : nat) :
  let r :=
    _trim_duplicated_invalid_actions self state action
      (random_split (key state)).2 in
  let s' := (step self state action).1 in
  well_shaped self state = true ->
  length action = num_agents self ->
  (i < num_agents self)%nat ->
  finished_agents state !! i = Some true ->
  r.1 !! i = Some INVALID_CHOICE
  /\ positions s' !! i = positions state !! i
  /\ connected_nodes s' !! i = connected_nodes state !! i
  /\ connected_nodes_index s' !! i = connected_nodes_index state !! i
  /\ position_index s' !! i = position_index state !! i.
Proof.
  intros r s' Hws Ha Hi Hf. subst r s'.
  by apply finished_agent_stays.
Qed.

Lemma finished_agent_frozen_witness :
  let s := (demo_run 3 0 [[1; 0]]).1 in
  finished_agents s !! 0%nat = Some true
  /\ (_trim_duplicated_invalid_actions (demo_env 3) s [4; 4]
        (random_split (key s)).2).1 !! 0%nat = Some INVALID_CHOICE
  /\ positions (step (demo_env 3) s [4; 4]).1 !! 0%nat = positions s !! 0%nat
  /\ connected_nodes (step (demo_env 3) s [4; 4]).1 !! 0%nat
     = connected_nodes s !! 0%nat
  /\ connected_nodes_index (step (demo_env 3) s [4; 4]).1 !! 0%nat
     = connected_nodes_index s !! 0%nat
  /\ position_index (step (demo_env 3) s [4; 4]).1 !! 0%nat
     = position_index s !! 0%nat.
Proof.
  split; [reflexivity|].
  apply (finished_agent_frozen (demo_env 3) (demo_run 3 0 [[1; 0]]).1
           [4; 4] 0).
  - reflexivity.
  - reflexivity.
  - simpl. lia.
  - reflexivity.
Defined.

(** C4 fails as stated: agent 0 is finished, the permutation of the step is
    the identity, and both agents request node 4.  Agent 1 loses the
    tie-break to the finished agent; had agent 0 requested node 0 instead,
    agent 1 would have been granted node 4. *)
Lemma finished_agent_wins_tie_break :
  let s := (demo_run 3 0 [[1; 0]]).1 in
  let step_key := (random_split (key s)).2 in
  finished_agents s = [true; false]
  /\ random_permutation step_key (arange 2) = [0; 1]
  /\ _trim_duplicated_invalid_actions (demo_env 3) s [4; 4] step_key
     = ([INVALID_CHOICE; INVALID_TIE_BREAK], [4; 4])
  /\ _trim_duplicated_invalid_actions (demo_env 3) s [0; 4] step_key
     = ([INVALID_CHOICE; 4], [0; 4]).
Proof. vm_compute. done. Qed.

(** ** Already traversed nodes *)

(** C3, as the code has it.  An unfinished agent whose request resolves to a
    node already in its [connected_nodes_index] gets the outcome
    [INVALID_ALREADY_TRAVERSED], and it moves: its position becomes that
    node and its [position_index] grows by one.  When slot
    [position_index + 1] lies inside its [connected_nodes] row, the node is
    written to that slot and nothing else in the row changes.  A finished
    agent with such a request gets [INVALID_CHOICE] and stays: its position,
    its [connected_nodes] row and its [position_index] are unchanged. *)
Theorem already_traversed_moves {Key} `{JaxRandom Key}
    (self : CoopMinSpanTree Key) (state : State Key) (action : list Z)
    (i : nat) (f : bool) (n : Z) (row : list Z) (index : Z) :
  let r :=
    _trim_duplicated_invalid_actions self state action
      (random_split (key state)).2 in
  let s' := (step self state action).1 in
  well_shaped self state = true ->
  length action = num_agents self ->
  finished_agents state !! i = Some f ->
  r.2 !! i = Some n ->
  n <> EMPTY_NODE ->
  jget 0 (jget [] (connected_nodes_index state) (Z.of_nat i)) n
    <> EMPTY_NODE ->
  connected_nodes state !! i = Some row ->
  position_index state !! i = Some index ->
  (f = false ->
   r.1 !! i = Some INVALID_ALREADY_TRAVERSED
   /\ positions s' !! i = Some n
   /\ position_index s' !! i = Some (index + 1)
   /\ exists row',
        connected_nodes s' !! i = Some row'
        /\ length row' = length row
        /\ (0 <= index + 1 < Z.of_nat (length row) ->
            row' !! Z.to_nat (index + 1) = Some n
            /\ row' = <[Z.to_nat (index + 1) := n]> row))
  /\ (f = true ->
      r.1 !! i = Some INVALID_CHOICE
      /\ positions s' !! i = positions state !! i
      /\ position_index s' !! i = Some index
      /\ connected_nodes s' !! i = Some row).
Proof.
  intros r s' Hws Ha Hf Hn Hne Hvisited Hrow Hidx. subst r s'.
  assert (i < num_agents self)%nat as Hi.
  { apply lookup_lt_Some in Hf.
    by apply well_shaped_lengths in Hws as (_ & _ & _ & _ & _ & _ & <-). }
  split.
  - intros ->. rewrite trim_nodes in Hn.
    pose proof (trim_final_lookup self state action
                  (random_split (key state)).2 i false Ha Hi Hf) as Hfinal.
    assert (masked_action state (resolve_nodes state action)
              (tie_break_result (num_agents self) action
                 (resolve_nodes state action)
                 (random_permutation (random_split (key state)).2
                    (arange (num_agents self)))).1 i
            = INVALID_ALREADY_TRAVERSED) as Hmasked.
    { unfold masked_action, mask_visited_nodes.
      rewrite (jget_of_nat _ _ _ _ Hn).
      by destruct (Z.eqb_spec
                     (jget 0 (jget [] (connected_nodes_index state)
                                (Z.of_nat i)) n)
                     EMPTY_NODE). }
    rewrite Hmasked in Hfinal.
    change (finish_mask INVALID_ALREADY_TRAVERSED false)
      with INVALID_ALREADY_TRAVERSED in Hfinal.
    split; [done|].
    pose proof (jget_of_nat 0 _ _ _ Hfinal) as Hact.
    pose proof (next_node self state action i n Hn) as Hnode.
    destruct (step_move self state action Hws i Hi) as (Hcn & Hci & Hp & Hpi).
    + by rewrite Hact.
    + by rewrite Hact.
    + by rewrite Hnode.
    + rewrite Hnode in Hcn, Hp.
      rewrite (jget_of_nat _ _ _ _ Hrow), (jget_of_nat _ _ _ _ Hidx) in Hcn.
      rewrite (jget_of_nat _ _ _ _ Hidx) in Hpi.
      split_and!; [done | done |].
      eexists. split_and!; [exact Hcn | apply length_jset |].
      intros Hin. rewrite (jset_in_range row (index + 1) n Hin).
      split; [|done]. apply list_lookup_insert_eq. lia.
  - intros ->.
    destruct (finished_agent_stays self state action i Hws Ha Hi Hf)
      as (Hcode & Hp & Hcn & _ & Hpi).
    rewrite Hrow in Hcn. rewrite Hidx in Hpi. done.
Qed.

Lemma already_traversed_moves_witness :
  let s := (demo_run 3 0 [[4; 0]]).1 in
  let s' := (step (demo_env 3) s [0; 0]).1 in
  (_trim_duplicated_invalid_actions (demo_env 3) s [0; 0]
     (random_split (key s)).2).1 !! 0%nat = Some INVALID_ALREADY_TRAVERSED
  /\ positions s' !! 0%nat = Some 0
  /\ position_index s' !! 0%nat = Some (1 + 1)
  /\ exists row',
       connected_nodes s' !! 0%nat = Some row'
       /\ length row' = length [0; 4; -1]
       /\ (0 <= 1 + 1 < Z.of_nat (length [0; 4; -1]) ->
           row' !! Z.to_nat (1 + 1) = Some 0
           /\ row' = <[Z.to_nat (1 + 1) := 0]> [0; 4; -1]).
Proof.
  assert (0 <> EMPTY_NODE) as Hne by (vm_compute; discriminate).
  assert (jget 0 (jget [] (connected_nodes_index (demo_run 3 0 [[4; 0]]).1)
                    (Z.of_nat 0)) 0 <> EMPTY_NODE) as Hvisited
    by (vm_compute; discriminate).
  exact (proj1 (already_traversed_moves (demo_env 3)
                  (demo_run 3 0 [[4; 0]]).1 [0; 0] 0 false 0 [0; 4; -1] 1
                  eq_refl eq_refl eq_refl eq_refl Hne Hvisited
                  eq_refl eq_refl) eq_refl).
Defined.

(** C3 fails as stated: agent 0 stands on node 4, has visited nodes 0 and 4,
    and requests node 0 again.  The outcome is
    [INVALID_ALREADY_TRAVERSED], yet the agent moves from node 4 to node 0
    and node 0 is appended to its [connected_nodes]. *)
Lemma already_traversed_agent_moves :
  let s := (demo_run 3 0 [[4; 0]]).1 in
  let s' := (step (demo_env 3) s [0; 0]).1 in
  connected_nodes_index s !! 0%nat = Some [0; -1; -1; -1; 4; -1]
  /\ _trim_duplicated_invalid_actions (demo_env 3) s [0; 0]
       (random_split (key s)).2
     = ([INVALID_ALREADY_TRAVERSED; INVALID_CHOICE], [0; -1])
  /\ positions s = [4; 2] /\ positions s' = [0; 2]
  /\ connected_nodes s = [[0; 4; -1]; [2; -1; -1]]
  /\ connected_nodes s' = [[0; 4; 0]; [2; -1; -1]].
Proof. vm_compute. done. Qed.

(** ** Requests that resolve to no edge *)

Lemma unresolved_step (action nodes : list Z) st agent_i :
  length st.1 = length nodes ->
  (forall i, nodes !! i = Some EMPTY_NODE -> st.1 !! i = Some INVALID_CHOICE) ->
  forall i, nodes !! i = Some EMPTY_NODE ->
            (tie_break_step action nodes st agent_i).1 !! i
            = Some INVALID_CHOICE.
Proof.
  intros Hlen Hst i Hi. unfold tie_break_step. rewrite lax_switch4.
  destruct (Z.eqb_spec (jget 0 nodes agent_i) EMPTY_NODE) as [Hinv|Hinv];
    destruct (count_eq (jget 0 nodes agent_i) st.2 =? 0);
    cbn [fst]; try by apply Hst.
  all: unfold jset; rewrite Hlen;
    destruct (in_bounds (length nodes) agent_i) as [n|] eqn:Hn;
    [|by apply Hst];
    pose proof (jget_in_bounds 0 nodes agent_i n Hn) as Hnode;
    rewrite list_lookup_insert_ne; [by apply Hst | congruence].
Qed.

Lemma unresolved_result (num_agents : nat) (action nodes perm : list Z) i :
  length action = length nodes ->
  nodes !! i = Some EMPTY_NODE ->
  (tie_break_result num_agents action nodes perm).1 !! i
  = Some INVALID_CHOICE.
Proof.
  intros Hlen Hi. unfold tie_break_result.
  assert (length (replicate (length action) INVALID_CHOICE,
                  replicate num_agents DUMMY_NODE).1 = length nodes) as Hl.
  { cbn [fst]. by rewrite length_replicate. }
  assert (forall k, nodes !! k = Some EMPTY_NODE ->
            (replicate (length action) INVALID_CHOICE,
             replicate num_agents DUMMY_NODE).1 !! k = Some INVALID_CHOICE)
    as Hinit.
  { intros k Hk. cbn [fst]. apply lookup_replicate_2.
    rewrite Hlen. by eapply lookup_lt_Some. }
  revert Hl Hinit.
  generalize (replicate (length action) INVALID_CHOICE,
              replicate num_agents DUMMY_NODE).
  induction perm as [|x perm IH]; intros st Hl Hst; cbn [fold_left].
  { by apply Hst. }
  apply IH.
  - by rewrite length_tie_break_step.
  - by apply unresolved_step.
Qed.

(** C7, as the code has it.  A request resolves to the entry of the agent's
    own view at (its position, its requested index), and an index at or past
    the number of columns reads the last column.  An agent whose request
    resolves to the empty edge does not move and records nothing; its
    outcome is [INVALID_CHOICE] when the last entry of its
    [connected_nodes_index] is unset. *)
Theorem unresolved_request_stays {Key} `{JaxRandom Key}
    (self : CoopMinSpanTree Key) (state : State Key) (action : list Z)
    (i : nat) (view : list (list Z)) (p c : Z) :
  let r :=
    _trim_duplicated_invalid_actions self state action
      (random_split (key state)).2 in
  let s' := (step self state action).1 in
  let row := jget [] view p in
  well_shaped self state = true ->
  length action = num_agents self ->
  node_edges state !! i = Some view ->
  positions state !! i = Some p ->
  action !! i = Some c ->
  r.2 !! i = Some (_get_agent_node view p c)
  /\ (Z.of_nat (length row) <= c ->
      _get_agent_node view p c = default 0 (last row))
  /\ (_get_agent_node view p c = EMPTY_NODE ->
      positions s' !! i = positions state !! i
      /\ connected_nodes s' !! i = connected_nodes state !! i
      /\ connected_nodes_index s' !! i = connected_nodes_index state !! i
      /\ position_index s' !! i = position_index state !! i
      /\ (jget 0 (jget [] (connected_nodes_index state) (Z.of_nat i)) (-1)
          = EMPTY_NODE ->
          r.1 !! i = Some INVALID_CHOICE)).
Proof.
  intros r s' row Hws Ha Hview Hp Hc. subst r s' row.
  assert (i < num_agents self)%nat as Hi.
  { apply lookup_lt_Some in Hc. lia. }
  pose proof (resolve_nodes_lookup state action i view p c Hview Hp Hc) as Hn.
  split_and!.
  - by rewrite trim_nodes.
  - intros Hpast. unfold _get_agent_node. by apply jget_past_end.
  - intros Hempty. rewrite Hempty in Hn.
    destruct (step_stay self state action Hws Ha i Hi) as (? & ? & ? & ?).
    { right; right. by apply next_node. }
    split_and!; [done..|]. intros Hlast.
    pose proof (well_shaped_lengths self state Hws)
      as (He & Hpl & _ & _ & _ & _ & Hf).
    destruct (lookup_lt_is_Some_2 (finished_agents state) i ltac:(lia))
      as [f Hfi].
    rewrite (trim_final_lookup self state action _ i f Ha Hi Hfi).
    f_equal. unfold masked_action, mask_visited_nodes.
    rewrite (jget_of_nat _ _ _ _ Hn). change EMPTY_NODE with (-1) at 1.
    rewrite Hlast, Z.eqb_refl. cbn [negb].
    rewrite (jget_of_nat 0 _ i INVALID_CHOICE); [by destruct f|].
    apply unresolved_result; [|done].
    by rewrite (length_resolve_nodes state action _ He Hpl Ha).
Qed.

Lemma unresolved_request_stays_witness :
  let s := (demo_run 3 0 [[4; 0]]).1 in
  let r :=
    _trim_duplicated_invalid_actions (demo_env 3) s [9; 0]
      (random_split (key s)).2 in
  let s' := (step (demo_env 3) s [9; 0]).1 in
  r.2 !! 0%nat = Some EMPTY_NODE
  /\ positions s' !! 0%nat = positions s !! 0%nat
  /\ connected_nodes s' !! 0%nat = connected_nodes s !! 0%nat
  /\ r.1 !! 0%nat = Some INVALID_CHOICE.
Proof.
  destruct (unresolved_request_stays (demo_env 3) (demo_run 3 0 [[4; 0]]).1
              [9; 0] 0 (jget [] (node_edges (demo_run 3 0 [[4; 0]]).1) 0)
              4 9 eq_refl eq_refl eq_refl eq_refl eq_refl)
    as (Hnode & _ & Hstay).
  destruct (Hstay eq_refl) as (Hp & Hcn & _ & _ & Hcode).
  split_and!; [exact Hnode | exact Hp | exact Hcn | exact (Hcode eq_refl)].
Defined.

(** C7 fails as stated: the graph has six nodes and agent 0, on node 0,
    requests index 6.  The index is clamped to column 5, where its view has
    the edge to node 5: the final action is the requested 6, not
    [INVALID_CHOICE], and the agent moves to node 5. *)
Lemma out_of_range_request_moves :
  let s := (demo_run 3 0 []).1 in
  let s' := (step (demo_env 3) s [6; 0]).1 in
  num_nodes (demo_env 3) = 6%nat
  /\ _trim_duplicated_invalid_actions (demo_env 3) s [6; 0]
       (random_split (key s)).2
     = ([6; INVALID_CHOICE], [5; -1])
  /\ positions s = [0; 2] /\ positions s' = [5; 2]
  /\ connected_nodes s' = [[0; 5; -1]; [2; -1; -1]].
Proof. vm_compute. done. Qed.

(** The slip next to C7: an unresolved destination is -1, and reading
    [connected_nodes_index] at -1 reads its last entry.  Agent 0 has visited
    the last node (5) and requests index 5, which has no edge: the outcome
    is [INVALID_ALREADY_TRAVERSED], not [INVALID_CHOICE]. *)
Example unresolved_request_after_last_node :
  let s := (demo_run 3 0 [[5; 0]]).1 in
  connected_nodes_index s !! 0%nat = Some [0; -1; -1; -1; -1; 5]
  /\ _trim_duplicated_invalid_actions (demo_env 3) s [5; 0]
       (random_split (key s)).2
     = ([INVALID_ALREADY_TRAVERSED; INVALID_CHOICE], [-1; -1])
  /\ positions (step (demo_env 3) s [5; 0]).1 = positions s.
Proof. vm_compute. done. Qed.

(** ** Terminal states *)

Lemma get_finished_agents_ext {Key} (self : CoopMinSpanTree Key)
    (s t : State Key) :
  length (finished_agents s) = length (finished_agents t) ->
  nodes_to_connect s = nodes_to_connect t ->
  connected_nodes s = connected_nodes t ->
  get_finished_agents self s = get_finished_agents self t.
Proof. intros Hl Hn Hc. unfold get_finished_agents. by rewrite Hl, Hn, Hc. Qed.

Lemma length_get_finished_agents {Key} (self : CoopMinSpanTree Key)
    (s : State Key) :
  length (get_finished_agents self s) = length (finished_agents s).
Proof.
  unfold get_finished_agents. by rewrite length_fold_jset, length_replicate.
Qed.

Lemma all_true_lookup (v : list bool) i f :
  all v = true -> v !! i = Some f -> f = true.
Proof.
  unfold all. rewrite forallb_forall. intros Hall Hf.
  apply (Hall f). apply list_elem_of_In, list_elem_of_lookup. eauto.
Qed.

(** [step] keeps the arrays of the state one entry per agent. *)
Lemma step_well_shaped {Key} `{JaxRandom Key} (self : CoopMinSpanTree Key)
    (state : State Key) (action : list Z) :
  well_shaped self state = true ->
  well_shaped self (step self state action).1 = true.
Proof.
  intros Hws.
  destruct (step_unfold self state action)
    as (_ & _ & Hfm & Hcn & Hci & Hp & Hpi & He & Hn & _ & Hf & _).
  pose proof (step_agents_lengths self state
                (_trim_duplicated_invalid_actions self state action
                   (random_split (key state)).2).1
                (_trim_duplicated_invalid_actions self state action
                   (random_split (key state)).2).2 Hws)
    as (Lcn & Lci & Lp & Lpi).
  pose proof (well_shaped_lengths self state Hws)
    as (Le & _ & _ & _ & _ & Ln & Lf).
  unfold well_shaped.
  rewrite Hcn, Hci, Hp, Hpi, He, Hn, Hf, length_update_active_edges,
    length_get_finished_agents, Hfm, Lcn, Lci, Lp, Lpi, Le, Ln, Lf.
  by rewrite !Nat.eqb_refl.
Qed.

(** C8, as the code has it.  [step] has no guard on terminal states.  Once
    it has returned a termination (all agents finished), a further step
    changes neither [connected_nodes] nor [finished_agents], nor the
    positions, and returns a termination again. *)
Theorem termination_is_absorbing {Key} `{JaxRandom Key}
    (self : CoopMinSpanTree Key) (state : State Key)
    (action action' : list Z) :
  let r := step self state action in
  let r' := step self r.1 action' in
  well_shaped self state = true ->
  length action' = num_agents self ->
  is_termination r.2 ->
  connected_nodes r'.1 = connected_nodes r.1
  /\ finished_agents r'.1 = finished_agents r.1
  /\ connected_nodes_index r'.1 = connected_nodes_index r.1
  /\ positions r'.1 = positions r.1
  /\ is_termination r'.2.
Proof.
  intros r r' Hws Ha' Hterm. subst r r'.
  set (s1 := (step self state action).1) in *.
  assert (well_shaped self s1 = true) as Hws1 by by apply step_well_shaped.
  assert (all (finished_agents s1) = true) as Hall.
  { by apply (step_timestep_kind_aux self state action). }
  pose proof (well_shaped_lengths self s1 Hws1)
    as (_ & Lp & _ & Lcn & Lci & _ & Lf).
  pose proof (well_shaped_lengths self _ (step_well_shaped self s1 action' Hws1))
    as (_ & Lp' & _ & Lcn' & Lci' & _ & _).
  assert (forall i, (i < num_agents self)%nat ->
            finished_agents s1 !! i = Some true) as Hfin.
  { intros i Hi.
    destruct (lookup_lt_is_Some_2 (finished_agents s1) i ltac:(lia)) as [f Hf].
    by rewrite Hf, (all_true_lookup _ _ _ Hall Hf). }
  assert (connected_nodes (step self s1 action').1 = connected_nodes s1
          /\ connected_nodes_index (step self s1 action').1
             = connected_nodes_index s1
          /\ positions (step self s1 action').1 = positions s1)
    as (Ecn & Eci & Ep).
  { repeat split; apply list_eq; intros i;
      (destruct (Nat.lt_ge_cases i (num_agents self)) as [Hi|Hi];
       [by destruct (finished_agent_stays self s1 action' i Hws1 Ha' Hi
                       (Hfin i Hi)) as (_ & ? & ? & ? & _)
       |by rewrite !lookup_ge_None_2 by lia]). }
  assert (finished_agents (step self s1 action').1 = finished_agents s1)
    as Ef.
  { destruct (step_unfold self s1 action')
      as (Hm2 & Hn2 & Hf2 & Hc2 & _ & _ & _ & _ & _ & _ & -> & _).
    destruct (step_unfold self state action)
      as (Hm1 & Hn1 & Hf1 & Hc1 & _ & _ & _ & _ & Hn1' & _ & Hfs1 & _).
    fold s1 in Hc1, Hfs1, Hn1'. rewrite Hfs1.
    apply get_finished_agents_ext.
    - rewrite Hf2, Hf1, Lf.
      by apply well_shaped_lengths in Hws as (_ & _ & _ & _ & _ & _ & ->).
    - by rewrite Hn2, Hn1', Hn1.
    - by rewrite Hm2, <- Hc2, Ecn, Hc1, Hm1. }
  repeat split; try done.
  - apply (step_timestep_kind_aux self s1 action'). by rewrite Ef.
  - apply (step_timestep_kind_aux self s1 action'). by rewrite Ef.
Qed.

Lemma termination_is_absorbing_witness :
  let r := step (demo_env 3) (demo_run 3 0 []).1 [1; 3] in
  let r' := step (demo_env 3) r.1 [4; 4] in
  is_termination r.2
  /\ connected_nodes r'.1 = connected_nodes r.1
  /\ finished_agents r'.1 = finished_agents r.1
  /\ connected_nodes_index r'.1 = connected_nodes_index r.1
  /\ positions r'.1 = positions r.1
  /\ is_termination r'.2.
Proof.
  assert (is_termination (step (demo_env 3) (demo_run 3 0 []).1 [1; 3]).2)
    as Hterm.
  { split; reflexivity. }
  split; [exact Hterm|].
  apply (termination_is_absorbing (demo_env 3) (demo_run 3 0 []).1
           [1; 3] [4; 4]).
  - reflexivity.
  - reflexivity.
  - exact Hterm.
Defined.

(** C8 fails as stated: with a step limit of 2, the second step returns a
    truncation while both agents are unfinished.  A third step still moves
    agent 1 from node 2 to node 3, which changes its [connected_nodes] and
    turns its [finished] flag. *)
Lemma step_after_truncation_changes_state :
  let r := demo_run 2 0 [[4; 0]; [1; 0]] in
  let r' := step (demo_env 2) r.1 [0; 3] in
  is_truncation r.2
  /\ connected_nodes r.1 = [[0; 4]; [2; -1]]
  /\ connected_nodes r'.1 = [[0; 4]; [2; 3]]
  /\ finished_agents r.1 = [false; false]
  /\ finished_agents r'.1 = [false; true].
Proof. vm_compute. done. Qed.

(** ** The capacity of [connected_nodes] *)

(** C10 at the failing input: step limit 2, so each row of
    [connected_nodes] has two slots.  Agent 0 moves on both steps of the
    episode, 0 to 4 and then 4 to 1.  The second append goes to index 2, out
    of the row: it is dropped.  Node 1 is the agent's position and is in its
    [connected_nodes_index], but not in its [connected_nodes], so the agent,
    which has linked its two nodes 0 and 1, is not reported finished. *)
Theorem last_step_append_is_dropped :
  let s1 := (demo_run 2 0 [[4; 0]]).1 in
  let r := step (demo_env 2) s1 [1; 0] in
  _step_limit (demo_env 2) = 2
  /\ length <$> connected_nodes s1 = [2%nat; 2%nat]
  /\ (_trim_duplicated_invalid_actions (demo_env 2) s1 [1; 0]
        (random_split (key s1)).2) = ([1; INVALID_CHOICE], [1; -1])
  /\ jget 0 (position_index s1) 0 + 1 = 2
  /\ positions r.1 = [1; 2]
  /\ connected_nodes s1 = [[0; 4]; [2; -1]]
  /\ connected_nodes r.1 = [[0; 4]; [2; -1]]
  /\ connected_nodes_index r.1 !! 0%nat = Some [0; 1; -1; -1; 4; -1]
  /\ nodes_to_connect r.1 !! 0%nat = Some [0; 1]
  /\ finished_agents r.1 = [false; false]
  /\ is_truncation r.2.
Proof. vm_compute. done. Qed.

(** ** The tie-break loop against the protocol of the specification *)

Lemma in_bounds_range n a :
  0 <= a < Z.of_nat n -> in_bounds n a = Some (Z.to_nat a).
Proof.
  intros Ha. unfold in_bounds, normalize_index.
  destruct (Z.ltb_spec a 0); [lia|].
  destruct (Z.leb_spec 0 a); [|lia].
  destruct (Z.ltb_spec a (Z.of_nat n)); [done | lia].
Qed.

Lemma jget_elem_of {A} (d : A) l z : l <> [] -> jget d l z ∈ l.
Proof.
  intros Hl. unfold jget.
  assert (clip_index (length l) z < length l)%nat as Hlt.
  { apply clip_index_lt. destruct l; [done | simpl; lia]. }
  destruct (lookup_lt_is_Some_2 l _ Hlt) as [x Hx]. rewrite Hx. simpl.
  apply list_elem_of_lookup. eauto.
Qed.

Lemma forallb_elem_of {A} (f : A -> bool) l x :
  forallb f l = true -> x ∈ l -> f x = true.
Proof.
  rewrite forallb_forall. intros Hall Hx. by apply Hall, list_elem_of_In.
Qed.

Lemma resolve_nodes_valid {Key} (state : State Key) (action : list Z) x :
  edges_valid state = true ->
  x ∈ resolve_nodes state action -> EMPTY_EDGE <= x.
Proof.
  intros Hvalid Hx. unfold resolve_nodes in Hx.
  apply elem_of_lookup_zip_with in Hx as (k & m & [p a] & -> & Hm & _).
  unfold _get_agent_node. cbn [fst snd].
  pose proof (forallb_elem_of _ _ m Hvalid
                ltac:(apply list_elem_of_lookup; eauto)) as Hm'.
  destruct (decide (m = [])) as [->|Hne]; [by vm_compute|].
  pose proof (forallb_elem_of _ _ _ Hm' (jget_elem_of [] m p Hne)) as Hrow.
  destruct (decide (jget [] m p = [])) as [->|Hne']; [by vm_compute|].
  pose proof (forallb_elem_of _ _ _ Hrow
                (jget_elem_of 0 (jget [] m p) a Hne')) as He.
  by apply Z.leb_le in He.
Qed.

Lemma elem_of_insert_negative (l : list Z) n d v x :
  l !! n = Some d -> d < 0 ->
  (0 <= x /\ x ∈ <[n := v]> l) <-> (0 <= x /\ (x = v \/ x ∈ l)).
Proof.
  intros Hn Hd. split; intros [Hx Hin]; (split; [done|]).
  - apply list_elem_of_lookup in Hin as [k Hk].
    apply list_lookup_insert_Some in Hk as [(_ & <- & _)|[_ Hk]]; [by left|].
    right. apply list_elem_of_lookup. eauto.
  - apply list_elem_of_lookup. destruct Hin as [->|Hin].
    + exists n. apply list_lookup_insert_eq. by eapply lookup_lt_Some.
    + apply list_elem_of_lookup in Hin as [k Hk]. exists k.
      rewrite list_lookup_insert_ne; [done|]. intros <-.
      rewrite Hn in Hk. injection Hk as <-. lia.
Qed.

Section Arbitration.
Variable num_agents : nat.
Variables action nodes : list Z.
Hypothesis Haction : length action = num_agents.
Hypothesis Hnodes : length nodes = num_agents.
Hypothesis Hvalid : forall x, x ∈ nodes -> EMPTY_EDGE <= x.

Lemma arbitration_rel_step a p st granted outcomes :
  0 <= a < Z.of_nat num_agents ->
  a ∉ p ->
  (forall b, b ∈ p -> 0 <= b) ->
  arbitration_rel num_agents action (a :: p) st granted outcomes ->
  exists granted' outcomes',
    spec_arbitrate nodes (Z.to_nat a :: (Z.to_nat <$> p)) granted outcomes
    = spec_arbitrate nodes (Z.to_nat <$> p) granted' outcomes'
    /\ arbitration_rel num_agents action p
         (tie_break_step action nodes st a) granted' outcomes'.
Proof.
  intros Ha Hap Hp (Hl1 & Hl2 & Hgr & Hdummy & Hpending & Hdone).
  set (n := Z.to_nat a).
  assert (n < num_agents)%nat as Hn by lia.
  assert (Z.of_nat n = a) as Hna by lia.
  pose proof (in_bounds_range num_agents a Ha) as Hib. fold n in Hib.
  destruct (lookup_lt_is_Some_2 nodes n ltac:(lia)) as [nd Hnd].
  destruct (lookup_lt_is_Some_2 action n ltac:(lia)) as [req Hreq].
  assert (jget 0 nodes a = nd) as Hjn.
  { rewrite <- Hna. by apply jget_of_nat. }
  assert (jget 0 action a = req) as Hja.
  { rewrite <- Hna. by apply jget_of_nat. }
  assert (st.2 !! n = Some DUMMY_NODE) as Hdn.
  { apply Hdummy. apply list_elem_of_here. }
  assert (forall b, b ∈ p -> Z.to_nat b <> n) as Hother.
  { intros b Hb Heq. apply Hap. specialize (Hp b Hb).
    replace a with b by lia. done. }
  assert (forall i, (i < num_agents)%nat -> i <> n ->
            (Z.of_nat i ∈ a :: p <-> Z.of_nat i ∈ p)) as Hmem.
  { intros i Hi Hin. rewrite elem_of_cons. split; [|by right].
    intros [Heq|?]; [lia | done]. }
  assert (Z.of_nat n ∉ p) as Hnp by by rewrite Hna.
  cbn [spec_arbitrate]. fold n. rewrite Hnd.
  unfold tie_break_step. rewrite lax_switch4, Hjn, Hja, count_eq_zero_b.
  unfold jset. rewrite Hl1, Hl2, Hib.
  destruct (Z.eqb_spec nd EMPTY_NODE) as [Hinv|Hinv].
  - (* unresolved request *)
    exists granted, (<[n := InvalidChoice]> outcomes). split; [done|].
    assert ((if bool_decide (nd ∉ st.2)
             then (st.1, st.2) else (st.1, st.2)) = st) as ->.
    { destruct st. by destruct (bool_decide _). }
    unfold arbitration_rel. split_and!; try done.
    + intros b Hb. apply Hdummy. by apply list_elem_of_further.
    + intros i Hi Hip. apply Hpending; [done|]. by apply list_elem_of_further.
    + intros i Hi Hip. destruct (decide (i = n)) as [->|Hin].
      * exists InvalidChoice, req. rewrite lookup_insert_eq.
        split_and!; [done | done |]. apply Hpending; [done|].
        rewrite Hna. apply list_elem_of_here.
      * rewrite lookup_insert_ne by done. apply Hdone; [done|].
        by rewrite Hmem.
  - assert (0 <= nd) as Hpos.
    { pose proof (Hvalid nd ltac:(apply list_elem_of_lookup; eauto)).
      unfold EMPTY_EDGE, EMPTY_NODE in *. lia. }
    assert (nd ∈ granted <-> nd ∈ st.2) as Hgnd.
    { rewrite Hgr. tauto. }
    destruct (decide (nd ∈ st.2)) as [Hsel|Hsel].
    + (* destination already granted *)
      rewrite (bool_decide_eq_false_2 (nd ∉ st.2))
        by (intros Hc; by apply Hc).
      rewrite (bool_decide_eq_true_2 (nd ∈ granted)) by (by apply Hgnd).
      exists granted, (<[n := TieBreakLost]> outcomes). split; [done|].
      unfold arbitration_rel. cbn [fst snd]. rewrite !length_insert.
      split_and!; try done.
      * intros x.
        rewrite (elem_of_insert_negative st.2 n DUMMY_NODE) by done.
        rewrite Hgr. unfold INVALID_TIE_BREAK.
        split; [intros [? ?]; split; [done | by right]|].
        intros [? [->|?]]; [lia | done].
      * intros b Hb.
        rewrite list_lookup_insert_ne by (symmetry; by apply Hother).
        apply Hdummy. by apply list_elem_of_further.
      * intros i Hi Hip. rewrite list_lookup_insert_ne by congruence.
        apply Hpending; [done|]. by apply list_elem_of_further.
      * intros i Hi Hip. destruct (decide (i = n)) as [->|Hin].
        -- exists TieBreakLost, req. rewrite lookup_insert_eq.
           split_and!; [done | done |]. apply list_lookup_insert_eq. lia.
        -- rewrite lookup_insert_ne by done.
           rewrite list_lookup_insert_ne by done.
           apply Hdone; [done|]. by rewrite Hmem.
    + (* destination granted now *)
      rewrite (bool_decide_eq_true_2 (nd ∉ st.2)) by done.
      rewrite (bool_decide_eq_false_2 (nd ∈ granted)) by (by rewrite Hgnd).
      exists ({[nd]} ∪ granted), (<[n := Accepted nd]> outcomes).
      split; [done|].
      unfold arbitration_rel. cbn [fst snd]. rewrite !length_insert.
      split_and!; try done.
      * intros x.
        rewrite (elem_of_insert_negative st.2 n DUMMY_NODE) by done.
        rewrite elem_of_union, elem_of_singleton, Hgr.
        split.
        -- intros [->|[? ?]]; (split; [done|]); [by left | by right].
        -- intros [? [->|?]]; [by left | by right].
      * intros b Hb.
        rewrite list_lookup_insert_ne by (symmetry; by apply Hother).
        apply Hdummy. by apply list_elem_of_further.
      * intros i Hi Hip. rewrite list_lookup_insert_ne by congruence.
        apply Hpending; [done|]. by apply list_elem_of_further.
      * intros i Hi Hip. destruct (decide (i = n)) as [->|Hin].
        -- exists (Accepted nd), req. rewrite lookup_insert_eq.
           split_and!; [done | done |]. apply list_lookup_insert_eq. lia.
        -- rewrite lookup_insert_ne by done.
           rewrite list_lookup_insert_ne by done.
           apply Hdone; [done|]. by rewrite Hmem.
Qed.

Lemma arbitration_rel_fold p st granted outcomes :
  NoDup p ->
  (forall a, a ∈ p -> 0 <= a < Z.of_nat num_agents) ->
  arbitration_rel num_agents action p st granted outcomes ->
  arbitration_rel num_agents action []
    (fold_left (tie_break_step action nodes) p st)
    (spec_arbitrate nodes (Z.to_nat <$> p) granted outcomes).1
    (spec_arbitrate nodes (Z.to_nat <$> p) granted outcomes).2.
Proof.
  intros Hnd. revert st granted outcomes.
  induction Hnd as [|a p Hap Hnd IH]; intros st granted outcomes Hrange Hrel.
  { done. }
  destruct (arbitration_rel_step a p st granted outcomes)
    as (granted' & outcomes' & Heq & Hrel'); [| done | | done |].
  - apply Hrange, list_elem_of_here.
  - intros b Hb. by apply Hrange, list_elem_of_further.
  - rewrite fmap_cons, Heq. cbn [fold_left]. apply IH; [|done].
    intros b Hb. by apply Hrange, list_elem_of_further.
Qed.

Lemma arbitration_rel_init p :
  (forall a, a ∈ p -> 0 <= a < Z.of_nat num_agents) ->
  (forall i, (i < num_agents)%nat -> Z.of_nat i ∈ p) ->
  arbitration_rel num_agents action p
    (replicate (length action) INVALID_CHOICE,
     replicate num_agents DUMMY_NODE) ∅ ∅.
Proof using Haction.
  clear Hnodes Hvalid.
  intros Hrange Hall. unfold arbitration_rel. cbn [fst snd].
  rewrite !length_replicate. split_and!; try done.
  - intros x. split; [by intros ?%not_elem_of_empty|].
    intros [Hx Hin]. apply elem_of_replicate in Hin as [-> _].
    unfold DUMMY_NODE in Hx. lia.
  - intros a Ha. apply lookup_replicate_2. specialize (Hrange a Ha). lia.
  - intros i Hi _. apply lookup_replicate_2. lia.
  - intros i Hi Hnot. exfalso. by apply Hnot, Hall.
Qed.

End Arbitration.

Lemma elem_of_arange n a : a ∈ arange n <-> 0 <= a < Z.of_nat n.
Proof.
  unfold arange. rewrite list_elem_of_fmap. split.
  - intros (k & -> & Hk). apply elem_of_seq in Hk. lia.
  - intros Ha. exists (Z.to_nat a). split; [lia|]. apply elem_of_seq. lia.
Qed.

Lemma NoDup_arange n : NoDup (arange n).
Proof.
  unfold arange. apply NoDup_fmap_2; [|apply NoDup_seq].
  intros x y Hxy. lia.
Qed.

(** C2.  One permutation of the agent indices is drawn for the step, and the
    loop examines every agent once, in that order.  Its result is the
    protocol of the specification run over the same order with a set of
    granted nodes: the nodes recorded in [added_nodes] are the granted set,
    an agent whose destination was not yet granted keeps its requested
    index (accepted), an agent whose destination was granted to an earlier
    agent gets [INVALID_TIE_BREAK], and an unresolved request stays
    [INVALID_CHOICE].  For an unfinished agent whose destination is not in
    its [connected_nodes_index], that code is also the final action. *)
Theorem tie_break_loop_refines_arbitration {Key} `{JaxRandom Key}
    (self : CoopMinSpanTree Key) (state : State Key) (action : list Z)
    (step_key : Key) :
  let nodes := resolve_nodes state action in
  let agent_permutation :=
    random_permutation step_key (arange (num_agents self)) in
  let arg := tie_break_loop self action nodes agent_permutation in
  let spec := spec_arbitrate nodes (Z.to_nat <$> agent_permutation) ∅ ∅ in
  let final :=
    (_trim_duplicated_invalid_actions self state action step_key).1 in
  well_shaped self state = true ->
  edges_valid state = true ->
  length action = num_agents self ->
  Permutation agent_permutation (arange (num_agents self))
  /\ not_all_agents_actions_examined self arg = false
  /\ (forall x, x ∈ spec.1 <-> 0 <= x /\ x ∈ la_added_nodes arg)
  /\ (forall i, (i < num_agents self)%nat ->
        exists o req,
          spec.2 !! i = Some o /\ action !! i = Some req /\
          la_new_actions arg !! i = Some (outcome_code req o) /\
          (finished_agents state !! i = Some false ->
           jget 0 (jget [] (connected_nodes_index state) (Z.of_nat i))
             (jget 0 nodes (Z.of_nat i)) = EMPTY_NODE ->
           final !! i = Some (outcome_code req o))).
Proof.
  intros nodes agent_permutation arg spec final Hws Hvalid Ha.
  pose proof (random_permutation_perm step_key (arange (num_agents self)))
    as Hperm. fold agent_permutation in Hperm.
  pose proof (well_shaped_lengths self state Hws)
    as (He & Hp & _ & _ & _ & _ & Hf).
  pose proof (length_resolve_nodes state action _ He Hp Ha) as Hn.
  fold nodes in Hn.
  assert (length agent_permutation = num_agents self) as Hlen.
  { by rewrite (Permutation_length Hperm), length_arange. }
  assert (forall a, a ∈ agent_permutation ->
                    0 <= a < Z.of_nat (num_agents self)) as Hrange.
  { intros a Hin. apply elem_of_arange. by rewrite <- Hperm. }
  assert (forall i, (i < num_agents self)%nat ->
                    Z.of_nat i ∈ agent_permutation) as Hall.
  { intros i Hi. rewrite Hperm. apply elem_of_arange. lia. }
  assert (NoDup agent_permutation) as Hnd.
  { rewrite Hperm. apply NoDup_arange. }
  assert (arbitration_rel (num_agents self) action []
            (tie_break_result (num_agents self) action nodes
               agent_permutation) spec.1 spec.2)
    as (_ & _ & Hgr & _ & _ & Hdone).
  { apply arbitration_rel_fold; try done.
    - intros x Hx. by apply (resolve_nodes_valid state action).
    - by apply arbitration_rel_init. }
  assert (arg = loop_carry action nodes agent_permutation (num_agents self)
                  (tie_break_result (num_agents self) action nodes
                     agent_permutation)) as Harg.
  { by apply tie_break_loop_fold. }
  split_and!.
  - done.
  - by apply tie_break_loop_exits.
  - intros x. rewrite Harg. apply Hgr.
  - intros i Hi.
    destruct (Hdone i Hi ltac:(apply not_elem_of_nil))
      as (o & req & Ho & Hreq & Hnew).
    exists o, req. rewrite Harg. split_and!; [done..|].
    intros Hfin Hvis. subst final.
    rewrite (trim_final_lookup self state action step_key i false Ha Hi Hfin).
    f_equal. unfold finish_mask, masked_action, mask_visited_nodes.
    fold nodes agent_permutation. rewrite Hvis, Z.eqb_refl. cbn.
    unfold tie_break_result. rewrite (jget_of_nat _ _ _ _ Hnew). lia.
Qed.

Lemma tie_break_loop_refines_arbitration_witness :
  let self := demo_env 3 in
  let state := (demo_run 3 0 []).1 in
  let action := [4; 4] in
  let nodes := resolve_nodes state action in
  let agent_permutation := random_permutation 1%nat (arange (num_agents self)) in
  let arg := tie_break_loop self action nodes agent_permutation in
  let spec := spec_arbitrate nodes (Z.to_nat <$> agent_permutation) ∅ ∅ in
  let final :=
    (_trim_duplicated_invalid_actions self state action 1%nat).1 in
  Permutation agent_permutation (arange (num_agents self))
  /\ not_all_agents_actions_examined self arg = false
  /\ (forall x, x ∈ spec.1 <-> 0 <= x /\ x ∈ la_added_nodes arg)
  /\ (forall i, (i < num_agents self)%nat ->
        exists o req,
          spec.2 !! i = Some o /\ action !! i = Some req /\
          la_new_actions arg !! i = Some (outcome_code req o) /\
          (finished_agents state !! i = Some false ->
           jget 0 (jget [] (connected_nodes_index state) (Z.of_nat i))
             (jget 0 nodes (Z.of_nat i)) = EMPTY_NODE ->
           final !! i = Some (outcome_code req o))).
Proof.
  apply (tie_break_loop_refines_arbitration (demo_env 3)
           (demo_run 3 0 []).1 [4; 4] 1%nat).
  - reflexivity.
  - reflexivity.
  - reflexivity.
Defined.

(** The scenario of the specification: both agents request utility node 4
    and the permutation is [1; 0].  Agent 1 is accepted, agent 0 loses the
    tie-break; when agent 0 requests node 4 again on the next step, the edge
    is gone from its view and the outcome is [INVALID_CHOICE]. *)
Example two_agents_one_utility_node :
  let s := (demo_run 3 0 []).1 in
  let s' := (step (demo_env 3) s [4; 4]).1 in
  random_permutation (random_split (key s)).2 (arange 2) = [1; 0]
  /\ _trim_duplicated_invalid_actions (demo_env 3) s [4; 4]
       (random_split (key s)).2
     = ([INVALID_TIE_BREAK; 4], [4; 4])
  /\ positions s' = [0; 4]
  /\ (_trim_duplicated_invalid_actions (demo_env 3) s' [4; 4]
        (random_split (key s')).2).1 !! 0%nat = Some INVALID_CHOICE.
Proof. vm_compute. done. Qed.

Lemma no_double_grant_witness :
  let r :=
    _trim_duplicated_invalid_actions (demo_env 3) (demo_run 3 0 []).1
      [4; 5] 1%nat in
  r = ([4; 5], [4; 5]) /\ (4 : Z) <> 5.
Proof.
  split; [reflexivity|].
  apply (no_double_grant (demo_env 3) (demo_run 3 0 []).1 [4; 5] 1%nat
           0 1 4 5 4 5).
  - reflexivity.
  - reflexivity.
  - lia.
  - reflexivity.
  - lia.
  - reflexivity.
  - lia.
  - reflexivity.
  - reflexivity.
Defined.

(** ** The hypotheses along a run

    [well_shaped] is kept by [step] ([step_well_shaped]); so is the edge
    encoding, since a mask leaves an entry alone or empties it. *)

Lemma edges_valid_spec {Key} (state : State Key) :
  edges_valid state = true <->
  forall a v c e, edge_at (node_edges state) a v c = Some e -> EMPTY_EDGE <= e.
Proof.
  unfold edges_valid, edge_at. split.
  - intros Hvalid a v c e He.
    destruct (node_edges state !! a) as [m|] eqn:Hm; [|done]. cbn in He.
    destruct (m !! v) as [row|] eqn:Hrow; [|done]. cbn in He.
    pose proof (forallb_elem_of _ _ m Hvalid
                  ltac:(apply list_elem_of_lookup; eauto)) as Hm'.
    pose proof (forallb_elem_of _ _ row Hm'
                  ltac:(apply list_elem_of_lookup; eauto)) as Hrow'.
    pose proof (forallb_elem_of _ _ e Hrow'
                  ltac:(apply list_elem_of_lookup; eauto)) as He'.
    by apply Z.leb_le in He'.
  - intros Hall. apply forallb_forall. intros m Hm.
    apply list_elem_of_In, list_elem_of_lookup in Hm as [a Ha].
    apply forallb_forall. intros row Hrow.
    apply list_elem_of_In, list_elem_of_lookup in Hrow as [v Hv].
    apply forallb_forall. intros e He.
    apply list_elem_of_In, list_elem_of_lookup in He as [c Hc].
    apply Z.leb_le. apply (Hall a v c). rewrite Ha. cbn. rewrite Hv. done.
Qed.

Lemma step_edges_valid {Key} `{JaxRandom Key} (self : CoopMinSpanTree Key)
    (state : State Key) (action : list Z) :
  edges_valid state = true ->
  edges_valid (step self state action).1 = true.
Proof.
  rewrite !edges_valid_spec. intros Hvalid a v c e.
  destruct (step_unfold self state action)
    as (_ & _ & _ & _ & _ & _ & _ & -> & _).
  destruct (Nat.lt_ge_cases a (num_agents self)) as [Ha|Ha].
  - rewrite edge_at_update_active_edges by done.
    destruct (edge_at (node_edges state) a v c) as [e0|] eqn:He0; [|done].
    cbn. intros [= <-].
    match goal with
    | |- _ <= apply_masks ?ps ?x =>
        destruct (apply_masks_cases ps x) as [-> | ->]; [|done]
    end.
    by apply (Hvalid a v c).
  - rewrite edge_at_update_active_edges_ge by done. apply Hvalid.
Qed.

(** * Further properties of the step engine *)

(** ** The final action codes *)

Lemma tie_break_codes_step (action nodes : list Z) st agent_i :
  length st.1 = length action ->
  (forall i x, st.1 !! i = Some x ->
     x = INVALID_CHOICE \/ x = INVALID_TIE_BREAK \/ action !! i = Some x) ->
  forall i x, (tie_break_step action nodes st agent_i).1 !! i = Some x ->
    x = INVALID_CHOICE \/ x = INVALID_TIE_BREAK \/ action !! i = Some x.
Proof.
  intros Hlen Hst i x. unfold tie_break_step. rewrite lax_switch4.
  destruct (jget 0 nodes agent_i =? EMPTY_NODE);
    destruct (count_eq (jget 0 nodes agent_i) st.2 =? 0);
    cbn [fst]; try apply Hst.
  all: unfold jset;
    destruct (in_bounds (length st.1) agent_i) as [n|] eqn:Hn;
    [|apply Hst];
    intros [(-> & <- & _)|[_ Hx]]%list_lookup_insert_Some;
    [|by apply Hst].
  - right; right. rewrite Hlen in Hn. by apply jget_in_bounds.
  - by right; left.
Qed.

Lemma tie_break_codes_result (num_agents : nat) (action nodes perm : list Z) i x :
  (tie_break_result num_agents action nodes perm).1 !! i = Some x ->
  x = INVALID_CHOICE \/ x = INVALID_TIE_BREAK \/ action !! i = Some x.
Proof.
  unfold tie_break_result.
  assert (length (replicate (length action) INVALID_CHOICE,
                  replicate num_agents DUMMY_NODE).1 = length action) as Hl.
  { cbn [fst]. by rewrite length_replicate. }
  assert (forall k y,
            (replicate (length action) INVALID_CHOICE,
             replicate num_agents DUMMY_NODE).1 !! k = Some y ->
            y = INVALID_CHOICE \/ y = INVALID_TIE_BREAK
            \/ action !! k = Some y) as Hinit.
  { intros k y Hy. cbn [fst] in Hy. apply lookup_replicate in Hy as [-> _].
    by left. }
  revert Hl Hinit i x.
  generalize (replicate (length action) INVALID_CHOICE,
              replicate num_agents DUMMY_NODE).
  induction perm as [|a perm IH]; intros st Hl Hst i x; cbn [fold_left].
  { apply Hst. }
  apply IH.
  - by rewrite length_tie_break_step.
  - by apply tie_break_codes_step.
Qed.

(** X1.  The final action of an agent is never a new index: it is the index
    the agent requested, or one of the three negative codes. *)
Theorem final_action_is_request_or_code {Key} `{JaxRandom Key}
    (self : CoopMinSpanTree Key) (state : State Key) (action : list Z)
    (step_key : Key) (i : nat) (c : Z) :
  well_shaped self state = true ->
  length action = num_agents self ->
  (_trim_duplicated_invalid_actions self state action step_key).1 !! i
    = Some c ->
  c = INVALID_CHOICE \/ c = INVALID_TIE_BREAK
  \/ c = INVALID_ALREADY_TRAVERSED \/ action !! i = Some c.
Proof.
  intros Hws Ha Hc.
  pose proof (well_shaped_lengths self state Hws) as (_ & _ & _ & _ & _ & _ & Hf).
  assert (i < num_agents self)%nat as Hi.
  { apply lookup_lt_Some in Hc. rewrite trim_unfold in Hc. cbn [fst] in Hc.
    rewrite length_zip_with in Hc. lia. }
  destruct (lookup_lt_is_Some_2 (finished_agents state) i ltac:(lia))
    as [f Hfi].
  rewrite (trim_final_lookup self state action step_key i f Ha Hi Hfi) in Hc.
  injection Hc as <-. destruct f.
  { left. apply finish_mask_true. }
  assert (forall a, finish_mask a false = a) as ->.
  { intros a. unfold finish_mask. simpl. lia. }
  unfold masked_action, mask_visited_nodes. destruct (negb _).
  { by right; right; left. }
  destruct (lookup_lt_is_Some_2
              (tie_break_result (num_agents self) action
                 (resolve_nodes state action)
                 (random_permutation step_key (arange (num_agents self)))).1
              i) as [x Hx].
  { by rewrite length_tie_break_result, Ha. }
  rewrite (jget_of_nat _ _ _ _ Hx).
  destruct (tie_break_codes_result _ _ _ _ _ _ Hx) as [->|[->|Hreq]]; auto.
Qed.

Lemma final_action_is_request_or_code_witness :
  (7 : Z) = INVALID_CHOICE \/ (7 : Z) = INVALID_TIE_BREAK
  \/ (7 : Z) = INVALID_ALREADY_TRAVERSED \/ [7; 0] !! 0%nat = Some (7 : Z).
Proof.
  apply (final_action_is_request_or_code (demo_env 3) (demo_run 3 0 []).1
           [7; 0] 1%nat 0 7).
  - reflexivity.
  - reflexivity.
  - reflexivity.
Defined.

(** ** Which agents move *)

Lemma accepted_is_resolved {Key} `{JaxRandom Key}
    (self : CoopMinSpanTree Key) (state : State Key) (action : list Z)
    (step_key : Key) (i : nat) (a : Z) :
  well_shaped self state = true ->
  length action = num_agents self ->
  (_trim_duplicated_invalid_actions self state action step_key).1 !! i
    = Some a ->
  0 <= a ->
  exists n, resolve_nodes state action !! i = Some n /\ n <> EMPTY_NODE.
Proof.
  intros Hws Ha Hfinal Hpos.
  pose proof (well_shaped_lengths self state Hws)
    as (He & Hp & _ & _ & _ & _ & Hf).
  pose proof (length_resolve_nodes state action _ He Hp Ha) as Hn.
  assert (i < num_agents self)%nat as Hi.
  { apply lookup_lt_Some in Hfinal. rewrite trim_unfold in Hfinal.
    cbn [fst] in Hfinal. rewrite length_zip_with in Hfinal. lia. }
  destruct (lookup_lt_is_Some_2 (resolve_nodes state action) i ltac:(lia))
    as [n Hni].
  exists n. split; [done|]. intros ->.
  destruct (lookup_lt_is_Some_2 (finished_agents state) i ltac:(lia))
    as [f Hfi].
  rewrite (trim_final_lookup self state action step_key i f Ha Hi Hfi)
    in Hfinal.
  injection Hfinal as <-.
  apply finish_mask_nonneg in Hpos as Hfm. destruct Hfm as [-> Hfm].
  rewrite Hfm in Hpos. rewrite masked_action_nonneg in Hpos by done.
  rewrite (jget_of_nat 0 _ i INVALID_CHOICE) in Hpos.
  - unfold INVALID_CHOICE in Hpos. lia.
  - apply unresolved_result; [lia | done].
Qed.

(** X2.  An accepted agent (non-negative final action) advances: its
    request resolved to a node of its view, its position becomes that node
    and its [position_index] grows by one.  When the node is a valid index
    of its [connected_nodes_index] row, that entry is set to the node; when
    slot [position_index + 1] lies inside its [connected_nodes] row, the
    node is written to that slot and nothing else in the row changes. *)
Theorem accepted_agent_advances {Key} `{JaxRandom Key}
    (self : CoopMinSpanTree Key) (state : State Key) (action : list Z)
    (i : nat) (a : Z) (row irow : list Z) (index : Z) :
  let r :=
    _trim_duplicated_invalid_actions self state action
      (random_split (key state)).2 in
  let s' := (step self state action).1 in
  well_shaped self state = true ->
  length action = num_agents self ->
  r.1 !! i = Some a ->
  0 <= a ->
  connected_nodes state !! i = Some row ->
  connected_nodes_index state !! i = Some irow ->
  position_index state !! i = Some index ->
  exists n row' irow',
    r.2 !! i = Some n /\ n <> EMPTY_NODE
    /\ positions s' !! i = Some n
    /\ position_index s' !! i = Some (index + 1)
    /\ connected_nodes_index s' !! i = Some irow'
    /\ (0 <= n < Z.of_nat (length irow) ->
        irow' = <[Z.to_nat n := n]> irow)
    /\ connected_nodes s' !! i = Some row'
    /\ length row' = length row
    /\ (0 <= index + 1 < Z.of_nat (length row) ->
        row' !! Z.to_nat (index + 1) = Some n
        /\ row' = <[Z.to_nat (index + 1) := n]> row).
Proof.
  intros r s' Hws Ha Hfinal Hpos Hrow Hirow Hidx. subst r s'.
  destruct (accepted_is_resolved self state action _ i a Hws Ha Hfinal Hpos)
    as (n & Hn & Hne).
  assert (i < num_agents self)%nat as Hi.
  { apply lookup_lt_Some in Hn.
    pose proof (well_shaped_lengths self state Hws) as (He & Hp & _).
    rewrite (length_resolve_nodes state action _ He Hp Ha) in Hn. done. }
  pose proof (jget_of_nat 0 _ _ _ Hfinal) as Hact.
  pose proof (next_node self state action i n Hn) as Hnode.
  destruct (step_move self state action Hws i Hi) as (Hcn & Hci & Hp & Hpi).
  - rewrite Hact. unfold INVALID_CHOICE. lia.
  - rewrite Hact. unfold INVALID_TIE_BREAK. lia.
  - by rewrite Hnode.
  - rewrite Hnode in Hcn, Hci, Hp.
    rewrite (jget_of_nat _ _ _ _ Hrow), (jget_of_nat _ _ _ _ Hidx) in Hcn.
    rewrite (jget_of_nat _ _ _ _ Hirow) in Hci.
    rewrite (jget_of_nat _ _ _ _ Hidx) in Hpi.
    exists n. eexists. eexists. rewrite trim_nodes.
    split_and!; [done | done | done | done | exact Hci | | exact Hcn
                 | apply length_jset |].
    + intros Hin. by apply jset_in_range.
    + intros Hin. rewrite (jset_in_range row (index + 1) n Hin).
      split; [|done]. apply list_lookup_insert_eq. lia.
Qed.

Lemma accepted_agent_advances_witness :
  let s := (demo_run 3 0 []).1 in
  let r :=
    _trim_duplicated_invalid_actions (demo_env 3) s [4; 0]
      (random_split (key s)).2 in
  let s' := (step (demo_env 3) s [4; 0]).1 in
  exists n row' irow',
    r.2 !! 0%nat = Some n /\ n <> EMPTY_NODE
    /\ positions s' !! 0%nat = Some n
    /\ position_index s' !! 0%nat = Some (0 + 1)
    /\ connected_nodes_index s' !! 0%nat = Some irow'
    /\ (0 <= n < Z.of_nat (length [0; -1; -1; -1; -1; -1]) ->
        irow' = <[Z.to_nat n := n]> [0; -1; -1; -1; -1; -1])
    /\ connected_nodes s' !! 0%nat = Some row'
    /\ length row' = length [0; -1; -1]
    /\ (0 <= 0 + 1 < Z.of_nat (length [0; -1; -1]) ->
        row' !! Z.to_nat (0 + 1) = Some n
        /\ row' = <[Z.to_nat (0 + 1) := n]> [0; -1; -1]).
Proof.
  apply (accepted_agent_advances (demo_env 3) (demo_run 3 0 []).1 [4; 0] 0 4
           [0; -1; -1] [0; -1; -1; -1; -1; -1] 0).
  - reflexivity.
  - reflexivity.
  - reflexivity.
  - lia.
  - reflexivity.
  - reflexivity.
  - reflexivity.
Defined.

(** X3.  An agent whose final action is [INVALID_CHOICE] or
    [INVALID_TIE_BREAK] is left as it was: position, [connected_nodes],
    [connected_nodes_index] and [position_index] are unchanged. *)
Theorem rejected_agent_stays {Key} `{JaxRandom Key}
    (self : CoopMinSpanTree Key) (state : State Key) (action : list Z)
    (i : nat) (c : Z) :
  let r :=
    _trim_duplicated_invalid_actions self state action
      (random_split (key state)).2 in
  let s' := (step self state action).1 in
  well_shaped self state = true ->
  length action = num_agents self ->
  r.1 !! i = Some c ->
  c = INVALID_CHOICE \/ c = INVALID_TIE_BREAK ->
  positions s' !! i = positions state !! i
  /\ connected_nodes s' !! i = connected_nodes state !! i
  /\ connected_nodes_index s' !! i = connected_nodes_index state !! i
  /\ position_index s' !! i = position_index state !! i.
Proof.
  intros r s' Hws Ha Hfinal Hc. subst r s'.
  pose proof (well_shaped_lengths self state Hws) as (_ & _ & _ & _ & _ & _ & Hf).
  assert (i < num_agents self)%nat as Hi.
  { apply lookup_lt_Some in Hfinal. rewrite trim_unfold in Hfinal.
    cbn [fst] in Hfinal. rewrite length_zip_with in Hfinal. lia. }
  pose proof (jget_of_nat 0 _ _ _ Hfinal) as Hact.
  destruct (step_stay self state action Hws Ha i Hi) as (? & ? & ? & ?).
  { rewrite Hact. destruct Hc; [by left | by right; left]. }
  done.
Qed.

Lemma rejected_agent_stays_witness :
  let s := (demo_run 3 0 []).1 in
  let s' := (step (demo_env 3) s [4; 4]).1 in
  positions s' !! 0%nat = positions s !! 0%nat
  /\ connected_nodes s' !! 0%nat = connected_nodes s !! 0%nat
  /\ connected_nodes_index s' !! 0%nat = connected_nodes_index s !! 0%nat
  /\ position_index s' !! 0%nat = position_index s !! 0%nat.
Proof.
  apply (rejected_agent_stays (demo_env 3) (demo_run 3 0 []).1 [4; 4] 0
           INVALID_TIE_BREAK).
  - reflexivity.
  - reflexivity.
  - reflexivity.
  - by right.
Defined.

Lemma agent_result_cases {Key} (state : State Key) (action next_nodes : list Z)
    (i : nat) :
  agent_result state action next_nodes i
  = (jget [] (connected_nodes state) (Z.of_nat i),
     jget [] (connected_nodes_index state) (Z.of_nat i),
     jget 0 (positions state) (Z.of_nat i),
     jget 0 (position_index state) (Z.of_nat i))
  \/ (jget 0 next_nodes (Z.of_nat i) <> INVALID_NODE
      /\ agent_result state action next_nodes i
         = _update_conected_nodes
             (jget [] (connected_nodes state) (Z.of_nat i))
             (jget [] (connected_nodes_index state) (Z.of_nat i))
             (jget 0 next_nodes (Z.of_nat i))
             (jget 0 (position_index state) (Z.of_nat i))).
Proof.
  unfold agent_result, step_agent_fn.
  destruct (Z.eqb_spec (jget 0 next_nodes (Z.of_nat i)) INVALID_NODE);
    [left; by rewrite andb_false_r|].
  destruct (_ =? 0); [right | left]; done.
Qed.

Lemma jset_lookup_ne {A} (l : list A) z v (k : nat) :
  0 <= z -> Z.of_nat k <> z -> jset l z v !! k = l !! k.
Proof.
  intros Hz Hk. unfold jset.
  destruct (in_bounds (length l) z) as [n|] eqn:Hn; [|done].
  rewrite list_lookup_insert_ne; [done|].
  unfold in_bounds, normalize_index in Hn.
  destruct (Z.ltb_spec z 0); [lia|].
  destruct ((0 <=? z) && (z <? Z.of_nat (length l))); [|done].
  injection Hn as <-. lia.
Qed.

Lemma jset_lookup_cases {A} (l : list A) z v (k : nat) x :
  l !! k = Some x ->
  jset l z v !! k = Some v \/ jset l z v !! k = Some x.
Proof.
  intros Hx. unfold jset. destruct (in_bounds (length l) z) as [n|]; [|by right].
  destruct (decide (n = k)) as [->|Hne].
  - left. apply list_lookup_insert_eq. by eapply lookup_lt_Some.
  - right. by rewrite list_lookup_insert_ne.
Qed.

(** ** Moves follow the agent's own view *)

(** X4.  After a step an agent is where it was, or on the node that its own
    view holds at (its position, its requested index), and that entry is not
    the empty edge.  No other move exists. *)
Theorem step_moves_along_own_view {Key} `{JaxRandom Key}
    (self : CoopMinSpanTree Key) (state : State Key) (action : list Z)
    (i : nat) (view : list (list Z)) (p c : Z) :
  let s' := (step self state action).1 in
  well_shaped self state = true ->
  length action = num_agents self ->
  node_edges state !! i = Some view ->
  positions state !! i = Some p ->
  action !! i = Some c ->
  positions s' !! i = Some p
  \/ (positions s' !! i = Some (_get_agent_node view p c)
      /\ _get_agent_node view p c <> EMPTY_EDGE).
Proof.
  intros s' Hws Ha Hv Hp Hc. subst s'.
  assert (i < num_agents self)%nat as Hi.
  { apply lookup_lt_Some in Hc. lia. }
  pose proof (resolve_nodes_lookup state action i view p c Hv Hp Hc) as Hn.
  destruct (step_lookup self state action Hws i Hi) as (_ & _ & -> & _).
  destruct (agent_result_cases state
              (_trim_duplicated_invalid_actions self state action
                 (random_split (key state)).2).1
              (_trim_duplicated_invalid_actions self state action
                 (random_split (key state)).2).2 i) as [-> | [Hne ->]].
  - left. cbn. f_equal. by apply jget_of_nat.
  - right. rewrite (next_node self state action i _ Hn) in Hne |- *.
    split; [done|]. exact Hne.
Qed.

Lemma step_moves_along_own_view_witness :
  let s := (demo_run 3 0 []).1 in
  let s' := (step (demo_env 3) s [4; 0]).1 in
  positions s' !! 0%nat = Some 0
  \/ (positions s' !! 0%nat = Some (_get_agent_node demo_node_edges 0 4)
      /\ _get_agent_node demo_node_edges 0 4 <> EMPTY_EDGE).
Proof.
  apply (step_moves_along_own_view (demo_env 3) (demo_run 3 0 []).1 [4; 0]
           0 demo_node_edges 0 4).
  - reflexivity.
  - reflexivity.
  - reflexivity.
  - reflexivity.
  - reflexivity.
Defined.

(** ** The visit record only grows *)

(** X5.  [connected_nodes] is append-only: a step keeps the length of an
    agent's row and changes no slot other than slot [position_index + 1];
    [position_index] stays or grows by one. *)
Theorem connected_nodes_append_only {Key} `{JaxRandom Key}
    (self : CoopMinSpanTree Key) (state : State Key) (action : list Z)
    (i : nat) (row : list Z) (index : Z) :
  let s' := (step self state action).1 in
  well_shaped self state = true ->
  connected_nodes state !! i = Some row ->
  position_index state !! i = Some index ->
  0 <= index ->
  exists row',
    connected_nodes s' !! i = Some row'
    /\ length row' = length row
    /\ (forall k : nat, Z.of_nat k <> index + 1 -> row' !! k = row !! k)
    /\ (position_index s' !! i = Some index
        \/ position_index s' !! i = Some (index + 1)).
Proof.
  intros s' Hws Hrow Hidx Hpos. subst s'.
  assert (i < num_agents self)%nat as Hi.
  { apply lookup_lt_Some in Hrow.
    by apply well_shaped_lengths in Hws as (_ & _ & _ & <- & _). }
  destruct (step_lookup self state action Hws i Hi) as (-> & _ & _ & ->).
  destruct (agent_result_cases state
              (_trim_duplicated_invalid_actions self state action
                 (random_split (key state)).2).1
              (_trim_duplicated_invalid_actions self state action
                 (random_split (key state)).2).2 i) as [-> | [Hne ->]];
    cbn; rewrite (jget_of_nat _ _ _ _ Hrow), (jget_of_nat _ _ _ _ Hidx).
  - exists row. split_and!; [done | done | done | by left].
  - eexists. split_and!; [done | apply length_jset | | by right].
    intros k Hk. apply jset_lookup_ne; lia.
Qed.

Lemma connected_nodes_append_only_witness :
  let s := (demo_run 3 0 [[4; 0]]).1 in
  let s' := (step (demo_env 3) s [1; 0]).1 in
  exists row',
    connected_nodes s' !! 0%nat = Some row'
    /\ length row' = length [0; 4; -1]
    /\ (forall k : nat, Z.of_nat k <> 1 + 1 -> row' !! k = [0; 4; -1] !! k)
    /\ (position_index s' !! 0%nat = Some 1
        \/ position_index s' !! 0%nat = Some (1 + 1)).
Proof.
  apply (connected_nodes_append_only (demo_env 3)
           (demo_run 3 0 [[4; 0]]).1 [1; 0] 0 [0; 4; -1] 1).
  - reflexivity.
  - reflexivity.
  - reflexivity.
  - lia.
Defined.

(** X6.  [connected_nodes_index] only grows: an entry that marks a visited
    node (any value but -1) still marks one after a step. *)
Theorem connected_nodes_index_grows {Key} `{JaxRandom Key}
    (self : CoopMinSpanTree Key) (state : State Key) (action : list Z)
    (i k : nat) (row : list Z) (x : Z) :
  let s' := (step self state action).1 in
  well_shaped self state = true ->
  connected_nodes_index state !! i = Some row ->
  row !! k = Some x ->
  x <> EMPTY_NODE ->
  exists row' y,
    connected_nodes_index s' !! i = Some row'
    /\ row' !! k = Some y /\ y <> EMPTY_NODE.
Proof.
  intros s' Hws Hrow Hx Hne. subst s'.
  assert (i < num_agents self)%nat as Hi.
  { apply lookup_lt_Some in Hrow.
    by apply well_shaped_lengths in Hws as (_ & _ & _ & _ & <- & _). }
  destruct (step_lookup self state action Hws i Hi) as (_ & -> & _ & _).
  destruct (agent_result_cases state
              (_trim_duplicated_invalid_actions self state action
                 (random_split (key state)).2).1
              (_trim_duplicated_invalid_actions self state action
                 (random_split (key state)).2).2 i) as [-> | [Hnode ->]];
    cbn; rewrite (jget_of_nat _ _ _ _ Hrow).
  - by exists row, x.
  - eexists. destruct (jset_lookup_cases row
                         (jget 0 (_trim_duplicated_invalid_actions self state
                                    action (random_split (key state)).2).2
                            (Z.of_nat i))
                         (jget 0 (_trim_duplicated_invalid_actions self state
                                    action (random_split (key state)).2).2
                            (Z.of_nat i)) k x Hx) as [Hk|Hk].
    + eexists. split_and!; [done | exact Hk | exact Hnode].
    + exists x. split_and!; done.
Qed.

Lemma connected_nodes_index_grows_witness :
  let s := (demo_run 3 0 [[4; 0]]).1 in
  let s' := (step (demo_env 3) s [1; 0]).1 in
  exists row' y,
    connected_nodes_index s' !! 0%nat = Some row'
    /\ row' !! 4%nat = Some y /\ y <> EMPTY_NODE.
Proof.
  apply (connected_nodes_index_grows (demo_env 3)
           (demo_run 3 0 [[4; 0]]).1 [1; 0] 0 4 [0; -1; -1; -1; 4; -1] 4).
  - reflexivity.
  - reflexivity.
  - reflexivity.
  - vm_compute. discriminate.
Defined.

(** ** The finished flag *)

Lemma sum_bool_le v : 0 <= sum_bool v <= Z.of_nat (length v).
Proof.
  induction v as [|b v IH]; simpl; [lia|]. destruct b; simpl; lia.
Qed.

Lemma sum_bool_all v :
  sum_bool v = Z.of_nat (length v) <-> forall b, b ∈ v -> b = true.
Proof.
  induction v as [|b v IH].
  { split; [intros _ b Hb; by apply elem_of_nil in Hb | done]. }
  pose proof (sum_bool_le v) as Hle. cbn [sum_bool foldr length].
  fold (sum_bool v). split.
  - intros Hsum b' Hb'. destruct b; simpl in Hsum; [|lia].
    apply elem_of_cons in Hb' as [->|Hb']; [done|].
    apply IH; [lia | done].
  - intros Hall. rewrite (Hall b) by apply list_elem_of_here. simpl.
    assert (sum_bool v = Z.of_nat (length v)) as ->; [|lia].
    apply IH. intros b' Hb'. apply Hall. by apply list_elem_of_further.
Qed.

Lemma done_fun_subset (nodes connected_nodes : list Z) (n_comps : nat) :
  length nodes = n_comps ->
  done_fun nodes connected_nodes n_comps = true
  <-> forall x, x ∈ nodes -> x ∈ connected_nodes.
Proof.
  intros <-. unfold done_fun. rewrite Z.eqb_eq.
  rewrite <- (length_fmap (fun n => isin n connected_nodes) nodes).
  rewrite sum_bool_all. split.
  - intros Hall x Hx. apply (bool_decide_eq_true_1 (x ∈ connected_nodes)).
    apply Hall. apply list_elem_of_fmap. by exists x.
  - intros Hsub b (x & -> & Hx)%list_elem_of_fmap.
    apply bool_decide_eq_true_2. by apply Hsub.
Qed.

Lemma get_finished_agents_lookup {Key} (self : CoopMinSpanTree Key)
    (s : State Key) (i : nat) :
  (i < num_agents self)%nat ->
  length (finished_agents s) = num_agents self ->
  get_finished_agents self s !! i
  = Some (done_fun (jget [] (nodes_to_connect s) (Z.of_nat i))
            (jget [] (connected_nodes s) (Z.of_nat i))
            (num_nodes_per_agent self)).
Proof.
  intros Hi Hlen. unfold get_finished_agents.
  rewrite fold_jset_lookup, length_replicate, Hlen.
  rewrite decide_True; [done|]. split; [apply elem_of_seq; lia | done].
Qed.

Lemma step_finished_lookup {Key} `{JaxRandom Key} (self : CoopMinSpanTree Key)
    (state : State Key) (action : list Z) (i : nat) targets row :
  well_shaped self state = true ->
  nodes_to_connect state !! i = Some targets ->
  connected_nodes (step self state action).1 !! i = Some row ->
  finished_agents (step self state action).1 !! i
  = Some (done_fun targets row (num_nodes_per_agent self)).
Proof.
  intros Hws Ht Hrow.
  pose proof (well_shaped_lengths self state Hws)
    as (_ & _ & _ & _ & _ & Ln & Lf).
  assert (i < num_agents self)%nat as Hi.
  { apply lookup_lt_Some in Ht. lia. }
  destruct (step_unfold self state action)
    as (Hm & Hn & Hfm & Hc & _ & _ & _ & _ & _ & _ & Hf & _).
  rewrite Hf, get_finished_agents_lookup by (done || by rewrite Hfm).
  rewrite Hn, Hm, <- Hc.
  by rewrite (jget_of_nat _ _ _ _ Ht), (jget_of_nat _ _ _ _ Hrow).
Qed.

(** X7.  After a step an agent is flagged finished exactly when each of its
    target nodes occurs in its [connected_nodes], provided its target row
    has [num_nodes_per_agent] entries. *)
Theorem finished_iff_targets_connected {Key} `{JaxRandom Key}
    (self : CoopMinSpanTree Key) (state : State Key) (action : list Z)
    (i : nat) (targets row : list Z) :
  let s' := (step self state action).1 in
  well_shaped self state = true ->
  nodes_to_connect state !! i = Some targets ->
  length targets = num_nodes_per_agent self ->
  connected_nodes s' !! i = Some row ->
  finished_agents s' !! i = Some true
  <-> forall x, x ∈ targets -> x ∈ row.
Proof.
  intros s' Hws Ht Hlen Hrow. subst s'.
  rewrite (step_finished_lookup self state action i targets row Hws Ht Hrow).
  rewrite <- (done_fun_subset targets row _ Hlen).
  split; [by intros [= ->] | by intros ->].
Qed.

Lemma finished_iff_targets_connected_witness :
  let s := (demo_run 3 0 []).1 in
  let s' := (step (demo_env 3) s [1; 0]).1 in
  finished_agents s' !! 0%nat = Some true
  <-> forall x, x ∈ [0; 1] -> x ∈ [0; 1; -1].
Proof.
  apply (finished_iff_targets_connected (demo_env 3) (demo_run 3 0 []).1
           [1; 0] 0 [0; 1] [0; 1; -1]).
  - reflexivity.
  - reflexivity.
  - reflexivity.
  - reflexivity.
Defined.

(** X8.  The finished flag never reverts along a run: an agent flagged
    finished by one step is still flagged finished by the next step,
    whatever the actions. *)
Theorem finished_stays_finished {Key} `{JaxRandom Key}
    (self : CoopMinSpanTree Key) (state : State Key)
    (action action' : list Z) (i : nat) :
  let s1 := (step self state action).1 in
  let s2 := (step self s1 action').1 in
  well_shaped self state = true ->
  length action' = num_agents self ->
  finished_agents s1 !! i = Some true ->
  finished_agents s2 !! i = Some true.
Proof.
  intros s1 s2 Hws Ha' Hfin. subst s2.
  assert (well_shaped self s1 = true) as Hws1 by by apply step_well_shaped.
  pose proof (well_shaped_lengths self state Hws)
    as (_ & _ & _ & _ & _ & Ln & _).
  pose proof (well_shaped_lengths self s1 Hws1)
    as (_ & _ & _ & Lcn & _ & Ln1 & Lf).
  assert (i < num_agents self)%nat as Hi.
  { apply lookup_lt_Some in Hfin. lia. }
  destruct (lookup_lt_is_Some_2 (nodes_to_connect state) i ltac:(lia))
    as [targets Ht].
  destruct (lookup_lt_is_Some_2 (connected_nodes s1) i ltac:(lia))
    as [row Hrow].
  assert (nodes_to_connect s1 !! i = Some targets) as Ht1.
  { subst s1. destruct (step_unfold self state action)
      as (_ & _ & _ & _ & _ & _ & _ & _ & -> & _). done. }
  destruct (finished_agent_stays self s1 action' i Hws1 Ha' Hi Hfin)
    as (_ & _ & Hcn & _).
  rewrite Hrow in Hcn.
  rewrite (step_finished_lookup self s1 action' i targets row Hws1 Ht1 Hcn).
  subst s1.
  by rewrite (step_finished_lookup self state action i targets row Hws Ht Hrow)
    in Hfin.
Qed.

Lemma finished_stays_finished_witness :
  let s1 := (step (demo_env 3) (demo_run 3 0 []).1 [1; 0]).1 in
  let s2 := (step (demo_env 3) s1 [4; 4]).1 in
  finished_agents s2 !! 0%nat = Some true.
Proof.
  apply (finished_stays_finished (demo_env 3) (demo_run 3 0 []).1
           [1; 0] [4; 4] 0).
  - reflexivity.
  - reflexivity.
  - reflexivity.
Defined.

(** ** Edges are only ever removed *)

(** X9.  A step restores no edge and invents none: every entry of every
    view is, after the step, what it was or the empty edge. *)
Theorem step_only_removes_edges {Key} `{JaxRandom Key}
    (self : CoopMinSpanTree Key) (state : State Key) (action : list Z)
    (a v c : nat) :
  edge_at (node_edges (step self state action).1) a v c
  = edge_at (node_edges state) a v c
  \/ (is_Some (edge_at (node_edges state) a v c)
      /\ edge_at (node_edges (step self state action).1) a v c
         = Some EMPTY_EDGE).
Proof.
  destruct (step_unfold self state action)
    as (_ & _ & _ & _ & _ & _ & _ & -> & _).
  destruct (Nat.lt_ge_cases a (num_agents self)) as [Ha|Ha].
  - rewrite edge_at_update_active_edges by done.
    destruct (edge_at (node_edges state) a v c) as [e|]; [|by left]. cbn.
    match goal with
    | |- context [apply_masks ?ps e] =>
        destruct (apply_masks_cases ps e) as [-> | ->]
    end; [by left | right; split; [by eexists | done]].
  - left. by apply edge_at_update_active_edges_ge.
Qed.

(** ** A claimed utility node is out of reach *)

Lemma jget_fmap {A B} (f : A -> B) (d : A) (d' : B) (l : list A) z :
  f d = d' -> jget d' (f <$> l) z = f (jget d l z).
Proof.
  intros Hd. unfold jget. rewrite length_fmap, list_lookup_fmap.
  destruct (l !! clip_index (length l) z); [done | by symmetry].
Qed.

Lemma jget_fmap_nonempty {A B} (f : A -> B) (d : A) (d' : B) (l : list A) z :
  l <> [] -> jget d' (f <$> l) z = f (jget d l z).
Proof.
  intros Hl. unfold jget. rewrite length_fmap, list_lookup_fmap.
  destruct (lookup_lt_is_Some_2 l (clip_index (length l) z)) as [x ->];
    [|done].
  apply clip_index_lt. destruct l; [done | simpl; lia].
Qed.

Lemma edges_nonempty_lookup {Key} (state : State Key) i view :
  edges_nonempty state = true ->
  node_edges state !! i = Some view ->
  view <> [] /\ forall row, row ∈ view -> row <> [].
Proof.
  intros Hne Hv.
  pose proof (forallb_elem_of _ _ view Hne
                ltac:(apply list_elem_of_lookup; eauto)) as Hview.
  apply andb_true_iff in Hview as [Hv1 Hv2]. split.
  - intros ->. done.
  - intros row Hrow Heq. pose proof (forallb_elem_of _ _ row Hv2 Hrow) as Hr.
    subst row. done.
Qed.

(** X10.  Once an agent stands on a utility node after a step, no request of
    any other agent resolves to that node in the state the step returns. *)
Theorem claimed_utility_node_is_unreachable {Key} `{JaxRandom Key}
    (self : CoopMinSpanTree Key) (state : State Key)
    (action action' : list Z) (i j : nat) (u n : Z) :
  let s' := (step self state action).1 in
  well_shaped self state = true ->
  edges_nonempty state = true ->
  i <> j ->
  positions s' !! j = Some u ->
  0 <= u ->
  jget 0 (node_types state) u = UTILITY_NODE ->
  resolve_nodes s' action' !! i = Some n ->
  n <> u.
Proof.
  intros s' Hws Hne Hij Hu Hpos Hutil Hn. subst s'.
  pose proof (well_shaped_lengths self state Hws) as (Le & _).
  pose proof (well_shaped_lengths self _ (step_well_shaped self state action Hws))
    as (Le' & Lp' & _).
  assert (j < num_agents self)%nat as Hj.
  { apply lookup_lt_Some in Hu. lia. }
  unfold resolve_nodes in Hn.
  apply lookup_zip_with_Some in Hn as (view' & [p c] & -> & Hv' & _).
  assert (i < num_agents self)%nat as Hi.
  { apply lookup_lt_Some in Hv'. lia. }
  destruct (step_unfold self state action)
    as (_ & _ & _ & _ & _ & Hp & _ & He & _).
  rewrite <- Hp in He. rewrite He, update_active_edges_lookup in Hv' by done.
  destruct (node_edges state !! i) as [view|] eqn:Hview; [|done].
  apply (inj Some) in Hv'. subst view'.
  destruct (edges_nonempty_lookup state i view Hne Hview) as [Hvne Hrows].
  unfold _get_agent_node.
  change ((p, c).1) with p. change ((p, c).2) with c.
  rewrite (jget_fmap _ [] [] view p) by done.
  rewrite (jget_fmap_nonempty _ 0 0)
    by (apply Hrows; by apply jget_elem_of).
  apply apply_masks_not_masked.
  - apply elem_of_masks_for. exists j.
    rewrite (jget_of_nat _ _ _ _ Hu). split_and!; [done | done | done |].
    symmetry. by apply Z.eqb_eq.
  - unfold EMPTY_EDGE. lia.
Qed.

Lemma claimed_utility_node_is_unreachable_witness : (-1 : Z) <> 4.
Proof.
  apply (claimed_utility_node_is_unreachable (demo_env 3)
           (demo_run 3 0 []).1 [4; 0] [1; 4] 1 0 4 (-1)).
  - reflexivity.
  - reflexivity.
  - lia.
  - reflexivity.
  - lia.
  - reflexivity.
  - reflexivity.
Defined.

(** ** The action mask *)

Lemma update_action_mask_lookup {Key} (self : CoopMinSpanTree Key)
    (node_edges : list (list (list Z))) (position : list Z)
    (finished_agents : list bool) (i : nat) :
  (i < num_agents self)%nat ->
  _update_action_mask self node_edges position finished_agents !! i
  = Some ((fun e => negb (e =? EMPTY_NODE)
                    && negb (jget false finished_agents (Z.of_nat i)))
          <$> jget [] (jget [] node_edges (Z.of_nat i))
                (jget 0 position (Z.of_nat i))).
Proof.
  intros Hi. unfold _update_action_mask.
  rewrite (fold_jset_lookup
             (fun agent =>
                (fun b => b && negb (jget false finished_agents (Z.of_nat agent)))
                <$> jget []
                      (jget []
                         (fmap (M := list)
                            (fmap (M := list)
                               (fun e => negb (e =? EMPTY_NODE)))
                          <$> node_edges) (Z.of_nat agent))
                      (jget 0 position (Z.of_nat agent)))).
  rewrite length_replicate, decide_True
    by (split; [apply elem_of_seq; lia | done]).
  f_equal. rewrite (jget_fmap _ [] []) by done.
  rewrite (jget_fmap _ [] []) by done.
  by rewrite <- list_fmap_compose.
Qed.

Lemma step_action_mask {Key} `{JaxRandom Key} (self : CoopMinSpanTree Key)
    (state : State Key) (action : list Z) :
  action_mask (step self state action).1
  = _update_action_mask self (node_edges (step self state action).1)
      (positions (step self state action).1) (finished_agents state).
Proof.
  unfold step, step_state.
  destruct (random_split (key state)) as [k sk].
  by destruct (_trim_duplicated_invalid_actions self state action sk) as [a n].
Qed.

(** X11.  The action mask returned by a step is sound: when it marks index
    [c] valid for agent [i], the agent was unfinished at the start of the
    step and a request for [c] in the returned state resolves to a node, not
    to the empty edge. *)
Theorem masked_valid_action_resolves {Key} `{JaxRandom Key}
    (self : CoopMinSpanTree Key) (state : State Key)
    (action action' : list Z) (i c : nat) (row : list bool) :
  let s' := (step self state action).1 in
  well_shaped self state = true ->
  action_mask s' !! i = Some row ->
  row !! c = Some true ->
  action' !! i = Some (Z.of_nat c) ->
  finished_agents state !! i = Some false
  /\ exists n, resolve_nodes s' action' !! i = Some n /\ n <> EMPTY_NODE.
Proof.
  intros s' Hws Hrow Hc Ha'.
  pose proof (well_shaped_lengths self state Hws)
    as (_ & _ & _ & _ & _ & _ & Lf).
  pose proof (well_shaped_lengths self s' (step_well_shaped self state action Hws))
    as (Le' & Lp' & _).
  assert (i < num_agents self)%nat as Hi.
  { apply lookup_lt_Some in Hrow. subst s'.
    rewrite step_action_mask in Hrow. unfold _update_action_mask in Hrow.
    by rewrite length_fold_jset, length_replicate in Hrow. }
  destruct (lookup_lt_is_Some_2 (node_edges s') i ltac:(lia)) as [view Hv].
  destruct (lookup_lt_is_Some_2 (positions s') i ltac:(lia)) as [p Hp].
  destruct (lookup_lt_is_Some_2 (finished_agents state) i ltac:(lia))
    as [f Hf].
  subst s'. rewrite step_action_mask, update_action_mask_lookup in Hrow by done.
  rewrite (jget_of_nat _ _ _ _ Hv), (jget_of_nat _ _ _ _ Hp),
    (jget_of_nat _ _ _ _ Hf) in Hrow.
  injection Hrow as <-.
  rewrite list_lookup_fmap in Hc.
  destruct (jget [] view p !! c) as [e|] eqn:He; [|done].
  injection Hc as Hc. apply andb_true_iff in Hc as [Hne Hfin].
  split; [by destruct f|].
  exists e. split.
  - rewrite (resolve_nodes_lookup _ action' i view p (Z.of_nat c) Hv Hp Ha').
    f_equal. unfold _get_agent_node. by apply jget_of_nat.
  - intros ->. done.
Qed.

Lemma masked_valid_action_resolves_witness :
  let s' := (step (demo_env 3) (demo_run 3 0 []).1 [4; 0]).1 in
  finished_agents (demo_run 3 0 []).1 !! 0%nat = Some false
  /\ exists n, resolve_nodes s' [1; 0] !! 0%nat = Some n /\ n <> EMPTY_NODE.
Proof.
  apply (masked_valid_action_resolves (demo_env 3) (demo_run 3 0 []).1
           [4; 0] [1; 0] 0 1 [true; true; true; false; false; false]).
  - reflexivity.
  - reflexivity.
  - reflexivity.
  - reflexivity.
Defined.

(** X12.  An agent that was finished at the start of a step is offered no
    action by the mask the step returns. *)
Theorem finished_agent_has_empty_mask {Key} `{JaxRandom Key}
    (self : CoopMinSpanTree Key) (state : State Key) (action : list Z)
    (i c : nat) (row : list bool) (b : bool) :
  let s' := (step self state action).1 in
  well_shaped self state = true ->
  finished_agents state !! i = Some true ->
  action_mask s' !! i = Some row ->
  row !! c = Some b ->
  b = false.
Proof.
  intros s' Hws Hf Hrow Hc. subst s'.
  assert (i < num_agents self)%nat as Hi.
  { apply lookup_lt_Some in Hf.
    by apply well_shaped_lengths in Hws as (_ & _ & _ & _ & _ & _ & <-). }
  rewrite step_action_mask, update_action_mask_lookup in Hrow by done.
  rewrite (jget_of_nat _ _ _ _ Hf) in Hrow. injection Hrow as <-.
  rewrite list_lookup_fmap in Hc.
  destruct (_ !! c) as [e|]; [|done]. injection Hc as <-.
  by rewrite andb_false_r.
Qed.

Lemma finished_agent_has_empty_mask_witness : false = false.
Proof.
  apply (finished_agent_has_empty_mask (demo_env 3)
           (demo_run 3 0 [[1; 0]]).1 [4; 4] 0 4
           [false; false; false; false; false; false] false).
  - reflexivity.
  - reflexivity.
  - reflexivity.
  - reflexivity.
Defined.

(** ** No claim, no mask *)

(** X13.  When no agent stands on a utility node, [_update_active_edges]
    changes nothing: every view comes back as it was given. *)
Theorem update_active_edges_without_claims {Key} `{JaxRandom Key}
    (self : CoopMinSpanTree Key) (node_edges : list (list (list Z)))
    (position node_types : list Z) :
  (forall k, (k < num_agents self)%nat ->
     jget 0 node_types (jget 0 position (Z.of_nat k)) <> UTILITY_NODE) ->
  _update_active_edges self node_edges position node_types = node_edges.
Proof.
  intros Hfree. apply list_eq; intros a.
  destruct (Nat.lt_ge_cases a (num_agents self)) as [Ha|Ha].
  - rewrite update_active_edges_lookup by done.
    destruct (node_edges !! a) as [m|]; [|done]. cbn. f_equal.
    rewrite <- (list_fmap_id m) at 2. apply list_fmap_ext; intros _ row _.
    cbn. rewrite <- (list_fmap_id row) at 2. apply list_fmap_ext; intros _ e _.
    cbn. apply apply_masks_untouched. intros node Hin _.
    apply elem_of_masks_for in Hin as (k & Hk & _ & -> & Hc).
    symmetry in Hc. apply Z.eqb_eq in Hc. by apply (Hfree k).
  - by apply update_active_edges_lookup_ge.
Qed.

Lemma update_active_edges_without_claims_witness :
  _update_active_edges (demo_env 3) (replicate 2 demo_node_edges) [0; 2]
    [0; 0; 1; 1; -1; -1]
  = replicate 2 demo_node_edges.
Proof.
  apply (update_active_edges_without_claims (demo_env 3)).
  intros k Hk. change (num_agents (demo_env 3)) with 2%nat in Hk.
  destruct k as [|[|k]]; [vm_compute; discriminate.. | lia].
Defined.

(** ** Shape invariants *)

Lemma edges_nonempty_spec {Key} (state : State Key) :
  edges_nonempty state = true <->
  forall a view, node_edges state !! a = Some view ->
                 view <> [] /\ forall row, row ∈ view -> row <> [].
Proof.
  split.
  - intros Hne a view. by apply edges_nonempty_lookup.
  - intros Hall. unfold edges_nonempty. apply forallb_forall. intros view Hv.
    apply list_elem_of_In, list_elem_of_lookup in Hv as [a Ha].
    destruct (Hall a view Ha) as [Hvne Hrows].
    apply andb_true_iff. split.
    + by rewrite bool_decide_eq_false_2.
    + apply forallb_forall. intros row Hrow.
      apply list_elem_of_In in Hrow. by rewrite bool_decide_eq_false_2 by auto.
Qed.

Lemma step_edges_nonempty {Key} `{JaxRandom Key} (self : CoopMinSpanTree Key)
    (state : State Key) (action : list Z) :
  edges_nonempty state = true ->
  edges_nonempty (step self state action).1 = true.
Proof.
  rewrite !edges_nonempty_spec. intros Hne a view'.
  destruct (step_unfold self state action)
    as (_ & _ & _ & _ & _ & _ & _ & -> & _).
  destruct (Nat.lt_ge_cases a (num_agents self)) as [Ha|Ha].
  - rewrite update_active_edges_lookup by done.
    destruct (node_edges state !! a) as [view|] eqn:Hv; [|done].
    intros [= <-]. destruct (Hne a view Hv) as [Hvne Hrows]. split.
    + by destruct view.
    + intros row' (row & -> & Hrow)%list_elem_of_fmap.
      specialize (Hrows row Hrow). by destruct row.
  - rewrite update_active_edges_lookup_ge by done. apply Hne.
Qed.

(** X14.  A step keeps the shape of the state: one entry per agent in every
    per-agent array, every edge entry a node or the empty edge, no empty
    view or row. *)
Theorem step_keeps_state_shape {Key} `{JaxRandom Key}
    (self : CoopMinSpanTree Key) (state : State Key) (action : list Z) :
  let s' := (step self state action).1 in
  (well_shaped self state = true -> well_shaped self s' = true)
  /\ (edges_valid state = true -> edges_valid s' = true)
  /\ (edges_nonempty state = true -> edges_nonempty s' = true).
Proof.
  intros s'. split_and!.
  - apply step_well_shaped.
  - apply step_edges_valid.
  - apply step_edges_nonempty.
Qed.

Lemma reset_unfold {Key} `{JaxRandom Key} (self : CoopMinSpanTree Key)
    (key : Key) :
  let problem := _generator_fn self (random_split key).2 in
  let s := (reset self key).1 in
  node_edges s
  = _update_active_edges self
      (replicate (num_agents self) (gen_node_edges problem))
      (gen_agents_pos problem) (gen_node_types problem)
  /\ positions s = gen_agents_pos problem
  /\ position_index s = replicate (num_agents self) 0
  /\ connected_nodes s = gen_conn_nodes problem
  /\ connected_nodes_index s = gen_conn_nodes_index problem
  /\ nodes_to_connect s = gen_nodes_to_connect problem
  /\ finished_agents s = replicate (num_agents self) false
  /\ step_count s = 0
  /\ step_type (reset self key).2 = FIRST.
Proof. unfold reset. by destruct (random_split key) as [k pk]. Qed.

(** X15.  [reset] builds a state on which the step engine can run: if the
    generator returns one entry per agent and edges in the documented
    encoding, the initial state has one entry per agent in every per-agent
    array, keeps the encoding, starts the counter at 0 with no agent
    finished and every [position_index] at 0, and the time step is the
    first of the episode. *)
Theorem reset_builds_shaped_state {Key} `{JaxRandom Key}
    (self : CoopMinSpanTree Key) (key : Key) :
  let s := (reset self key).1 in
  problem_shaped self (_generator_fn self (random_split key).2) = true ->
  well_shaped self s = true
  /\ edges_valid s = true
  /\ step_count s = 0
  /\ finished_agents s = replicate (num_agents self) false
  /\ position_index s = replicate (num_agents self) 0
  /\ step_type (reset self key).2 = FIRST.
Proof.
  intros s Hp. subst s.
  destruct (reset_unfold self key)
    as (He & Hpos & Hpi & Hcn & Hci & Hn & Hf & Hc & Hst).
  unfold problem_shaped in Hp.
  rewrite !andb_true_iff, !Nat.eqb_eq in Hp.
  destruct Hp as ((((Lp & Lcn) & Lci) & Ln) & Hvalid).
  split_and!; try done.
  - unfold well_shaped.
    rewrite He, Hpos, Hpi, Hcn, Hci, Hn, Hf, length_update_active_edges,
      !length_replicate, Lp, Lcn, Lci, Ln.
    by rewrite !Nat.eqb_refl.
  - apply edges_valid_spec. intros a v c e. rewrite He.
    assert (forall e0,
              edge_at (replicate (num_agents self)
                         (gen_node_edges
                            (_generator_fn self (random_split key).2)))
                a v c = Some e0 -> EMPTY_EDGE <= e0) as Hgen.
    { intros e0 He0. unfold edge_at in He0.
      destruct (replicate _ _ !! a) as [m|] eqn:Hm; [|done]. cbn in He0.
      apply lookup_replicate in Hm as [-> _].
      destruct (gen_node_edges _ !! v) as [row|] eqn:Hrow; [|done].
      cbn in He0.
      pose proof (forallb_elem_of _ _ row Hvalid
                    ltac:(apply list_elem_of_lookup; eauto)) as Hrow'.
      pose proof (forallb_elem_of _ _ e0 Hrow'
                    ltac:(apply list_elem_of_lookup; eauto)) as He'.
      by apply Z.leb_le in He'. }
    destruct (Nat.lt_ge_cases a (num_agents self)) as [Ha|Ha].
    + rewrite edge_at_update_active_edges by done.
      destruct (edge_at _ a v c) as [e0|] eqn:He0; [|done]. cbn.
      intros [= <-].
      match goal with
      | |- _ <= apply_masks ?ps ?x =>
          destruct (apply_masks_cases ps x) as [-> | ->]; [|done]
      end.
      by apply Hgen.
    + rewrite edge_at_update_active_edges_ge by done. apply Hgen.
Qed.

Lemma reset_builds_shaped_state_witness :
  let s := (reset (demo_env 3) 0%nat).1 in
  well_shaped (demo_env 3) s = true
  /\ edges_valid s = true
  /\ step_count s = 0
  /\ finished_agents s = replicate (num_agents (demo_env 3)) false
  /\ position_index s = replicate (num_agents (demo_env 3)) 0
  /\ step_type (reset (demo_env 3) 0%nat).2 = FIRST.
Proof.
  apply (reset_builds_shaped_state (demo_env 3) 0%nat). reflexivity.
Defined.

(** ** The observed node types *)

Section Observation.
Context {Key : Type}.
Variable self : CoopMinSpanTree Key.
Variable connected_nodes_index : list (list Z).
Variable n : nat.

Lemma get_obsv_loop la acc x0 :
  acc !! n = Some x0 ->
  (forall agent, agent ∈ la ->
     is_Some (jget [] connected_nodes_index (Z.of_nat agent) !! n)) ->
  fold_left
    (fun node_types agent =>
       let row := jget [] connected_nodes_index (Z.of_nat agent) in
       let connected_mask := (fun x => x =? UTILITY_NODE) <$> row in
       let connected_ones := (fun x => negb (x =? UTILITY_NODE)) <$> row in
       let node_types :=
         zip_with (fun x b => x * Z.b2z b) node_types connected_mask in
       let agent_skip :=
         (Z.of_nat agent - 0) `mod` Z.of_nat (num_agents self) in
       zip_with (fun x b => x + (2 * agent_skip) * Z.b2z b)
         node_types connected_ones)
    la acc !! n
  = Some (fold_left (relabel (num_agents self) connected_nodes_index n) la x0).
Proof.
  revert acc x0. induction la as [|agent la IH]; intros acc x0 Hacc Hrows;
    cbn [fold_left]; [done|].
  apply IH.
  - destruct (Hrows agent ltac:(apply list_elem_of_here)) as [v Hv].
    cbv zeta. rewrite !lookup_zip_with, !list_lookup_fmap, Hacc, Hv. cbn.
    unfold relabel. by rewrite (jget_of_nat _ _ _ _ Hv).
  - intros a Ha. apply Hrows. by apply list_elem_of_further.
Qed.

Lemma relabel_unvisited la x :
  (forall agent, agent ∈ la ->
     jget 0 (jget [] connected_nodes_index (Z.of_nat agent)) (Z.of_nat n)
     = UTILITY_NODE) ->
  fold_left (relabel (num_agents self) connected_nodes_index n) la x = x.
Proof.
  revert x. induction la as [|agent la IH]; intros x Hla; cbn [fold_left];
    [done|].
  rewrite IH by (intros a Ha; apply Hla; by apply list_elem_of_further).
  unfold relabel. rewrite (Hla agent) by apply list_elem_of_here.
  rewrite Z.eqb_refl. simpl. lia.
Qed.

Lemma relabel_visited (agent : nat) x :
  (agent < num_agents self)%nat ->
  jget 0 (jget [] connected_nodes_index (Z.of_nat agent)) (Z.of_nat n)
    <> UTILITY_NODE ->
  relabel (num_agents self) connected_nodes_index n x agent
  = 2 * Z.of_nat agent.
Proof.
  intros Ha Hv. unfold relabel.
  destruct (Z.eqb_spec
              (jget 0 (jget [] connected_nodes_index (Z.of_nat agent))
                 (Z.of_nat n)) UTILITY_NODE); [done|].
  simpl. rewrite Z.sub_0_r, Z.mod_small by lia. lia.
Qed.

End Observation.

(** X16.  What [_get_obsv] shows for a node.  If no agent has the node in
    its [connected_nodes_index], a utility node is shown as -1 and a node of
    group [t] as the odd label [2 * (t mod num_agents) + 1] (1 for group 0).
    If some agent has it, the node is shown as the even label [2 * k] of the
    highest-numbered agent [k] that has it (0 for agent 0). *)
Theorem get_obsv_labels {Key} (self : CoopMinSpanTree Key)
    (node_types : list Z) (connected_nodes_index : list (list Z))
    (n : nat) (t : Z) :
  let obs := _get_obsv self node_types connected_nodes_index in
  let visited (k : nat) :=
    jget 0 (jget [] connected_nodes_index (Z.of_nat k)) (Z.of_nat n)
    <> UTILITY_NODE in
  length connected_nodes_index = num_agents self ->
  forallb (fun row : list Z => (length row =? length node_types)%nat)
    connected_nodes_index = true ->
  node_types !! n = Some t ->
  ((forall k, (k < num_agents self)%nat -> ~ visited k) ->
   obs !! n
   = Some (if t =? UTILITY_NODE then -1
           else 2 * (t `mod` Z.of_nat (num_agents self)) + 1))
  /\ (forall k, (k < num_agents self)%nat -> visited k ->
        (forall k', (k < k' < num_agents self)%nat -> ~ visited k') ->
        obs !! n = Some (2 * Z.of_nat k)).
Proof.
  intros obs visited Hlen Hrowsb Ht. subst obs visited. cbv beta.
  assert (forall row, row ∈ connected_nodes_index ->
                      length row = length node_types) as Hrows.
  { intros row Hrow. apply Nat.eqb_eq.
    by apply (forallb_elem_of _ _ row Hrowsb). }
  set (base := (((t - 0) `mod` Z.of_nat (num_agents self)) * 2 + 1)
               * Z.b2z (negb (t =? UTILITY_NODE))
               - Z.b2z (t =? UTILITY_NODE)).
  assert (forall la : list nat,
            (forall agent, agent ∈ la -> (agent < num_agents self)%nat) ->
            forall agent, agent ∈ la ->
              is_Some (jget [] connected_nodes_index (Z.of_nat agent) !! n))
    as Hsome.
  { intros la Hla agent Hin. apply lookup_lt_is_Some_2.
    rewrite (Hrows (jget [] connected_nodes_index (Z.of_nat agent))).
    - by eapply lookup_lt_Some.
    - apply jget_elem_of. intros Hnil. specialize (Hla agent Hin).
      rewrite Hnil in Hlen. simpl in Hlen. lia. }
  assert (forall agent, agent ∈ seq 0 (num_agents self) ->
                        (agent < num_agents self)%nat) as Hseq.
  { intros agent Hin. apply elem_of_seq in Hin. lia. }
  assert (_get_obsv self node_types connected_nodes_index !! n
          = Some (fold_left (relabel (num_agents self) connected_nodes_index n)
                    (seq 0 (num_agents self)) base)) as ->.
  { unfold _get_obsv. cbv zeta. apply get_obsv_loop; [|by apply Hsome].
    rewrite !lookup_zip_with, !list_lookup_fmap, Ht. done. }
  split.
  - intros Hnone. rewrite relabel_unvisited.
    + f_equal. subst base. rewrite Z.sub_0_r.
      destruct (t =? UTILITY_NODE); simpl; lia.
    + intros agent Hin. specialize (Hnone agent (Hseq agent Hin)).
      destruct (Z.eq_dec
                  (jget 0 (jget [] connected_nodes_index (Z.of_nat agent))
                     (Z.of_nat n)) UTILITY_NODE); [done | by exfalso].
  - intros k Hk Hvis Hlater. f_equal.
    assert (seq 0 (num_agents self)
            = seq 0 k ++ k :: seq (S k) (num_agents self - S k)) as ->.
    { replace (num_agents self) with (k + S (num_agents self - S k))%nat
        at 1 by lia.
      by rewrite seq_app. }
    rewrite fold_left_app. cbn [fold_left].
    rewrite relabel_unvisited.
    + by apply relabel_visited.
    + intros agent Hin. apply elem_of_seq in Hin.
      specialize (Hlater agent ltac:(lia)).
      destruct (Z.eq_dec
                  (jget 0 (jget [] connected_nodes_index (Z.of_nat agent))
                     (Z.of_nat n)) UTILITY_NODE); [done | by exfalso].
Qed.

Lemma get_obsv_labels_witness :
  let node_types := [0; 0; 1; 1; -1; -1] in
  let connected_nodes_index :=
    [ [0; -1; -1; -1; -1; -1]; [-1; -1; 2; -1; 4; -1] ] in
  let obs := _get_obsv (demo_env 3) node_types connected_nodes_index in
  let visited (k : nat) :=
    jget 0 (jget [] connected_nodes_index (Z.of_nat k)) (Z.of_nat 4)
    <> UTILITY_NODE in
  ((forall k, (k < 2)%nat -> ~ visited k) ->
   obs !! 4%nat
   = Some (if -1 =? UTILITY_NODE then -1
           else 2 * (-1 `mod` Z.of_nat 2) + 1))
  /\ (forall k, (k < 2)%nat -> visited k ->
        (forall k', (k < k' < 2)%nat -> ~ visited k') ->
        obs !! 4%nat = Some (2 * Z.of_nat k)).
Proof.
  apply (get_obsv_labels (demo_env 3) [0; 0; 1; 1; -1; -1]
           [ [0; -1; -1; -1; -1; -1]; [-1; -1; 2; -1; 4; -1] ] 4 (-1)).
  - reflexivity.
  - reflexivity.
  - reflexivity.
Defined.

(** The observation after both agents asked for utility node 4 and agent 1
    got it: agent 0's start node is shown as 0, agent 1's nodes as 2, the
    unvisited nodes of the groups as 1 and 3, the free utility node as -1. *)
Example get_obsv_after_one_step :
  let s := (demo_run 3 0 [[4; 4]]).1 in
  _get_obsv (demo_env 3) (node_types s) (connected_nodes_index s)
  = [0; 1; 2; 3; 2; -1].
Proof. vm_compute. done. Qed.

(** ** Every requested node finds a taker *)

Lemma spec_arbitrate_other (nodes : list Z) order granted outcomes (i : nat) :
  i ∉ order ->
  (spec_arbitrate nodes order granted outcomes).2 !! i = outcomes !! i.
Proof.
  revert granted outcomes.
  induction order as [|a order IH]; intros granted outcomes Hi; [done|].
  apply not_elem_of_cons in Hi as [Hia Hi]. cbn [spec_arbitrate].
  destruct (nodes !! a) as [nd|]; [|by apply IH].
  destruct (nd =? EMPTY_NODE); [|destruct (bool_decide _)];
    rewrite IH by done; by rewrite lookup_insert_ne.
Qed.

Lemma spec_arbitrate_grants (nodes : list Z) order granted outcomes
    (i : nat) (n : Z) :
  NoDup order ->
  i ∈ order ->
  nodes !! i = Some n ->
  n <> EMPTY_NODE ->
  n ∉ granted ->
  exists k,
    k ∈ order /\ nodes !! k = Some n
    /\ (spec_arbitrate nodes order granted outcomes).2 !! k
       = Some (Accepted n).
Proof.
  intros Hnd. revert granted outcomes.
  induction Hnd as [|a order Ha Hnd IH]; intros granted outcomes Hi Hn Hne Hg.
  { by apply elem_of_nil in Hi. }
  cbn [spec_arbitrate].
  destruct (decide (nodes !! a = Some n)) as [Han|Han].
  - rewrite Han. destruct (Z.eqb_spec n EMPTY_NODE); [done|].
    rewrite bool_decide_eq_false_2 by done.
    exists a. split_and!; [apply list_elem_of_here | done |].
    by rewrite spec_arbitrate_other, lookup_insert_eq.
  - assert (i ∈ order) as Hi'.
    { apply elem_of_cons in Hi as [->|?]; [congruence | done]. }
    assert (forall granted' outcomes',
              n ∉ granted' ->
              exists k, k ∈ a :: order /\ nodes !! k = Some n
                /\ (spec_arbitrate nodes order granted' outcomes').2 !! k
                   = Some (Accepted n)) as Hrest.
    { intros granted' outcomes' Hg'.
      destruct (IH granted' outcomes' Hi' Hn Hne Hg') as (k & Hk & Hkn & Hko).
      exists k. split_and!; [by apply list_elem_of_further | done | done]. }
    destruct (nodes !! a) as [nd|]; [|by apply Hrest].
    destruct (nd =? EMPTY_NODE); [by apply Hrest|].
    destruct (bool_decide _); [by apply Hrest|].
    apply Hrest. intros [->%elem_of_singleton|?]%elem_of_union; done.
Qed.

Lemma agent_order_permutation (perm : list Z) (num_agents : nat) :
  Permutation perm (arange num_agents) ->
  Permutation (Z.to_nat <$> perm) (seq 0 num_agents).
Proof.
  intros Hperm. rewrite Hperm. unfold arange.
  rewrite <- list_fmap_compose.
  assert ((Z.to_nat ∘ Z.of_nat) <$> seq 0 num_agents = seq 0 num_agents)
    as ->; [|done].
  rewrite <- (list_fmap_id (seq 0 num_agents)) at 2.
  apply list_fmap_ext. intros _ x _. simpl. lia.
Qed.

Lemma tie_break_result_arbitration {Key} `{JaxRandom Key}
    (self : CoopMinSpanTree Key) (state : State Key) (action : list Z)
    (step_key : Key) :
  let nodes := resolve_nodes state action in
  let agent_permutation :=
    random_permutation step_key (arange (num_agents self)) in
  let spec := spec_arbitrate nodes (Z.to_nat <$> agent_permutation) ∅ ∅ in
  well_shaped self state = true ->
  edges_valid state = true ->
  length action = num_agents self ->
  arbitration_rel (num_agents self) action []
    (tie_break_result (num_agents self) action nodes agent_permutation)
    spec.1 spec.2.
Proof.
  intros nodes agent_permutation spec Hws Hvalid Ha.
  pose proof (random_permutation_perm step_key (arange (num_agents self)))
    as Hperm. fold agent_permutation in Hperm.
  pose proof (well_shaped_lengths self state Hws) as (He & Hp & _).
  pose proof (length_resolve_nodes state action _ He Hp Ha) as Hn.
  apply arbitration_rel_fold; try done.
  - intros x Hx. by apply (resolve_nodes_valid state action).
  - rewrite Hperm. apply NoDup_arange.
  - intros a Hin. apply elem_of_arange. by rewrite <- Hperm.
  - apply arbitration_rel_init; [done | |].
    + intros a Hin. apply elem_of_arange. by rewrite <- Hperm.
    + intros i Hi. rewrite Hperm. apply elem_of_arange. lia.
Qed.

(** X17.  No requested node is left without a taker: when some agent's
    request resolves to a node, the tie-break loop grants that node to one
    of the agents that requested it, which keeps its requested index. *)
Theorem requested_node_is_granted {Key} `{JaxRandom Key}
    (self : CoopMinSpanTree Key) (state : State Key) (action : list Z)
    (step_key : Key) (i : nat) (n : Z) :
  let nodes := resolve_nodes state action in
  let arg :=
    tie_break_loop self action nodes
      (random_permutation step_key (arange (num_agents self))) in
  well_shaped self state = true ->
  edges_valid state = true ->
  length action = num_agents self ->
  nodes !! i = Some n ->
  n <> EMPTY_NODE ->
  exists k req,
    nodes !! k = Some n /\ action !! k = Some req
    /\ la_new_actions arg !! k = Some req.
Proof.
  intros nodes arg Hws Hvalid Ha Hn Hne. subst arg.
  rewrite tie_break_loop_fold by apply length_random_permutation.
  cbn [loop_carry la_new_actions].
  pose proof (random_permutation_perm step_key (arange (num_agents self)))
    as Hperm.
  pose proof (agent_order_permutation _ _ Hperm) as Horder.
  pose proof (well_shaped_lengths self state Hws) as (He & Hp & _).
  pose proof (length_resolve_nodes state action _ He Hp Ha) as Hlen.
  assert (i < num_agents self)%nat as Hi.
  { apply lookup_lt_Some in Hn. subst nodes. lia. }
  destruct (spec_arbitrate_grants nodes
              (Z.to_nat <$> random_permutation step_key
                              (arange (num_agents self)))
              ∅ ∅ i n) as (k & Hk & Hkn & Hko); try done.
  - rewrite Horder. apply NoDup_seq.
  - rewrite Horder. apply elem_of_seq. lia.
  - assert (k < num_agents self)%nat as Hklt.
    { rewrite Horder in Hk. apply elem_of_seq in Hk. lia. }
    destruct (tie_break_result_arbitration self state action step_key
                Hws Hvalid Ha) as (_ & _ & _ & _ & _ & Hdone).
    destruct (Hdone k Hklt ltac:(apply not_elem_of_nil))
      as (o & req & Ho & Hreq & Hnew).
    fold nodes in Ho. rewrite Hko in Ho. injection Ho as <-.
    by exists k, req.
Qed.

Lemma requested_node_is_granted_witness :
  let s := (demo_run 3 0 []).1 in
  let nodes := resolve_nodes s [4; 4] in
  let arg :=
    tie_break_loop (demo_env 3) [4; 4] nodes
      (random_permutation 1%nat (arange (num_agents (demo_env 3)))) in
  exists k req,
    nodes !! k = Some 4 /\ [4; 4] !! k = Some req
    /\ la_new_actions arg !! k = Some req.
Proof.
  apply (requested_node_is_granted (demo_env 3) (demo_run 3 0 []).1 [4; 4]
           1%nat 0 4).
  - reflexivity.
  - reflexivity.
  - reflexivity.
  - reflexivity.
  - vm_compute. discriminate.
Defined.

(** X18.  An uncontested request is always accepted: when an unfinished
    agent requests a non-negative index, is alone in requesting the node it
    resolves to, and that node is not in its [connected_nodes_index], its
    final action is the non-negative index it requested, whatever the
    permutation. *)
Theorem uncontested_request_is_accepted {Key} `{JaxRandom Key}
    (self : CoopMinSpanTree Key) (state : State Key) (action : list Z)
    (step_key : Key) (i : nat) (n req : Z) :
  let nodes := resolve_nodes state action in
  well_shaped self state = true ->
  edges_valid state = true ->
  length action = num_agents self ->
  nodes !! i = Some n ->
  n <> EMPTY_NODE ->
  (forall j, j <> i -> nodes !! j <> Some n) ->
  action !! i = Some req ->
  0 <= req ->
  finished_agents state !! i = Some false ->
  jget 0 (jget [] (connected_nodes_index state) (Z.of_nat i)) n = EMPTY_NODE ->
  exists a,
    (_trim_duplicated_invalid_actions self state action step_key).1 !! i
    = Some a
    /\ a = req /\ 0 <= a.
Proof.
  intros nodes Hws Hvalid Ha Hn Hne Halone Hreq Hnonneg Hfin Hvis.
  exists req. split; [|done].
  pose proof (random_permutation_perm step_key (arange (num_agents self)))
    as Hperm.
  pose proof (agent_order_permutation _ _ Hperm) as Horder.
  pose proof (well_shaped_lengths self state Hws) as (He & Hp & _).
  pose proof (length_resolve_nodes state action _ He Hp Ha) as Hlen.
  assert (i < num_agents self)%nat as Hi.
  { apply lookup_lt_Some in Hn. subst nodes. lia. }
  destruct (spec_arbitrate_grants nodes
              (Z.to_nat <$> random_permutation step_key
                              (arange (num_agents self)))
              ∅ ∅ i n) as (k & Hk & Hkn & Hko); try done.
  - rewrite Horder. apply NoDup_seq.
  - rewrite Horder. apply elem_of_seq. lia.
  - assert (k = i) as ->.
    { destruct (decide (k = i)); [done|]. by destruct (Halone k). }
    destruct (tie_break_result_arbitration self state action step_key
                Hws Hvalid Ha) as (_ & _ & _ & _ & _ & Hdone).
    destruct (Hdone i Hi ltac:(apply not_elem_of_nil))
      as (o & req' & Ho & Hreq' & Hnew).
    fold nodes in Ho. rewrite Hko in Ho. injection Ho as <-.
    rewrite Hreq in Hreq'. injection Hreq' as <-. cbn in Hnew.
    rewrite (trim_final_lookup self state action step_key i false Ha Hi Hfin).
    f_equal. unfold finish_mask, masked_action, mask_visited_nodes.
    fold nodes. rewrite (jget_of_nat _ _ _ _ Hn), Hvis, Z.eqb_refl. cbn.
    rewrite (jget_of_nat _ _ _ _ Hnew). lia.
Qed.

Lemma uncontested_request_is_accepted_witness :
  exists a,
    (_trim_duplicated_invalid_actions (demo_env 3) (demo_run 3 0 []).1 [4; 5]
       1%nat).1 !! 0%nat = Some a
    /\ a = 4 /\ 0 <= a.
Proof.
  apply (uncontested_request_is_accepted (demo_env 3) (demo_run 3 0 []).1
           [4; 5] 1%nat 0 4 4).
  - reflexivity.
  - reflexivity.
  - reflexivity.
  - reflexivity.
  - vm_compute. discriminate.
  - intros j Hj. destruct j as [|[|j]]; [done | vm_compute; discriminate |].
    vm_compute. discriminate.
  - reflexivity.
  - lia.
  - reflexivity.
  - reflexivity.
Defined.

(** X19.  A tie-break is lost only to another requester of the same node:
    when an agent that requested a non-negative index ends a step with
    [INVALID_TIE_BREAK], its request resolved to a node that the loop
    granted to a different agent requesting that same node. *)
Theorem tie_break_lost_to_a_requester {Key} `{JaxRandom Key}
    (self : CoopMinSpanTree Key) (state : State Key) (action : list Z)
    (step_key : Key) (i : nat) (req : Z) :
  let nodes := resolve_nodes state action in
  let arg :=
    tie_break_loop self action nodes
      (random_permutation step_key (arange (num_agents self))) in
  well_shaped self state = true ->
  edges_valid state = true ->
  length action = num_agents self ->
  action !! i = Some req ->
  0 <= req ->
  (_trim_duplicated_invalid_actions self state action step_key).1 !! i
    = Some INVALID_TIE_BREAK ->
  exists k n req',
    k <> i /\ n <> EMPTY_NODE
    /\ nodes !! i = Some n /\ nodes !! k = Some n
    /\ action !! k = Some req' /\ la_new_actions arg !! k = Some req'.
Proof.
  intros nodes arg Hws Hvalid Ha Hreq Hpos Hfinal. subst arg.
  rewrite tie_break_loop_fold by apply length_random_permutation.
  cbn [loop_carry la_new_actions].
  pose proof (random_permutation_perm step_key (arange (num_agents self)))
    as Hperm.
  pose proof (agent_order_permutation _ _ Hperm) as Horder.
  pose proof (well_shaped_lengths self state Hws)
    as (He & Hp & _ & _ & _ & _ & Lf).
  pose proof (length_resolve_nodes state action _ He Hp Ha) as Hlen.
  assert (i < num_agents self)%nat as Hi.
  { apply lookup_lt_Some in Hreq. lia. }
  destruct (lookup_lt_is_Some_2 nodes i ltac:(subst nodes; lia)) as [n Hn].
  destruct (lookup_lt_is_Some_2 (finished_agents state) i ltac:(lia))
    as [f Hf].
  destruct (tie_break_result_arbitration self state action step_key
              Hws Hvalid Ha) as (_ & _ & _ & _ & _ & Hdone).
  destruct (Hdone i Hi ltac:(apply not_elem_of_nil))
    as (o & req0 & Ho & Hreq0 & Hnew).
  rewrite Hreq in Hreq0. injection Hreq0 as <-.
  (* the loop itself left INVALID_TIE_BREAK for agent i *)
  rewrite (trim_final_lookup self state action step_key i f Ha Hi Hf)
    in Hfinal.
  injection Hfinal as Hfinal.
  assert (o = TieBreakLost) as ->.
  { destruct f; [by rewrite finish_mask_true in Hfinal|].
    unfold finish_mask, masked_action, mask_visited_nodes in Hfinal.
    destruct (negb _); [done|].
    fold nodes in Hfinal. rewrite (jget_of_nat _ _ _ _ Hnew) in Hfinal.
    destruct o; cbn in Hfinal;
      unfold INVALID_CHOICE, INVALID_TIE_BREAK in *; simpl in Hfinal;
      [lia | lia | done]. }
  assert (n <> EMPTY_NODE) as Hne.
  { intros ->.
    pose proof (unresolved_result (num_agents self) action nodes
                  (random_permutation step_key (arange (num_agents self)))
                  i ltac:(subst nodes; lia) Hn) as Hu.
    fold nodes in Hnew. rewrite Hnew in Hu. done. }
  destruct (spec_arbitrate_grants nodes
              (Z.to_nat <$> random_permutation step_key
                              (arange (num_agents self)))
              ∅ ∅ i n) as (k & Hk & Hkn & Hko); try done.
  - rewrite Horder. apply NoDup_seq.
  - rewrite Horder. apply elem_of_seq. lia.
  - assert (k < num_agents self)%nat as Hklt.
    { rewrite Horder in Hk. apply elem_of_seq in Hk. lia. }
    destruct (Hdone k Hklt ltac:(apply not_elem_of_nil))
      as (o' & req' & Ho' & Hreq' & Hnew').
    fold nodes in Ho, Ho'. rewrite Hko in Ho'. injection Ho' as <-.
    exists k, n, req'. split_and!; try done.
    intros ->. rewrite Hko in Ho. done.
Qed.

Lemma tie_break_lost_to_a_requester_witness :
  let s := (demo_run 3 0 []).1 in
  let nodes := resolve_nodes s [4; 4] in
  let arg :=
    tie_break_loop (demo_env 3) [4; 4] nodes
      (random_permutation 1%nat (arange (num_agents (demo_env 3)))) in
  exists k n req',
    k <> 0%nat /\ n <> EMPTY_NODE
    /\ nodes !! 0%nat = Some n /\ nodes !! k = Some n
    /\ [4; 4] !! k = Some req' /\ la_new_actions arg !! k = Some req'.
Proof.
  apply (tie_break_lost_to_a_requester (demo_env 3) (demo_run 3 0 []).1
           [4; 4] 1%nat 0 4).
  - reflexivity.
  - reflexivity.
  - reflexivity.
  - reflexivity.
  - lia.
  - reflexivity.
Defined.

(** ** How far the write index can run *)

(** X20.  [position_index] never runs ahead of the step counter: if every
    agent's [position_index] is between 0 and [step_count] before a step,
    the same holds after it.  [reset] starts both at 0. *)
Theorem position_index_bounded_by_step_count {Key} `{JaxRandom Key}
    (self : CoopMinSpanTree Key) (state : State Key) (action : list Z) :
  let s' := (step self state action).1 in
  well_shaped self state = true ->
  (forall i index, position_index state !! i = Some index ->
                   0 <= index <= step_count state) ->
  forall i index, position_index s' !! i = Some index ->
                  0 <= index <= step_count s'.
Proof.
  intros s' Hws Hinv i index Hidx. subst s'.
  pose proof (well_shaped_lengths self _
                (step_well_shaped self state action Hws))
    as (_ & _ & Lpi' & _).
  assert (i < num_agents self)%nat as Hi.
  { apply lookup_lt_Some in Hidx. lia. }
  destruct (step_unfold self state action)
    as (_ & _ & _ & _ & _ & _ & _ & _ & _ & _ & _ & ->).
  pose proof (well_shaped_lengths self state Hws) as (_ & _ & Lpi & _).
  destruct (lookup_lt_is_Some_2 (position_index state) i ltac:(lia))
    as [old Hold].
  specialize (Hinv i old Hold).
  destruct (step_lookup self state action Hws i Hi) as (_ & _ & _ & Hnew).
  destruct (agent_result_cases state
              (_trim_duplicated_invalid_actions self state action
                 (random_split (key state)).2).1
              (_trim_duplicated_invalid_actions self state action
                 (random_split (key state)).2).2 i) as [Hr | [_ Hr]];
    rewrite Hr in Hnew; cbn in Hnew;
    rewrite (jget_of_nat _ _ _ _ Hold) in Hnew;
    rewrite Hnew in Hidx; injection Hidx as <-; lia.
Qed.

Lemma position_index_bounded_by_step_count_witness :
  let s := (demo_run 3 0 []).1 in
  let s' := (step (demo_env 3) s [4; 0]).1 in
  0 <= 1 <= step_count s'.
Proof.
  apply (position_index_bounded_by_step_count (demo_env 3)
           (demo_run 3 0 []).1 [4; 0]) with (i := 0%nat).
  - reflexivity.
  - intros i index Hi. destruct i as [|[|i]]; vm_compute in Hi;
      try discriminate; injection Hi as <-; vm_compute; split; discriminate.
  - reflexivity.
Defined.

(** ** The kind of time step a step returns *)

Lemma all_fmap_seq (f : nat -> bool) (n : nat) :
  all (f <$> seq 0 n) = true <-> forall i, (i < n)%nat -> f i = true.
Proof.
  unfold all. rewrite forallb_forall. split.
  - intros Hall i Hi. apply (Hall (f i)).
    apply list_elem_of_In, list_elem_of_fmap. exists i. split; [done|].
    apply elem_of_seq. lia.
  - intros Hall b Hb. apply list_elem_of_In, list_elem_of_fmap in Hb.
    destruct Hb as (i & -> & Hi%elem_of_seq). apply Hall. lia.
Qed.

(** The flags [step] returns: one per agent, each the result of the
    connectivity check on the agent's row of the returned state. *)
Lemma step_finished_agents {Key} `{JaxRandom Key} (self : CoopMinSpanTree Key)
    (state : State Key) (action : list Z) :
  well_shaped self state = true ->
  finished_agents (step self state action).1
  = agent_connected self (step self state action).1
    <$> seq 0 (num_agents self).
Proof.
  intros Hws.
  pose proof (well_shaped_lengths self state Hws)
    as (_ & _ & _ & _ & _ & _ & Lf).
  destruct (step_unfold self state action)
    as (Hm & Hn & Hfm & Hc & _ & _ & _ & _ & Hn' & _ & Hf & _).
  apply list_eq. intros i. rewrite Hf, list_lookup_fmap.
  destruct (decide (i < num_agents self)%nat) as [Hi|Hi].
  - rewrite get_finished_agents_lookup by (done || by rewrite Hfm).
    rewrite lookup_seq_lt by done. cbn [fmap option_fmap option_map].
    unfold agent_connected. by rewrite Hn, Hm, Hn', Hc.
  - rewrite lookup_ge_None_2
      by (rewrite length_get_finished_agents, Hfm, Lf; lia).
    rewrite lookup_seq_ge by lia. done.
Qed.

(** C5.  After the state update, counter included, [step] returns a
    termination exactly when all agents are finished, whether or not the
    step limit is reached; otherwise a truncation exactly when the counter
    has reached the step limit; otherwise a transition.  The flags are those
    of the returned state: on a state with one entry per agent there is one
    flag per agent, and the flag of an agent is the result of the check that
    counts its target nodes in its [connected_nodes] row.  So the step
    returns a termination exactly when every agent passes that check, that
    is, when the target rows have [num_nodes_per_agent] entries, exactly
    when every target node of every agent occurs in the agent's
    [connected_nodes] row. *)
Theorem step_timestep_kind {Key} `{JaxRandom Key}
    (self : CoopMinSpanTree Key) (state : State Key) (action : list Z) :
  let r := step self state action in
  step_count r.1 = step_count state + 1
  /\ (is_termination r.2 <-> all (finished_agents r.1) = true)
  /\ (all (finished_agents r.1) = false ->
      (is_truncation r.2 <-> _step_limit self <= step_count r.1))
  /\ (all (finished_agents r.1) = false ->
      step_count r.1 < _step_limit self -> is_transition r.2)
  /\ (well_shaped self state = true ->
      length (finished_agents r.1) = num_agents self
      /\ finished_agents r.1
         = agent_connected self r.1 <$> seq 0 (num_agents self)
      /\ nodes_to_connect r.1 = nodes_to_connect state
      /\ (is_termination r.2
          <-> forall i, (i < num_agents self)%nat ->
                        agent_connected self r.1 i = true)
      /\ (forallb (fun targets : list Z =>
                     (length targets =? num_nodes_per_agent self)%nat)
            (nodes_to_connect state) = true ->
          (is_termination r.2
           <-> forall i targets row,
                 nodes_to_connect r.1 !! i = Some targets ->
                 connected_nodes r.1 !! i = Some row ->
                 forall x, x ∈ targets -> x ∈ row))).
Proof.
  intros r. subst r.
  assert (well_shaped self state = true ->
          is_termination (step self state action).2
          <-> forall i, (i < num_agents self)%nat ->
                        agent_connected self (step self state action).1 i
                        = true) as Hterm.
  { intros Hws. rewrite step_timestep_kind_aux.
    rewrite (step_finished_agents self state action Hws).
    apply all_fmap_seq. }
  split_and!.
  - by destruct (step_unfold self state action)
      as (_ & _ & _ & _ & _ & _ & _ & _ & _ & _ & _ & ->).
  - apply step_timestep_kind_aux.
  - unfold step. destruct (step_state self state action) as [st act].
    apply state_to_timestep_kind.
  - unfold step. destruct (step_state self state action) as [st act].
    apply state_to_timestep_kind.
  - intros Hws.
    pose proof (well_shaped_lengths self _
                  (step_well_shaped self state action Hws))
      as (_ & _ & _ & Lcn & _ & Ln & Lf).
    destruct (step_unfold self state action)
      as (_ & _ & _ & _ & _ & _ & _ & _ & Hn' & _).
    split_and!; [done | by apply step_finished_agents | done
                 | by apply Hterm |].
    intros Hlen. rewrite (Hterm Hws). split.
    + intros Hall i targets row Ht Hrow.
      assert (i < num_agents self)%nat as Hi.
      { apply lookup_lt_Some in Ht. lia. }
      specialize (Hall i Hi). unfold agent_connected in Hall.
      rewrite (jget_of_nat _ _ _ _ Ht), (jget_of_nat _ _ _ _ Hrow) in Hall.
      apply (done_fun_subset targets row (num_nodes_per_agent self));
        [|done].
      rewrite forallb_forall in Hlen. apply Nat.eqb_eq, Hlen.
      apply list_elem_of_In, list_elem_of_lookup. exists i. by rewrite <- Hn'.
    + intros Hsub i Hi.
      destruct (lookup_lt_is_Some_2
                  (nodes_to_connect (step self state action).1) i
                  ltac:(lia)) as [targets Ht].
      destruct (lookup_lt_is_Some_2
                  (connected_nodes (step self state action).1) i
                  ltac:(lia)) as [row Hrow].
      unfold agent_connected.
      rewrite (jget_of_nat _ _ _ _ Ht), (jget_of_nat _ _ _ _ Hrow).
      apply (done_fun_subset targets row (num_nodes_per_agent self)).
      * rewrite forallb_forall in Hlen. apply Nat.eqb_eq, Hlen.
        apply list_elem_of_In, list_elem_of_lookup. exists i.
        by rewrite <- Hn'.
      * by apply (Hsub i).
Qed.

Lemma step_timestep_kind_witness :
  let r := step (demo_env 3) (demo_run 3 0 []).1 [1; 3] in
  length (finished_agents r.1) = num_agents (demo_env 3)
  /\ finished_agents r.1
     = agent_connected (demo_env 3) r.1 <$> seq 0 (num_agents (demo_env 3))
  /\ is_termination r.2
  /\ (forall i targets row,
        nodes_to_connect r.1 !! i = Some targets ->
        connected_nodes r.1 !! i = Some row ->
        forall x, x ∈ targets -> x ∈ row).
Proof.
  destruct (step_timestep_kind (demo_env 3) (demo_run 3 0 []).1 [1; 3])
    as (_ & _ & _ & _ & Hws).
  destruct (Hws eq_refl) as (Hlen & Hf & _ & Hterm & Hsub).
  assert (is_termination (step (demo_env 3) (demo_run 3 0 []).1 [1; 3]).2)
    as Ht.
  { apply Hterm. intros [|[|i]] Hi; [reflexivity | reflexivity |].
    simpl in Hi. lia. }
  split_and!; [exact Hlen | exact Hf | exact Ht |].
  by apply (Hsub eq_refl).
Defined.
